(** * resolver-engine, package [imports]: [src/utils.ts]

    A shallow embedding of the import scanner ([findImports]), of the two
    traversals ([gatherDepenencyTree] and [gatherSources]) and of the
    rewriting pass ([gatherSourcesAndCanonizeImports]), followed by the
    properties of the specification that were checked against them.

    Strings are sequences of 8-bit characters (code units below 256).
    A rejected promise is a value [Err e]; an awaited call that rejects
    makes the awaiting function reject with the same [e]. *)

From Stdlib Require Import String Ascii List Arith Lia DecimalString DecimalNat DecimalFacts.
From stdpp Require Import gmap strings list.
Import ListNotations.
Open Scope string_scope.
Open Scope list_scope.
#[local] Arguments String.append : simpl nomatch.
Set Warnings "-clear-no-such-hyp".

(** ** Results of awaited calls *)

Inductive Result (E A : Type) : Type :=
| Ok (a : A)
| Err (e : E).
Arguments Ok {E A} a.
Arguments Err {E A} e.

(** ** Regular expressions, with JavaScript's backtracking order

    Only the constructs the scanner's pattern uses: character classes,
    sequence, ordered alternative, greedy repetition of a character class
    and capture groups. *)

Module RegExp.

Definition chars := list ascii.

Inductive regex : Type :=
| Eps
| Chr (p : ascii -> bool)
| Seq (r1 r2 : regex)
| Alt (r1 r2 : regex)
| Star (p : ascii -> bool)
| Group (n : nat) (r : regex).

Definition captures := list (nat * chars).
Definition outcome := option (captures * chars).

Definition orElse (a b : outcome) : outcome :=
  match a with Some x => Some x | None => b end.

(** [p*], greedy: take one more character first, give it back when the
    rest of the pattern fails. *)
Fixpoint star (p : ascii -> bool) (s : chars) (c : captures)
    (k : chars -> captures -> outcome) : outcome :=
  match s with
  | a :: s' => if p a then orElse (star p s' c k) (k s c) else k s c
  | [] => k s c
  end.

(** [m r s c k]: match [r] at the front of [s], then continue with [k] on
    what is left; the first alternative that lets [k] succeed wins. *)
Fixpoint m (r : regex) (s : chars) (c : captures)
    (k : chars -> captures -> outcome) : outcome :=
  match r with
  | Eps => k s c
  | Chr p => match s with
             | a :: s' => if p a then k s' c else None
             | [] => None
             end
  | Seq r1 r2 => m r1 s c (fun s' c' => m r2 s' c' k)
  | Alt r1 r2 => orElse (m r1 s c k) (m r2 s c k)
  | Star p => star p s c k
  | Group n r =>
      m r s c (fun s' c' =>
        k s' ((n, firstn (length s - length s') s) :: c'))
  end.

Definition dquote : ascii := ascii_of_nat 34.
Definition squote : ascii := ascii_of_nat 39.
Definition is_char (c : ascii) : ascii -> bool := Ascii.eqb c.
Definition not_char (c : ascii) : ascii -> bool := fun a => negb (Ascii.eqb c a).

Fixpoint Lit (l : chars) : regex :=
  match l with
  | [] => Eps
  | a :: l' => Seq (Chr (is_char a)) (Lit l')
  end.

Definition Plus (p : ascii -> bool) : regex := Seq (Chr p) (Star p).

(** [\s]: TAB, LF, VT, FF, CR, SP and NBSP. *)
Definition white_space (a : ascii) : bool :=
  let n := nat_of_ascii a in
  ((n =? 9) || (n =? 10) || (n =? 11) || (n =? 12) || (n =? 13)
   || (n =? 32) || (n =? 160))%nat.

(** [.]: anything but a line terminator. *)
Definition dot (a : ascii) : bool :=
  let n := nat_of_ascii a in negb ((n =? 10) || (n =? 13))%nat.

Definition matchAt (r : regex) (s : chars) : outcome :=
  m r s [] (fun s' c => Some (c, s')).

(** [regex.exec] of a [g] pattern: the leftmost position from [lastIndex]
    on at which the pattern matches; [s] is the text from [lastIndex], the
    result carries the text from the new [lastIndex]. *)
Fixpoint exec (r : regex) (s : chars) : outcome :=
  match matchAt r s with
  | Some x => Some x
  | None => match s with
            | [] => None
            | _ :: s' => exec r s'
            end
  end.

Fixpoint capture (c : captures) (n : nat) : option chars :=
  match c with
  | [] => None
  | (i, v) :: c' => if (i =? n)%nat then Some v else capture c' n
  end.

End RegExp.
Import RegExp.

Definition str (s : string) : chars := list_ascii_of_string s.

(** ** [String.prototype.replace] with a string pattern *)

Module JS.

(** The text before and after the first occurrence of [pat] in [s]. *)
Fixpoint splitAtFirst (pat s : string) : option (string * string) :=
  if String.prefix pat s
  then Some (EmptyString, substring (String.length pat) (String.length s) s)
  else match s with
       | EmptyString => None
       | String a s' =>
           match splitAtFirst pat s' with
           | Some (pre, post) => Some (String a pre, post)
           | None => None
           end
       end.

(** [GetSubstitution] when the pattern is a string (no captures, no named
    groups): [$$], [$&], [$`] and [$'] are expanded, every other [$] stays. *)
Fixpoint GetSubstitution (matched pre post replacement : string) : string :=
  match replacement with
  | EmptyString => EmptyString
  | String a r =>
      if Ascii.eqb a "$" then
        match r with
        | EmptyString => String a EmptyString
        | String b r' =>
            if Ascii.eqb b "$" then String "$" (GetSubstitution matched pre post r')
            else if Ascii.eqb b "&" then matched +:+ GetSubstitution matched pre post r'
            else if Ascii.eqb b "`" then pre +:+ GetSubstitution matched pre post r'
            else if Ascii.eqb b "'" then post +:+ GetSubstitution matched pre post r'
            else String a (GetSubstitution matched pre post r)
        end
      else String a (GetSubstitution matched pre post r)
  end.

Definition replace (s pat replacement : string) : string :=
  match splitAtFirst pat s with
  | None => s
  | Some (pre, post) => pre +:+ GetSubstitution pat pre post replacement +:+ post
  end.

(** The key under which [for ... in] visits the element of index [i]. *)
Definition arrayKey (i : nat) : string := NilEmpty.string_of_uint (Nat.to_uint i).

(** [s[0] === "."] *)
Definition firstIsDot (s : string) : bool :=
  match s with
  | EmptyString => false
  | String a _ => Ascii.eqb a "."
  end.

End JS.

(** ** Node's [path] module (POSIX flavour) *)

Record PathModule : Type := {
  path_resolve : string -> string -> string;
  path_join : string -> string -> string;
  path_dirname : string -> string
}.

Module Posix.

Definition slash : ascii := "/".

Fixpoint splitOn (cur : string) (s : string) : list string :=
  match s with
  | EmptyString => [cur]
  | String a s' =>
      if Ascii.eqb a slash then cur :: splitOn EmptyString s'
      else splitOn (cur +:+ String a EmptyString) s'
  end.

(** One segment of [normalizeString], [res] holding the kept segments
    last first. *)
Definition normalizeSegment (allowAboveRoot : bool) (res : list string)
    (seg : string) : list string :=
  if (seg =? "") || (seg =? ".") then res
  else if seg =? ".." then
    match res with
    | last :: init =>
        if last =? ".." then (if allowAboveRoot then seg :: res else res)
        else init
    | [] => if allowAboveRoot then [seg] else []
    end
  else seg :: res.

Definition normalizeString (path : string) (allowAboveRoot : bool) : string :=
  String.concat "/"
    (rev (fold_left (normalizeSegment allowAboveRoot) (splitOn EmptyString path) [])).

Definition isAbsolute (path : string) : bool :=
  match path with
  | String a _ => Ascii.eqb a slash
  | EmptyString => false
  end.

Fixpoint endsWithSlash (path : string) : bool :=
  match path with
  | EmptyString => false
  | String a EmptyString => Ascii.eqb a slash
  | String _ s' => endsWithSlash s'
  end.

Definition normalize (path : string) : string :=
  if path =? "" then "."
  else
    let abs := isAbsolute path in
    let trailingSeparator := endsWithSlash path in
    let p := normalizeString path (negb abs) in
    if p =? "" then
      (if abs then "/" else if trailingSeparator then "./" else ".")
    else
      let p := if trailingSeparator then p +:+ "/" else p in
      if abs then "/" +:+ p else p.

Definition join (a b : string) : string :=
  if a =? "" then (if b =? "" then "." else normalize b)
  else if b =? "" then normalize a
  else normalize (a +:+ "/" +:+ b).

(** The loop of [dirname], from index [i] down to 1; [rpath] holds
    [path[i]], [path[i-1]], ..., [path[1]]. *)
Fixpoint dirnameEnd (rpath : chars) (i : nat) (matchedSlash : bool) : option nat :=
  match rpath with
  | [] => None
  | a :: r =>
      if Ascii.eqb a slash then
        (if matchedSlash then dirnameEnd r (i - 1) true else Some i)
      else dirnameEnd r (i - 1) false
  end.

Definition dirname (path : string) : string :=
  match path with
  | EmptyString => "."
  | String a tl =>
      let hasRoot := Ascii.eqb a slash in
      match dirnameEnd (rev (str tl)) (String.length tl) true with
      | None => if hasRoot then "/" else "."
      | Some e =>
          if hasRoot && (e =? 1)%nat then "//" else substring 0 e path
      end
  end.

(** [path.resolve(a, b)] in a process whose working directory is [pcwd]. *)
Definition resolve (pcwd : string) (a b : string) : string :=
  let step (acc : string * bool) (p : string) : string * bool :=
    if snd acc then acc
    else if p =? "" then acc
    else (p +:+ "/" +:+ fst acc, isAbsolute p) in
  let '(resolvedPath, resolvedAbsolute) :=
    step (step (step (EmptyString, false) b) a) pcwd in
  let resolvedPath := normalizeString resolvedPath (negb resolvedAbsolute) in
  if resolvedAbsolute then "/" +:+ resolvedPath
  else if resolvedPath =? "" then "." else resolvedPath.

Definition path (pcwd : string) : PathModule :=
  {| path_resolve := resolve pcwd; path_join := join; path_dirname := dirname |}.

End Posix.

(** ** Files, tree nodes and the resolver *)

Record ImportFile : Type := mkImportFile {
  url : string;
  source : string;
  provider : string
}.

Record ImportEdge : Type := mkEdge {
  edge_uri : string;
  edge_url : string
}.

Record ImportTreeNode : Type := mkNode {
  uri : string;
  imports : list ImportEdge;
  node_url : string;
  node_source : string;
  node_provider : string
}.

Record ResolverEngine (E : Type) : Type := {
  resolve : string -> string -> Result E string;
  require : string -> string -> Result E ImportFile
}.
Arguments resolve {E} _ _ _.
Arguments require {E} _ _ _.

(** ** [findImports] *)

(** The pattern of line 13 (flag g): the word import, white space, then
    either a quoted run of non-semicolons (group 1 in double quotes, group 2
    in single quotes) followed by a semicolon or by an [as] clause up to the
    next semicolon, or one or more characters of the line, the word from,
    white space, a quoted run of characters of the line (group 3 in double
    quotes, group 4 in single quotes) and a semicolon. *)
Definition quoted (q : ascii) (n : nat) (body : ascii -> bool) : regex :=
  Seq (Chr (is_char q)) (Seq (Group n (Star body)) (Chr (is_char q))).

Definition import_regex : regex :=
  Seq (Lit (str "import")) (Seq (Plus white_space)
    (Alt
       (Seq (Alt (quoted dquote 1 (not_char ";")) (quoted squote 2 (not_char ";")))
            (Alt (Chr (is_char ";"))
                 (Seq (Plus white_space) (Seq (Lit (str "as")) (Seq (Plus white_space)
                   (Seq (Star (not_char ";")) (Chr (is_char ";"))))))))
       (Seq (Plus dot) (Seq (Lit (str "from")) (Seq (Plus white_space)
         (Seq (Alt (quoted dquote 3 dot) (quoted squote 4 dot))
              (Chr (is_char ";")))))))).

(** The inner [for]: the first group that took part in the match. *)
Definition firstDefined (c : captures) : option chars :=
  match capture c 1, capture c 2, capture c 3, capture c 4 with
  | Some v, _, _, _ => Some v
  | None, Some v, _, _ => Some v
  | None, None, Some v, _ => Some v
  | None, None, None, v => v
  end.

Definition pushMatch (c : captures) (result : list string) : list string :=
  match firstDefined c with
  | Some v => result ++ [string_of_list_ascii v]
  | None => result
  end.

(** The [while] loop; every match consumes at least the word [import], so
    one unit of fuel per character of the text is never used up. *)
Fixpoint findImportsLoop (fuel : nat) (s : chars) (result : list string)
    : list string :=
  match fuel with
  | 0 => result
  | S fuel' =>
      match exec import_regex s with
      | Some (c, rest) => findImportsLoop fuel' rest (pushMatch c result)
      | None => result
      end
  end.

Definition findImports (data : ImportFile) : list string :=
  findImportsLoop (S (String.length (source data))) (str (source data)) [].

(** ** [stripNodes] and [canonizeFile] *)

Definition stripNodes (nodes : list ImportTreeNode) : list ImportFile :=
  map (fun node =>
         {| url := node_url node; source := node_source node;
            provider := node_provider node |}) nodes.

(** [file.imports.forEach(i => (file.source = file.source.replace(i.uri, i.url)))] *)
Definition canonizeSource (edges : list ImportEdge) (text : string) : string :=
  fold_left (fun src i => JS.replace src (edge_uri i) (edge_url i)) edges text.

Definition canonizeFile (file : ImportTreeNode) : ImportTreeNode :=
  {| uri := uri file; imports := imports file; node_url := node_url file;
     node_source := canonizeSource (imports file) (node_source file);
     node_provider := node_provider file |}.

(** ** [gatherSources]: the flat, queue-driven traversal *)

Module Flat.
Section Gather.
Context {E : Type}.
Variable path : PathModule.
Variable resolver : ResolverEngine E.

Record QueueEntry : Type := mkEntry {
  cwd : string;
  file : string;
  relativeTo : string
}.

Record State : Type := mkState {
  result : list ImportFile;
  queue : list QueueEntry;
  alreadyImported : gset string
}.

(** Body of [for (const i in foundImports)]: [i] is the key of the element
    (its index written in decimal), [foundImports[i]] the element. *)
Definition importName (relativePath : string) (i : nat) (found : string) : string :=
  let key := JS.arrayKey i in
  if JS.firstIsDot key then path_join path relativePath key else found.

Definition visitImport (fileParentDir relativePath : string)
    (acc : list QueueEntry * gset string) (i : nat) (found : string)
    : list QueueEntry * gset string :=
  let name := importName relativePath i found in
  if decide (name ∈ snd acc) then acc
  else (fst acc ++ [ {| cwd := fileParentDir; file := found;
                        relativeTo := path_dirname path relativePath |} ],
        {[ name ]} ∪ snd acc).

Fixpoint visitImports (fileParentDir relativePath : string) (i : nat)
    (foundImports : list string) (acc : list QueueEntry * gset string)
    : list QueueEntry * gset string :=
  match foundImports with
  | [] => acc
  | found :: rest =>
      visitImports fileParentDir relativePath (S i) rest
        (visitImport fileParentDir relativePath acc i found)
  end.

Definition relativePathOf (fileData : QueueEntry) : string :=
  if JS.firstIsDot (file fileData)
  then path_join path (relativeTo fileData) (file fileData)
  else file fileData.

(** One turn of the [while] loop on a non-empty queue. *)
Definition iteration (fileData : QueueEntry) (st : State) : Result E State :=
  match require resolver (file fileData) (cwd fileData) with
  | Err e => Err e
  | Ok resolvedFile =>
      let foundImports := findImports resolvedFile in
      let relativePath := relativePathOf fileData in
      let result' :=
        result st ++ [ {| url := relativePath; source := source resolvedFile;
                          provider := provider resolvedFile |} ] in
      let fileParentDir := path_dirname path (url resolvedFile) in
      let '(queue', seen') :=
        visitImports fileParentDir relativePath 0 foundImports
          (queue st, alreadyImported st) in
      Ok {| result := result'; queue := queue'; alreadyImported := seen' |}
  end.

(** The [while] loop; [None] when [fuel] turns were not enough. *)
Fixpoint loop (fuel : nat) (st : State) : option (Result E State) :=
  match queue st with
  | [] => Some (Ok st)
  | fileData :: rest =>
      match fuel with
      | 0 => None
      | S fuel' =>
          match iteration fileData
                  {| result := result st; queue := rest;
                     alreadyImported := alreadyImported st |} with
          | Err e => Some (Err e)
          | Ok st' => loop fuel' st'
          end
      end
  end.


Definition start (roots : list string) (workingDir : string) : State :=
  let absoluteRoots := map (path_resolve path workingDir) roots in
  {| result := [];
     queue := map (fun absWhat => {| cwd := workingDir; file := absWhat;
                                     relativeTo := workingDir |}) absoluteRoots;
     alreadyImported := list_to_set absoluteRoots |}.

Definition run (fuel : nat) (roots : list string) (workingDir : string)
    : option (Result E State) :=
  loop fuel (start roots workingDir).

Definition gatherSources (fuel : nat) (roots : list string) (workingDir : string)
    : option (Result E (list ImportFile)) :=
  match run fuel roots workingDir with
  | Some (Ok st) => Some (Ok (result st))
  | Some (Err e) => Some (Err e)
  | None => None
  end.

End Gather.
End Flat.

(** ** [gatherDepenencyTree]: the memoizing depth-first traversal

    [Promise.all(roots.map(dfs))] starts one [dfs] per root; each of them
    runs until its next [await] and is resumed later, in an order the
    settling of the resolver's promises decides.  A task is the chain of
    [dfs] activations of one root: the innermost one is suspended at an
    [await] of the resolver (or has just returned), the others are inside
    their [for] loop, awaiting the innermost one. *)

Module Tree.
Section Traversal.
Context {E : Type}.
Variable path : PathModule.
Variable resolver : ResolverEngine E.

Inductive Suspended : Type :=
| AtResolve (uri searchCwd : string)
    (** line 54: [resolver.resolve] was called, its promise is pending *)
| AtRequire (uri searchCwd url : string)
    (** line 59: [resolver.require] was called, its promise is pending *)
| AtReturn (url : string)
    (** [dfs] has returned [url]; the awaiting caller was not yet resumed *)
| AtThrow (e : E).
    (** [dfs] has rejected with [e]; the awaiting caller was not yet resumed *)

(** An activation of [dfs] inside its [for] loop (line 69). *)
Record LoopFrame : Type := mkFrame {
  fileNode : ImportTreeNode;
  resolvedCwd : string;
  importUri : string;
  pending : list string
}.

Inductive Task : Type :=
| Running (at_ : Suspended) (stack : list LoopFrame)
| Fulfilled (url : string)
| Rejected (e : E).

Record State : Type := mkState {
  result : list ImportTreeNode;
  alreadyImported : gset string;
  tasks : list Task;
  fetched : list (string * string * string);
    (** every call of [resolver.require]: its two arguments and the [url]
        the calling [dfs] had resolved them to *)
  failure : option E
    (** the first rejection seen by [Promise.all] *)
}.

(** Lines 68-74 from the head of the loop: start the next [dfs] and suspend
    in it, or push the finished node and return. *)
Definition continueLoop (node : ImportTreeNode) (cwd_ : string)
    (todo : list string) (stack : list LoopFrame)
    (res : list ImportTreeNode) : Task * list ImportTreeNode :=
  match todo with
  | importUri_ :: rest =>
      (Running (AtResolve importUri_ cwd_)
         ({| fileNode := node; resolvedCwd := cwd_;
             importUri := importUri_; pending := rest |} :: stack),
       res)
  | [] => (Running (AtReturn (node_url node)) stack, res ++ [node])
  end.

Definition pushImport (node : ImportTreeNode) (e : ImportEdge) : ImportTreeNode :=
  {| uri := uri node; imports := imports node ++ [e];
     node_url := node_url node; node_source := node_source node;
     node_provider := node_provider node |}.

Definition setTask (i : nat) (t : Task) (st : State) : State :=
  {| result := result st; alreadyImported := alreadyImported st;
     tasks := <[i := t]> (tasks st); fetched := fetched st;
     failure := failure st |}.

Definition reject (i : nat) (e : E) (st : State) : State :=
  {| result := result st; alreadyImported := alreadyImported st;
     tasks := <[i := Rejected e]> (tasks st); fetched := fetched st;
     failure := match failure st with Some e0 => Some e0 | None => Some e end |}.

(** Resume task [i] and run it up to its next suspension. *)
Definition resume (i : nat) (st : State) : State :=
  match tasks st !! i with
  | Some (Running (AtResolve uri_ searchCwd) stack) =>
      match resolve resolver uri_ searchCwd with
      | Err e => setTask i (Running (AtThrow e) stack) st
      | Ok url_ =>
          if decide (url_ ∈ alreadyImported st)
          then setTask i (Running (AtReturn url_) stack) st
          else
            {| result := result st; alreadyImported := alreadyImported st;
               tasks := <[i := Running (AtRequire uri_ searchCwd url_) stack]> (tasks st);
               fetched := fetched st ++ [(uri_, searchCwd, url_)];
               failure := failure st |}
      end
  | Some (Running (AtRequire uri_ searchCwd url_) stack) =>
      match require resolver uri_ searchCwd with
      | Err e => setTask i (Running (AtThrow e) stack) st
      | Ok resolvedFile =>
          let foundImportURIs := findImports resolvedFile in
          let node := {| uri := uri_; imports := [];
                         node_url := url resolvedFile;
                         node_source := source resolvedFile;
                         node_provider := provider resolvedFile |} in
          let '(t, res) :=
            continueLoop node (path_dirname path url_) foundImportURIs stack
              (result st) in
          {| result := res; alreadyImported := {[ url_ ]} ∪ alreadyImported st;
             tasks := <[i := t]> (tasks st); fetched := fetched st;
             failure := failure st |}
      end
  | Some (Running (AtReturn importUrl) (fr :: stack)) =>
      let node := pushImport (fileNode fr)
                    {| edge_uri := importUri fr; edge_url := importUrl |} in
      let '(t, res) :=
        continueLoop node (resolvedCwd fr) (pending fr) stack (result st) in
      {| result := res; alreadyImported := alreadyImported st;
         tasks := <[i := t]> (tasks st); fetched := fetched st;
         failure := failure st |}
  | Some (Running (AtReturn url_) []) => setTask i (Fulfilled url_) st
  | Some (Running (AtThrow e) (_ :: stack)) =>
      (* line 69: the [await] throws and the calling [dfs] rejects *)
      setTask i (Running (AtThrow e) stack) st
  | Some (Running (AtThrow e) []) => reject i e st
  | Some (Fulfilled _) | Some (Rejected _) | None => st
  end.

(** [roots.map(what => dfs({ searchCwd: workingDir, uri: what }))] *)
Definition start (roots : list string) (workingDir : string) : State :=
  {| result := []; alreadyImported := ∅;
     tasks := map (fun what => Running (AtResolve what workingDir) []) roots;
     fetched := []; failure := None |}.

(** A schedule names the task resumed at each turn of the event loop. *)
Definition run (schedule : list nat) (st : State) : State :=
  fold_left (fun s i => resume i s) schedule st.

Definition isFulfilled (t : Task) : bool :=
  match t with Fulfilled _ => true | _ => false end.

Definition isSettled (t : Task) : bool :=
  match t with Running _ _ => false | _ => true end.

(** What [await Promise.all(...)] followed by [return result] gives: the
    first rejection as soon as there is one, the result once every root
    is fulfilled, nothing yet otherwise. *)
Definition settled (st : State) : option (Result E (list ImportTreeNode)) :=
  match failure st with
  | Some e => Some (Err e)
  | None => if forallb isFulfilled (tasks st) then Some (Ok (result st)) else None
  end.

Definition gatherDepenencyTree (schedule : list nat) (roots : list string)
    (workingDir : string) : option (Result E (list ImportTreeNode)) :=
  settled (run schedule (start roots workingDir)).

Definition gatherSourcesAndCanonizeImports (schedule : list nat)
    (roots : list string) (workingDir : string)
    : option (Result E (list ImportFile)) :=
  match gatherDepenencyTree schedule roots workingDir with
  | Some (Ok sources) => Some (Ok (stripNodes (map canonizeFile sources)))
  | Some (Err e) => Some (Err e)
  | None => None
  end.

(** [dfs] as it is written, for a traversal that no other task interleaves
    with: the shared [result], [alreadyImported] and the log of calls are
    threaded through the recursion; [None] when [fuel] activations were not
    enough. *)
Record Store : Type := mkStore {
  nodes : list ImportTreeNode;
  seen : gset string;
  calls : list (string * string * string)
}.

(** Lines 68-71, over a [dfs] given as [call]. *)
Definition dfsLoop
    (call : string -> string -> Store -> option (Result E (string * Store)))
    (cwd_ : string)
    : list string -> ImportTreeNode -> Store
      -> option (Result E (ImportTreeNode * Store)) :=
  fix loop (todo : list string) (node : ImportTreeNode) (s : Store) {struct todo} :=
    match todo with
    | [] => Some (Ok (node, s))
    | importUri_ :: rest =>
        match call importUri_ cwd_ s with
        | Some (Ok (importUrl, s')) =>
            loop rest
              (pushImport node {| edge_uri := importUri_; edge_url := importUrl |})
              s'
        | Some (Err e) => Some (Err e)
        | None => None
        end
    end.

Fixpoint dfs (fuel : nat) (uri_ searchCwd : string) (s : Store)
    : option (Result E (string * Store)) :=
  match fuel with
  | 0 => None
  | S fuel' =>
      match resolve resolver uri_ searchCwd with
      | Err e => Some (Err e)
      | Ok url_ =>
          if decide (url_ ∈ seen s) then Some (Ok (url_, s))
          else
            match require resolver uri_ searchCwd with
            | Err e => Some (Err e)
            | Ok resolvedFile =>
                let fileNode_ := {| uri := uri_; imports := [];
                                    node_url := url resolvedFile;
                                    node_source := source resolvedFile;
                                    node_provider := provider resolvedFile |} in
                match dfsLoop (dfs fuel') (path_dirname path url_)
                        (findImports resolvedFile) fileNode_
                        {| nodes := nodes s; seen := {[ url_ ]} ∪ seen s;
                           calls := calls s ++ [(uri_, searchCwd, url_)] |} with
                | Some (Ok (node, s')) =>
                    Some (Ok (url resolvedFile,
                              {| nodes := nodes s' ++ [node]; seen := seen s';
                                 calls := calls s' |}))
                | Some (Err e) => Some (Err e)
                | None => None
                end
            end
      end
  end.

(** The state in which task [i] is [t] and the shared objects are as in
    the store. *)
Definition atStore (st : State) (i : nat) (t : Task)
    (res : list ImportTreeNode) (imported : gset string)
    (log : list (string * string * string)) : State :=
  {| result := res; alreadyImported := imported;
     tasks := <[i := t]> (tasks st); fetched := log; failure := failure st |}.

(** What a run of task [i] alone makes of an outcome of the recursion. *)
Definition returnsAs (st : State) (i : nat) (stack : list LoopFrame)
    (from : State) (out : Result E (string * Store)) : Prop :=
  match out with
  | Ok (v, s') =>
      exists n, run (repeat i n) from
                = atStore st i (Running (AtReturn v) stack)
                    (nodes s') (seen s') (calls s')
  | Err e =>
      exists n res V log,
        run (repeat i n) from = atStore st i (Running (AtThrow e) stack) res V log
  end.

Definition loopEndsAs (st : State) (i : nat) (stack : list LoopFrame)
    (node : ImportTreeNode) (from : State)
    (out : Result E (ImportTreeNode * Store)) : Prop :=
  match out with
  | Ok (node', s') =>
      node_url node' = node_url node
      /\ exists n, run (repeat i n) from
                   = atStore st i
                       (Running (AtReturn (node_url node')) stack)
                       (nodes s' ++ [node']) (seen s') (calls s')
  | Err e =>
      exists n res V log,
        run (repeat i n) from = atStore st i (Running (AtThrow e) stack) res V log
  end.

(** The traversal moves when some unsettled task is resumed. *)
Definition moves (st st' : State) : Prop :=
  exists i t, tasks st !! i = Some t /\ isSettled t = false /\ st' = resume i st.

End Traversal.
End Tree.

(** ** Resolvers and files used in the examples *)

Inductive ResolverError : Type := NotFound | FetchError.

Definition nl : string := String (ascii_of_nat 10) EmptyString.
Definition dq (s : string) : string := String dquote s +:+ String dquote EmptyString.
Definition sq (s : string) : string := String squote s +:+ String squote EmptyString.

Fixpoint lookupFile (files : list (string * string)) (p : string) : option string :=
  match files with
  | [] => None
  | (name, text) :: rest => if name =? p then Some text else lookupFile rest p
  end.

(** A resolver over an in-memory file system: a reference is looked up
    under the search directory (or as it is when absolute). *)
Definition fsLocate (uri_ cwd_ : string) : string :=
  if Posix.isAbsolute uri_ then Posix.normalize uri_ else Posix.join cwd_ uri_.

Definition fsResolver (files : list (string * string)) : ResolverEngine ResolverError :=
  {| resolve := fun uri_ cwd_ =>
       match lookupFile files (fsLocate uri_ cwd_) with
       | Some _ => Ok (fsLocate uri_ cwd_)
       | None => Err NotFound
       end;
     require := fun uri_ cwd_ =>
       match lookupFile files (fsLocate uri_ cwd_) with
       | Some text => Ok {| url := fsLocate uri_ cwd_; source := text; provider := "fs" |}
       | None => Err NotFound
       end |}.

(** The same files behind a resolver whose [resolve] is pure path
    arithmetic and succeeds whether or not the file exists. *)
Definition lazyResolver (files : list (string * string)) : ResolverEngine ResolverError :=
  {| resolve := fun uri_ cwd_ => Ok (fsLocate uri_ cwd_);
     require := require (fsResolver files) |}.

Definition imp (s : string) : string := "import " +:+ dq s +:+ ";" +:+ nl.

(** [b.sol] pulls in a sibling and a package file. *)
Definition projectFiles : list (string * string) :=
  [ ("/w/a/b.sol", imp "./c.sol" +:+ imp "pkg/d.sol");
    ("/w/a/c.sol", "contract C {}");
    ("/w/a/pkg/d.sol", "contract D {}") ].

(** Two files that import each other. *)
Definition cyclicFiles : list (string * string) :=
  [ ("/w/a.sol", imp "./b.sol"); ("/w/b.sol", imp "./a.sol") ].

(** Two directories, each with its own [c.sol]. *)
Definition twoDirFiles : list (string * string) :=
  [ ("/w/a/b.sol", imp "./c.sol"); ("/w/d/e.sol", imp "./c.sol");
    ("/w/a/c.sol", "contract C1 {}"); ("/w/d/c.sol", "contract C2 {}") ].

(** Two roots with a common import. *)
Definition sharedFiles : list (string * string) :=
  [ ("/w/a.sol", imp "./f.sol"); ("/w/b.sol", imp "./f.sol");
    ("/w/f.sol", "contract F {}") ].

Definition node : PathModule := Posix.path "/home".

(** A file that mentions its import in a comment as well. *)
Definition commentedFiles : list (string * string) :=
  [ ("/w/main.sol", "// uses lib.sol" +:+ nl +:+ imp "lib.sol");
    ("/w/lib.sol", "contract L {}") ].

(** ** Notions used in the statements *)

(** [pat] occurs somewhere in [s]. *)
Definition occursIn (pat s : string) : bool :=
  match JS.splitAtFirst pat s with Some _ => true | None => false end.

(** Following the specification's words for the rewriting pass: every
    occurrence of the literal is replaced, left to right. *)
Fixpoint replaceEvery (fuel : nat) (pat rep s : string) : string :=
  match fuel with
  | 0 => s
  | S fuel' =>
      match JS.splitAtFirst pat s with
      | None => s
      | Some (pre, post) => pre +:+ rep +:+ replaceEvery fuel' pat rep post
      end
  end.

Definition spec_canonizeSource (edges : list ImportEdge) (text : string) : string :=
  fold_left (fun src i =>
               replaceEvery (S (String.length src)) (edge_uri i) (edge_url i) src)
            edges text.

(** ** Tree nodes of the examples *)

Definition mainNode : ImportTreeNode :=
  {| uri := "main.sol";
     imports := [ {| edge_uri := "lib.sol"; edge_url := "/w/lib.sol" |} ];
     node_url := "/w/main.sol";
     node_source := "// uses lib.sol" +:+ nl +:+ imp "lib.sol";
     node_provider := "fs" |}.

Definition libNode : ImportTreeNode :=
  {| uri := "lib.sol"; imports := []; node_url := "/w/lib.sol";
     node_source := "contract L {}"; node_provider := "fs" |}.

Definition bNode : ImportTreeNode :=
  {| uri := "a/b.sol";
     imports := [ {| edge_uri := "./c.sol"; edge_url := "/w/a/c.sol" |};
                  {| edge_uri := "pkg/d.sol"; edge_url := "/w/a/pkg/d.sol" |} ];
     node_url := "/w/a/b.sol";
     node_source := imp "./c.sol" +:+ imp "pkg/d.sol";
     node_provider := "fs" |}.

Definition aNode : ImportTreeNode :=
  {| uri := "a.sol";
     imports := [ {| edge_uri := "./b.sol"; edge_url := "/w/b.sol" |} ];
     node_url := "/w/a.sol"; node_source := imp "./b.sol";
     node_provider := "fs" |}.


Definition fNode : ImportTreeNode :=
  {| uri := "./f.sol"; imports := []; node_url := "/w/f.sol";
     node_source := "contract F {}"; node_provider := "fs" |}.

Definition importsF (root : string) : ImportTreeNode :=
  {| uri := root;
     imports := [ {| edge_uri := "./f.sol"; edge_url := "/w/f.sol" |} ];
     node_url := "/w/" +:+ root; node_source := imp "./f.sol";
     node_provider := "fs" |}.

(** The two roots resumed in turn, as when the resolver's promises settle
    in the order in which they were requested. *)
Definition alternating : list nat := [0; 1; 0; 1; 0; 1; 0; 1; 0; 1; 0; 1].

(** The first root run to its end before the second one is resumed. *)
Definition oneAfterTheOther : list nat := [0; 0; 0; 0; 0; 0; 1; 1; 1; 1; 1].

(** ** Measures of the work a traversal has left

    [locators] lists the locators of the files that can be fetched. *)

Module Measure.
Section Measures.
Context {E : Type}.
Variable locators : list string.

(** Locators not yet in [alreadyImported]. *)
Definition unvisited (seen : gset string) : nat :=
  length (filter (fun u => u ∉ seen) locators).

(** A task whose pending [require] is for a locator another task has added
    in the meantime will still expand it once. *)
Definition waiting (seen : gset string) (t : @Tree.Task E) : nat :=
  match t with
  | Tree.Running (Tree.AtRequire _ _ u) _ => if decide (u ∈ seen) then 1 else 0
  | _ => 0
  end.

Definition potential (seen : gset string) (t : @Tree.Task E) : nat :=
  unvisited seen + waiting seen t.

Definition atWeight (a : @Tree.Suspended E) : nat :=
  match a with
  | Tree.AtResolve _ _ => 3
  | Tree.AtRequire _ _ _ => 2
  | Tree.AtReturn _ => 1
  | Tree.AtThrow _ => 1
  end.

Definition frameWeight (fr : Tree.LoopFrame) : nat :=
  4 * length (Tree.pending fr) + 2.

Definition work (t : @Tree.Task E) : nat :=
  match t with
  | Tree.Running a stack => atWeight a + sum_list_with frameWeight stack
  | _ => 0
  end.

(** Expansions that may still happen, and steps left without one. *)
Definition fetchesLeft (st : @Tree.State E) : nat :=
  sum_list_with (potential (Tree.alreadyImported st)) (Tree.tasks st).

Definition workLeft (st : @Tree.State E) : nat :=
  sum_list_with work (Tree.tasks st).

(** Every pending [require] is for the locator [resolve] has returned for
    its arguments. *)
Definition requiresKnown (resolver : ResolverEngine E) (st : @Tree.State E) : Prop :=
  forall i uri_ cwd_ u stack,
    Tree.tasks st !! i = Some (Tree.Running (Tree.AtRequire uri_ cwd_ u) stack) ->
    resolve resolver uri_ cwd_ = Ok u.

End Measures.
End Measure.

(** A rejected task has been seen by [Promise.all]. *)
Definition rejectionsSeen {E : Type} (st : @Tree.State E) : Prop :=
  Tree.failure st = None ->
  forall i e, Tree.tasks st !! i <> Some (Tree.Rejected e).

(** ** Where the locator of an import edge comes from *)

Module Edges.
Section Edges.
Context {E : Type}.
Variable path : PathModule.
Variable resolver : ResolverEngine E.
Variable roots : list string.
Variable workingDir : string.

(** Line 55 in the run [schedule]: at one of its turns the [dfs] called for
    the literal [r] from directory [d] was resumed after [resolve], which
    gave [u], and looked [u] up in [alreadyImported]; [visited] is what
    [has] answered. *)
Definition checkedAt (schedule : list nat) (r d u : string) (visited : bool)
    : Prop :=
  exists before i after stack,
    schedule = before ++ i :: after
    /\ Tree.tasks (Tree.run path resolver before (Tree.start roots workingDir)) !! i
       = Some (Tree.Running (Tree.AtResolve r d) stack)
    /\ resolve resolver r d = Ok u
    /\ bool_decide
         (u ∈ Tree.alreadyImported
                (Tree.run path resolver before (Tree.start roots workingDir)))
       = visited.

(** Line 56: the target was already visited; the edge carries the locator
    [resolve] gave. *)
Definition fromResolve (schedule : list nat) (d : string) (e : ImportEdge) : Prop :=
  checkedAt schedule (edge_uri e) d (edge_url e) true.

(** Line 74: the target was fresh; the edge carries the url of the file
    [require] returned. *)
Definition fromRequire (schedule : list nat) (d : string) (e : ImportEdge) : Prop :=
  exists u f,
    checkedAt schedule (edge_uri e) d u false
    /\ require resolver (edge_uri e) d = Ok f /\ url f = edge_url e.

Definition edgeOk (schedule : list nat) (d : string) (e : ImportEdge) : Prop :=
  fromResolve schedule d e \/ fromRequire schedule d e.


(** [n] holds the file fetched for a reference that resolved to a locator
    in directory [d]. *)
Definition searchedFrom (d : string) (n : ImportTreeNode) : Prop :=
  exists uri_ cwd_ u f,
    resolve resolver uri_ cwd_ = Ok u /\ require resolver uri_ cwd_ = Ok f
    /\ node_url n = url f /\ d = path_dirname path u.

Definition nodeOk (schedule : list nat) (d : string) (n : ImportTreeNode) : Prop :=
  searchedFrom d n /\ forall e, In e (imports n) -> edgeOk schedule d e.

Definition calledFrom (stack : list Tree.LoopFrame) (uri_ cwd_ : string) : Prop :=
  match stack with
  | [] => True
  | fr :: _ => uri_ = Tree.importUri fr /\ cwd_ = Tree.resolvedCwd fr
  end.

Definition returnsTo (stack : list Tree.LoopFrame) (ok : string -> ImportEdge -> Prop)
    (v : string) : Prop :=
  match stack with
  | [] => True
  | fr :: _ =>
      ok (Tree.resolvedCwd fr) {| edge_uri := Tree.importUri fr; edge_url := v |}
  end.

Fixpoint stackOk (schedule : list nat) (stack : list Tree.LoopFrame) : Prop :=
  match stack with
  | [] => True
  | g :: below =>
      nodeOk schedule (Tree.resolvedCwd g) (Tree.fileNode g)
      /\ returnsTo below (fromRequire schedule) (node_url (Tree.fileNode g))
      /\ stackOk schedule below
  end.

Definition taskOk (schedule : list nat) (t : @Tree.Task E) : Prop :=
  match t with
  | Tree.Running a stack =>
      stackOk schedule stack
      /\ match a with
         | Tree.AtResolve uri_ cwd_ => calledFrom stack uri_ cwd_
         | Tree.AtRequire uri_ cwd_ u =>
             checkedAt schedule uri_ cwd_ u false /\ calledFrom stack uri_ cwd_
         | Tree.AtReturn v => returnsTo stack (edgeOk schedule) v
         | Tree.AtThrow _ => True
         end
  | _ => True
  end.

Definition stateOk (schedule : list nat) : Prop :=
  (forall n, In n (Tree.result (Tree.run path resolver schedule
                                  (Tree.start roots workingDir))) ->
             exists d, nodeOk schedule d n)
  /\ (forall i t,
        Tree.tasks (Tree.run path resolver schedule
                      (Tree.start roots workingDir)) !! i = Some t ->
        taskOk schedule t).


End Edges.
End Edges.






(** A continuation that never hands back more text than it was given. *)
Definition shrinking (k : chars -> captures -> outcome) : Prop :=
  forall s c x, k s c = Some x -> length x.2 <= length s.

Definition textFile (text : string) : ImportFile :=
  {| url := "/w/t.sol"; source := text; provider := "fs" |}.

(** The locators of the calls of [require] so far. *)
Definition fetchedUrls {E : Type} (st : @Tree.State E) : list string :=
  map (fun call => call.2) (Tree.fetched st).

(** ** Import statements of the three shapes *)

(** [p] fails on the first character of [r], if there is one. *)
Definition stops (p : ascii -> bool) (r : chars) : Prop :=
  match r with [] => True | a :: _ => p a = false end.

Definition all (p : ascii -> bool) (l : chars) : Prop := forallb p l = true.

Definition isQuote (q : ascii) : Prop := q = dquote \/ q = squote.

(** The group that captures a path quoted with [q], in the quote-first
    alternative and in the [from] alternative. *)
Definition groupOf (q : ascii) : nat := if Ascii.eqb q dquote then 1 else 2.
Definition fromGroupOf (q : ascii) : nat := if Ascii.eqb q dquote then 3 else 4.

Definition quotedStr (q : ascii) (p : string) : string :=
  String q (p +:+ String q EmptyString).

Definition bareImport (q : ascii) (p : string) : string :=
  "import " +:+ quotedStr q p +:+ ";".

Definition aliasedImport (q : ascii) (p name : string) : string :=
  "import " +:+ quotedStr q p +:+ " as " +:+ name +:+ ";".

Definition fromImport (q : ascii) (binding p : string) : string :=
  "import " +:+ binding +:+ " from " +:+ quotedStr q p +:+ ";".

(** Characters of a name or of a path written without blanks or quotes. *)
Definition plain (a : ascii) : bool :=
  negb (white_space a) && not_char dquote a && not_char squote a.

(** ** What a match of the pattern consumed *)

(** [matches r s s' c c']: [r] can consume the front of [s] down to [s'],
    taking the captures from [c] to [c']. *)
Inductive matches : regex -> chars -> chars -> captures -> captures -> Prop :=
| matches_Eps (s : chars) (c : captures) : matches Eps s s c c
| matches_Chr (p : ascii -> bool) (a : ascii) (s : chars) (c : captures) :
    p a = true -> matches (Chr p) (a :: s) s c c
| matches_Seq (r1 r2 : regex) (s s1 s2 : chars) (c c1 c2 : captures) :
    matches r1 s s1 c c1 -> matches r2 s1 s2 c1 c2 ->
    matches (Seq r1 r2) s s2 c c2
| matches_Alt_l (r1 r2 : regex) (s s' : chars) (c c' : captures) :
    matches r1 s s' c c' -> matches (Alt r1 r2) s s' c c'
| matches_Alt_r (r1 r2 : regex) (s s' : chars) (c c' : captures) :
    matches r2 s s' c c' -> matches (Alt r1 r2) s s' c c'
| matches_Star (p : ascii -> bool) (l s : chars) (c : captures) :
    all p l -> matches (Star p) (l ++ s) s c c
| matches_Group (n : nat) (r : regex) (s s' : chars) (c c' : captures) :
    matches r s s' c c' ->
    matches (Group n r) s s' c ((n, firstn (length s - length s') s) :: c').

(** ** Import statements, one per line *)






(** ** Nodes and the files they were built from *)

(** The file a node extends (line 65). *)
Definition fileOf (n : ImportTreeNode) : ImportFile :=
  {| url := node_url n; source := node_source n; provider := node_provider n |}.

Module Faithful.
Section Faithful.
Context {E : Type}.
Variable resolver : ResolverEngine E.

(** [n] holds the file [require] returned for the reference [uri n], and
    one edge for each import literal of that file up to those in [todo]. *)
Definition nodeFaithful (todo : list string) (n : ImportTreeNode) : Prop :=
  (exists cwd_, require resolver (uri n) cwd_ = Ok (fileOf n))
  /\ map edge_uri (imports n) ++ todo = findImports (fileOf n).

Definition frameFaithful (fr : Tree.LoopFrame) : Prop :=
  nodeFaithful (Tree.importUri fr :: Tree.pending fr) (Tree.fileNode fr).

Definition stateFaithful (st : @Tree.State E) : Prop :=
  Forall (nodeFaithful []) (Tree.result st)
  /\ forall i a stack,
       Tree.tasks st !! i = Some (Tree.Running a stack) ->
       Forall frameFaithful stack.

End Faithful.
End Faithful.

(** ** Calls of [require], task by task *)

(** Whether a task can no longer call [require] for the locator [u]: it
    has such a call pending, or [u] is in [alreadyImported], or the task
    has rejected or settled. *)
Definition charged {E : Type} (u : string) (seen : gset string)
    (t : @Tree.Task E) : nat :=
  match t with
  | Tree.Running (Tree.AtRequire _ _ u') _ =>
      if decide (u' = u \/ u ∈ seen) then 1 else 0
  | Tree.Running (Tree.AtThrow _) _ => 1
  | Tree.Running _ _ => if decide (u ∈ seen) then 1 else 0
  | _ => 1
  end.

Definition fetchesOf {E : Type} (u : string) (st : @Tree.State E) : nat :=
  count_occ string_dec (fetchedUrls st) u.

(** The calls of [require] for [u] so far are covered by the tasks that
    can make no further one. *)
Definition fetchesCharged {E : Type} (u : string) (st : @Tree.State E) : Prop :=
  fetchesOf u st
  <= sum_list_with (charged u (Tree.alreadyImported st)) (Tree.tasks st).

(** ** The traversal of a single root *)

(** Where the node of the root is while its traversal runs: not yet
    built, in the outermost activation of [dfs], or last in [result]. *)
Definition rootLast {E : Type} (root : string) (st : @Tree.State E) : Prop :=
  exists t,
    Tree.tasks st = [t]
    /\ match t with
       | Tree.Running (Tree.AtThrow _) _ => True
       | Tree.Running (Tree.AtResolve u _) [] =>
           u = root /\ Tree.alreadyImported st = ∅
       | Tree.Running (Tree.AtRequire u _ _) [] => u = root
       | Tree.Running (Tree.AtReturn _) [] | Tree.Fulfilled _ =>
           exists before n, Tree.result st = before ++ [n] /\ uri n = root
       | Tree.Running _ (fr :: stack) =>
           uri (Tree.fileNode (List.last stack fr)) = root
       | Tree.Rejected _ => True
       end.

(** ** Where the arguments of [require] come from *)

Module Calls.
Section Calls.
Context {E : Type}.
Variable path : PathModule.
Variable resolver : ResolverEngine E.
Variable roots : list string.
Variable workingDir : string.

(** [literal] was found in the file of an earlier call, and [dir] is the
    directory of the locator that call was for. *)
Definition importedBy (log : list (string * string * string))
    (literal dir : string) : Prop :=
  exists uri_ cwd_ u f,
    In (uri_, cwd_, u) log /\ require resolver uri_ cwd_ = Ok f
    /\ In literal (findImports f) /\ dir = path_dirname path u.

(** A root searched from the working directory, or an import literal
    searched from the directory of the file that holds it. *)
Definition callOk (log : list (string * string * string))
    (uri_ cwd_ : string) : Prop :=
  (In uri_ roots /\ cwd_ = workingDir) \/ importedBy log uri_ cwd_.

Definition frameOk (log : list (string * string * string))
    (fr : Tree.LoopFrame) : Prop :=
  forall x, In x (Tree.importUri fr :: Tree.pending fr) ->
            importedBy log x (Tree.resolvedCwd fr).

Definition calledFor (stack : list Tree.LoopFrame) (uri_ cwd_ : string) : Prop :=
  match stack with
  | [] => In uri_ roots /\ cwd_ = workingDir
  | fr :: _ => uri_ = Tree.importUri fr /\ cwd_ = Tree.resolvedCwd fr
  end.

Definition taskOk (log : list (string * string * string))
    (t : @Tree.Task E) : Prop :=
  match t with
  | Tree.Running a stack =>
      Forall (frameOk log) stack
      /\ match a with
         | Tree.AtResolve uri_ cwd_ => calledFor stack uri_ cwd_
         | Tree.AtRequire uri_ cwd_ u =>
             calledFor stack uri_ cwd_ /\ In (uri_, cwd_, u) log
         | Tree.AtReturn _ => True
         | Tree.AtThrow _ => True
         end
  | _ => True
  end.

Definition stateOk (st : @Tree.State E) : Prop :=
  (forall uri_ cwd_ u,
      In (uri_, cwd_, u) (Tree.fetched st) ->
      resolve resolver uri_ cwd_ = Ok u /\ callOk (Tree.fetched st) uri_ cwd_)
  /\ forall i t, Tree.tasks st !! i = Some t -> taskOk (Tree.fetched st) t.

End Calls.
End Calls.

(** ** Roots traversed one after the other *)

(** Every turn goes to the task of the turn before or to a later task:
    no root is resumed after a later root has started. *)
Fixpoint rootByRoot (from : nat) (schedule : list nat) : Prop :=
  match schedule with
  | [] => True
  | i :: rest => from <= i /\ rootByRoot i rest
  end.

(** As long as nothing was rejected and the roots before [k] are done:
    no locator was fetched twice, and a fetched locator is in
    [alreadyImported] unless root [k] has its [require] pending or is
    rejecting. *)
Definition fetchedInTurn {E : Type} (k : nat) (st : @Tree.State E) : Prop :=
  Tree.failure st = None ->
  (forall j t, j < k -> Tree.tasks st !! j = Some t -> Tree.isFulfilled t = true) ->
  NoDup (fetchedUrls st)
  /\ forall u, u ∈ fetchedUrls st ->
       u ∈ Tree.alreadyImported st
       \/ (exists e stack,
             Tree.tasks st !! k = Some (Tree.Running (Tree.AtThrow e) stack))
       \/ exists uri_ cwd_ stack,
            Tree.tasks st !! k
            = Some (Tree.Running (Tree.AtRequire uri_ cwd_ u) stack).

(** ** Files fetched and nodes built *)

(** The activations of [dfs] of a task whose node is not yet in
    [result]: those inside their loop and the one awaiting [require]. *)
Definition nodesDue {E : Type} (t : @Tree.Task E) : nat :=
  match t with
  | Tree.Running (Tree.AtRequire _ _ _) stack => S (length stack)
  | Tree.Running _ stack => length stack
  | _ => 0
  end.

Definition rejecting {E : Type} (t : @Tree.Task E) : bool :=
  match t with
  | Tree.Running (Tree.AtThrow _) _ | Tree.Rejected _ => true
  | _ => false
  end.

(** As long as no [dfs] has rejected, every call of [require] has its
    node in [result] or is due one. *)
Definition nodesAccounted {E : Type} (st : @Tree.State E) : Prop :=
  existsb rejecting (Tree.tasks st) = false ->
  length (Tree.result st) + sum_list_with nodesDue (Tree.tasks st)
  = length (Tree.fetched st).

(** ** Tasks that can only reject *)

(** The pending call of the resolver rejects, or [dfs] has rejected. *)
Definition doomed {E : Type} (resolver : ResolverEngine E)
    (t : @Tree.Task E) : Prop :=
  match t with
  | Tree.Running (Tree.AtResolve u c) _ => exists e, resolve resolver u c = Err e
  | Tree.Running (Tree.AtRequire u c _) _ => exists e, require resolver u c = Err e
  | Tree.Running (Tree.AtThrow _) _ => True
  | Tree.Rejected _ => True
  | _ => False
  end.



(** ** The two-file cycle with both files as roots *)

(** The root [b.sol] has its [require] pending while the traversal of
    [a.sol] reaches its import of [./b.sol]. *)
Definition overlapping : list nat := [1; 0; 0; 0; 1; 0; 1; 0; 1; 0; 1; 0; 0].

(** The node of [/w/b.sol], reached by the reference [ref]. *)
Definition cycleNodeB (ref : string) : ImportTreeNode :=
  {| uri := ref;
     imports := [ {| edge_uri := "./a.sol"; edge_url := "/w/a.sol" |} ];
     node_url := "/w/b.sol"; node_source := imp "./a.sol";
     node_provider := "fs" |}.

(** A file that imports [x.sol] twice. *)
Definition duplicateFiles : list (string * string) :=
  [ ("/w/main.sol", imp "x.sol" +:+ imp "x.sol");
    ("/w/x.sol", "contract X {}") ].

(** * Properties *)

(** ** The library models on the examples of their documentation *)

Example join_drops_dot_dot :
  Posix.join "/foo/bar/baz/asdf" "quux/.." = "/foo/bar/baz/asdf".
Proof. reflexivity. Qed.

Example normalize_collapses_slashes :
  Posix.normalize "/foo/bar//baz/asdf/quux/.." = "/foo/bar/baz/asdf".
Proof. reflexivity. Qed.

Example dirname_of_file :
  Posix.dirname "/foo/bar/baz/asdf/quux" = "/foo/bar/baz/asdf".
Proof. reflexivity. Qed.

Example resolve_relative : Posix.resolve "/home" "/foo/bar" "./baz" = "/foo/bar/baz".
Proof. reflexivity. Qed.

Example resolve_absolute : Posix.resolve "/home" "/foo/bar" "/tmp/file/" = "/tmp/file".
Proof. reflexivity. Qed.

Example resolve_from_process_directory :
  Posix.resolve "/home" "w" "a/b.sol" = "/home/w/a/b.sol".
Proof. reflexivity. Qed.

Example replace_first_only : JS.replace "xxx" "x" "y" = "yxx".
Proof. reflexivity. Qed.

Example replace_dollar_patterns :
  JS.replace "abc" "b" "[$$|$&|$`|$'|$1]" = "a[$|b|a|c|$1]c".
Proof. reflexivity. Qed.

Example replace_empty_pattern : JS.replace "abc" "" "-" = "-abc".
Proof. reflexivity. Qed.

Example array_keys : map JS.arrayKey [0; 7; 12] = ["0"; "7"; "12"].
Proof. reflexivity. Qed.

(** ** Strings and [replace] *)

Section StringFacts.

Lemma append_assoc (a b c : string) : (a +:+ b) +:+ c = a +:+ (b +:+ c).
Proof. induction a as [|x a IH]; simpl; [reflexivity | now rewrite IH]. Qed.

Lemma append_empty_r (a : string) : a +:+ EmptyString = a.
Proof. induction a as [|x a IH]; simpl; [reflexivity | now rewrite IH]. Qed.

Lemma length_append (a b : string) :
  String.length (a +:+ b) = String.length a + String.length b.
Proof. induction a as [|x a IH]; simpl; [reflexivity | now rewrite IH]. Qed.

Lemma prefix_append (p t : string) : String.prefix p (p +:+ t) = true.
Proof.
  induction p as [|x p IH]; simpl.
  - now destruct t.
  - destruct (ascii_dec x x) as [_|n]; [exact IH | now destruct n].
Qed.

Lemma prefix_inv (p s : string) :
  String.prefix p s = true -> exists t, s = p +:+ t.
Proof.
  revert s; induction p as [|x p IH]; intros s H.
  - now exists s.
  - destruct s as [|y s]; simpl in H; [intros; discriminate|].
    destruct (ascii_dec x y) as [->|]; [|intros; discriminate].
    destruct (IH _ H) as [t ->]. now exists t.
Qed.

Lemma substring_skip (p t : string) (n : nat) :
  String.length t <= n -> substring (String.length p) n (p +:+ t) = t.
Proof.
  intros Hn. induction p as [|x p IH]; simpl; [|exact IH].
  revert n Hn; induction t as [|y t IHt]; intros [|n] Hn; simpl in *;
    try reflexivity; try lia.
  f_equal. apply IHt. lia.
Qed.

End StringFacts.

Section Replace.

Lemma splitAtFirst_nil (pat : string) :
  JS.splitAtFirst pat EmptyString =
  match pat with EmptyString => Some (EmptyString, EmptyString) | _ => None end.
Proof. now destruct pat. Qed.

Lemma splitAtFirst_cons (pat : string) (a : ascii) (s : string) :
  JS.splitAtFirst pat (String a s) =
  if String.prefix pat (String a s)
  then Some (EmptyString,
             substring (String.length pat) (String.length (String a s)) (String a s))
  else match JS.splitAtFirst pat s with
       | Some (pre, post) => Some (String a pre, post)
       | None => None
       end.
Proof. reflexivity. Qed.

(** [splitAtFirst] finds an occurrence, *)
Lemma splitAtFirst_sound (pat s pre post : string) :
  JS.splitAtFirst pat s = Some (pre, post) -> s = pre +:+ pat +:+ post.
Proof.
  revert pre post; induction s as [|a s IH]; intros pre post.
  - rewrite splitAtFirst_nil. destruct pat; [|discriminate].
    now intros [= <- <-].
  - rewrite splitAtFirst_cons.
    destruct (String.prefix pat (String a s)) eqn:Hp.
    + destruct (prefix_inv _ _ Hp) as [t Ht]. rewrite Ht.
      rewrite substring_skip by (rewrite length_append; lia).
      now intros [= <- <-].
    + destruct (JS.splitAtFirst pat s) as [[pre' post']|]; [|discriminate].
      intros [= <- <-]. simpl. f_equal. now apply IH.
Qed.

(** the leftmost one, *)
Lemma splitAtFirst_leftmost (pat s pre post pre' post' : string) :
  JS.splitAtFirst pat s = Some (pre, post) ->
  s = pre' +:+ pat +:+ post' ->
  String.length pre <= String.length pre'.
Proof.
  revert pre post pre'; induction s as [|a s IH]; intros pre post pre'.
  - rewrite splitAtFirst_nil. destruct pat; [|discriminate].
    intros [= <- <-] _. simpl. lia.
  - rewrite splitAtFirst_cons.
    destruct (String.prefix pat (String a s)) eqn:Hp.
    + intros [= <- <-] _. simpl. lia.
    + destruct (JS.splitAtFirst pat s) as [[p1 q1]|] eqn:Hs; [|discriminate].
      intros [= <- <-] Heq. destruct pre' as [|b pre'].
      * simpl in Heq. rewrite Heq, prefix_append in Hp. discriminate.
      * simpl in Heq. injection Heq as _ Heq. simpl.
        apply le_n_S. eapply IH; eauto.
Qed.

(** and fails only when there is none. *)
Lemma splitAtFirst_none (pat s pre post : string) :
  JS.splitAtFirst pat s = None -> s <> pre +:+ pat +:+ post.
Proof.
  revert pre; induction s as [|a s IH]; intros pre.
  - rewrite splitAtFirst_nil. destruct pat; [discriminate|].
    intros _. destruct pre; discriminate.
  - rewrite splitAtFirst_cons.
    destruct (String.prefix pat (String a s)) eqn:Hp; [discriminate|].
    destruct (JS.splitAtFirst pat s) as [[p1 q1]|] eqn:Hs; [discriminate|].
    intros _ Heq. destruct pre as [|b pre].
    + simpl in Heq. rewrite Heq, prefix_append in Hp. discriminate.
    + simpl in Heq. injection Heq as _ Heq. now apply (IH pre).
Qed.

Lemma splitAtFirst_complete (pat pre post : string) :
  (forall pre' post', pre +:+ pat +:+ post = pre' +:+ pat +:+ post' ->
                      String.length pre <= String.length pre') ->
  JS.splitAtFirst pat (pre +:+ pat +:+ post) = Some (pre, post).
Proof.
  intros Hmin.
  destruct (JS.splitAtFirst pat (pre +:+ pat +:+ post)) as [[p q]|] eqn:Hs.
  - pose proof (splitAtFirst_sound _ _ _ _ Hs) as Heq.
    pose proof (splitAtFirst_leftmost _ _ _ _ pre post Hs eq_refl) as H1.
    pose proof (Hmin _ _ Heq) as H2.
    assert (Hlen : String.length p = String.length pre) by lia.
    clear - Heq Hlen. revert p Heq Hlen.
    induction pre as [|a pre IH]; intros [|b p] Heq Hlen; simpl in *;
      try discriminate.
    + revert q Heq. induction pat as [|c pat IHp]; intros q Heq; simpl in *.
      * now subst.
      * injection Heq as Heq. now apply IHp.
    + injection Heq as -> Heq. injection Hlen as Hlen.
      specialize (IH _ Heq Hlen). now injection IH as -> ->.
  - exfalso. eapply splitAtFirst_none; eauto.
Qed.

Lemma GetSubstitution_plain (matched pre post rep : string) :
  occursIn "$" rep = false -> JS.GetSubstitution matched pre post rep = rep.
Proof.
  unfold occursIn. induction rep as [|a r IH]; [reflexivity|].
  rewrite splitAtFirst_cons. cbn [JS.GetSubstitution].
  destruct (Ascii.eqb a "$") eqn:Ha.
  { apply Ascii.eqb_eq in Ha. subst a. destruct r; simpl; intros; discriminate. }
  destruct (String.prefix "$" (String a r)); [intros; discriminate|].
  destruct (JS.splitAtFirst "$" r) as [[p q]|]; [intros; discriminate|].
  intros _. f_equal. now apply IH.
Qed.

Lemma replace_absent (s pat rep : string) :
  occursIn pat s = false -> JS.replace s pat rep = s.
Proof.
  unfold occursIn, JS.replace. now destruct (JS.splitAtFirst pat s).
Qed.

Lemma replace_first (pat rep pre post : string) :
  (forall pre' post', pre +:+ pat +:+ post = pre' +:+ pat +:+ post' ->
                      String.length pre <= String.length pre') ->
  occursIn "$" rep = false ->
  JS.replace (pre +:+ pat +:+ post) pat rep = pre +:+ rep +:+ post.
Proof.
  intros Hmin Hrep. unfold JS.replace.
  rewrite splitAtFirst_complete by exact Hmin.
  now rewrite GetSubstitution_plain.
Qed.

End Replace.

(** ** The rewriting pass *)

Section Canonize.

Lemma canonizeSource_absent (edges : list ImportEdge) (text : string) :
  (forall e, In e edges -> occursIn (edge_uri e) text = false) ->
  canonizeSource edges text = text.
Proof.
  induction edges as [|e edges IH]; intros H; [reflexivity|].
  unfold canonizeSource in *. cbn [fold_left].
  rewrite replace_absent by (apply H; now left).
  apply IH. intros e' He'. apply H. now right.
Qed.

(** The rewriting pass as it is written: the edges are processed in the
    order of the node's list; an edge whose literal does not occur leaves the text as it is, an
    edge whose literal occurs has its first occurrence, and only that one,
    replaced by its locator (a locator without dollar sign is inserted as
    it is); the record kept afterwards has the fields url, source and
    provider only. *)
Theorem canonizeFile_rewrites_first_occurrence :
  (forall (e : ImportEdge) (rest : list ImportEdge) (text : string),
      occursIn (edge_uri e) text = false ->
      canonizeSource (e :: rest) text = canonizeSource rest text)
  /\ (forall (e : ImportEdge) (rest : list ImportEdge) (pre post : string),
        (forall pre' post',
            pre +:+ edge_uri e +:+ post = pre' +:+ edge_uri e +:+ post' ->
            String.length pre <= String.length pre') ->
        occursIn "$" (edge_url e) = false ->
        canonizeSource (e :: rest) (pre +:+ edge_uri e +:+ post) =
        canonizeSource rest (pre +:+ edge_url e +:+ post))
  /\ (forall nodes : list ImportTreeNode,
        stripNodes (map canonizeFile nodes) =
        map (fun n => {| url := node_url n;
                         source := canonizeSource (imports n) (node_source n);
                         provider := node_provider n |}) nodes).
Proof.
  split; [|split].
  - intros e rest text H. unfold canonizeSource. cbn [fold_left].
    now rewrite replace_absent.
  - intros e rest pre post Hmin Hplain. unfold canonizeSource. cbn [fold_left].
    now rewrite replace_first.
  - intros nodes. unfold stripNodes. rewrite map_map. reflexivity.
Qed.

(** C3 (as amended): when none of the edges' literals occurs in the text
    the first pass produced, a second pass with the same edges leaves that
    text unchanged. *)
Theorem canonizeFile_twice_when_literals_gone (file : ImportTreeNode) :
  (forall e, In e (imports file) ->
             occursIn (edge_uri e) (node_source (canonizeFile file)) = false) ->
  canonizeFile (canonizeFile file) = canonizeFile file.
Proof.
  intros H. unfold canonizeFile at 1. cbn [imports uri node_url node_provider].
  rewrite canonizeSource_absent by exact H.
  reflexivity.
Qed.

End Canonize.

(** The tree of [main.sol] has the single edge from [lib.sol] to
    [/w/lib.sol]; the pass rewrites the mention in the comment and leaves
    the import statement as it was, where replacing every occurrence would
    have rewritten both. *)
Lemma canonizeFile_leaves_later_occurrences :
  Tree.gatherDepenencyTree node (fsResolver commentedFiles) (repeat 0 7)
    ["main.sol"] "/w" = Some (Ok [libNode; mainNode])
  /\ node_source (canonizeFile mainNode)
       = "// uses /w/lib.sol" +:+ nl +:+ imp "lib.sol"
  /\ spec_canonizeSource (imports mainNode) (node_source mainNode)
       = "// uses /w/lib.sol" +:+ nl +:+ imp "/w/lib.sol"
  /\ node_source (canonizeFile mainNode)
       <> spec_canonizeSource (imports mainNode) (node_source mainNode).
Proof.
  repeat split; try (vm_compute; reflexivity).
  vm_compute. discriminate.
Qed.

(** C2 (defect of the code): the call is to return every file with its
    imports rewritten into the locators they resolved to.  [main.sol]
    mentions [lib.sol] in a comment before it imports it: the call rewrites
    the comment and returns the import statement as it was, so that the
    returned file still imports [lib.sol].  A file that imports [x.sol]
    twice has both of its edges applied to the first statement, which
    becomes an import of [/w//w/x.sol], and the second statement is returned
    as it was.  Replacing every occurrence of the literal by the locator
    would have given [main.sol] its resolved import.  Neither call returns
    before the traversal has ended. *)
Theorem canonized_imports_left_unresolved :
  Tree.gatherSourcesAndCanonizeImports node (fsResolver commentedFiles)
    (repeat 0 6) ["main.sol"] "/w"
    = Some (Ok [ {| url := "/w/lib.sol"; source := "contract L {}";
                    provider := "fs" |};
                 {| url := "/w/main.sol";
                    source := "// uses /w/lib.sol" +:+ nl +:+ imp "lib.sol";
                    provider := "fs" |} ])
  /\ findImports {| url := "/w/main.sol";
                    source := "// uses /w/lib.sol" +:+ nl +:+ imp "lib.sol";
                    provider := "fs" |} = ["lib.sol"]
  /\ spec_canonizeSource [ {| edge_uri := "lib.sol"; edge_url := "/w/lib.sol" |} ]
       ("// uses lib.sol" +:+ nl +:+ imp "lib.sol")
     = "// uses /w/lib.sol" +:+ nl +:+ imp "/w/lib.sol"
  /\ Tree.gatherDepenencyTree node (fsResolver duplicateFiles) (repeat 0 8)
       ["main.sol"] "/w"
     = Some (Ok [ {| uri := "x.sol"; imports := []; node_url := "/w/x.sol";
                     node_source := "contract X {}"; node_provider := "fs" |};
                  {| uri := "main.sol";
                     imports := [ {| edge_uri := "x.sol"; edge_url := "/w/x.sol" |};
                                  {| edge_uri := "x.sol"; edge_url := "/w/x.sol" |} ];
                     node_url := "/w/main.sol";
                     node_source := imp "x.sol" +:+ imp "x.sol";
                     node_provider := "fs" |} ])
  /\ Tree.gatherSourcesAndCanonizeImports node (fsResolver duplicateFiles)
       (repeat 0 8) ["main.sol"] "/w"
     = Some (Ok [ {| url := "/w/x.sol"; source := "contract X {}";
                     provider := "fs" |};
                  {| url := "/w/main.sol";
                     source := imp "/w//w/x.sol" +:+ imp "x.sol";
                     provider := "fs" |} ])
  /\ findImports {| url := "/w/main.sol";
                    source := imp "/w//w/x.sol" +:+ imp "x.sol";
                    provider := "fs" |} = ["/w//w/x.sol"; "x.sol"]
  /\ (forall n, n < 6 ->
        Tree.gatherSourcesAndCanonizeImports node (fsResolver commentedFiles)
          (repeat 0 n) ["main.sol"] "/w" = None)
  /\ (forall n, n < 8 ->
        Tree.gatherSourcesAndCanonizeImports node (fsResolver duplicateFiles)
          (repeat 0 n) ["main.sol"] "/w" = None).
Proof.
  repeat split; try (vm_compute; reflexivity).
  - intros n Hn. do 6 (destruct n as [|n]; [vm_compute; reflexivity|]). lia.
  - intros n Hn. do 8 (destruct n as [|n]; [vm_compute; reflexivity|]). lia.
Qed.

Lemma canonizeFile_rewrites_first_occurrence_witness :
  canonizeSource [ {| edge_uri := "lib.sol"; edge_url := "/w/lib.sol" |} ]
    ("// uses " +:+ "lib.sol" +:+ (nl +:+ imp "lib.sol"))
  = "// uses " +:+ "/w/lib.sol" +:+ (nl +:+ imp "lib.sol")
  /\ canonizeSource [ {| edge_uri := "lib.sol"; edge_url := "/w/lib.sol" |} ]
       "contract L {}" = "contract L {}".
Proof.
  destruct canonizeFile_rewrites_first_occurrence as (Habsent & Hfirst & _).
  split.
  - apply (Hfirst {| edge_uri := "lib.sol"; edge_url := "/w/lib.sol" |} []
             "// uses " (nl +:+ imp "lib.sol")); [|reflexivity].
    intros pre' post' Heq.
    refine (splitAtFirst_leftmost _ _ _ (nl +:+ imp "lib.sol") _ _ _ Heq).
    vm_compute. reflexivity.
  - apply (Habsent {| edge_uri := "lib.sol"; edge_url := "/w/lib.sol" |} []
             "contract L {}"). reflexivity.
Defined.

(** C3, the claim as written fails: the locator [/w/a/pkg/d.sol] contains
    the literal [pkg/d.sol] it replaces, so a second pass over the node of
    [a/b.sol] rewrites the text again. *)
Lemma canonizeFile_second_pass_rewrites_again :
  (exists others,
      Tree.gatherDepenencyTree node (fsResolver projectFiles) (repeat 0 12)
        ["a/b.sol"] "/w" = Some (Ok (others ++ [bNode])))
  /\ node_source (canonizeFile bNode)
       = imp "/w/a/c.sol" +:+ imp "/w/a/pkg/d.sol"
  /\ node_source (canonizeFile (canonizeFile bNode))
       = imp "/w/a/c.sol" +:+ imp "/w/a//w/a/pkg/d.sol"
  /\ canonizeFile (canonizeFile bNode) <> canonizeFile bNode.
Proof.
  split; [eexists [_; _]; vm_compute; reflexivity|].
  repeat split; try (vm_compute; reflexivity).
  vm_compute. discriminate.
Qed.

Lemma canonizeFile_twice_witness :
  canonizeFile (canonizeFile aNode) = canonizeFile aNode.
Proof.
  apply canonizeFile_twice_when_literals_gone.
  intros e [<-|[]]. reflexivity.
Defined.

(** ** The scanner *)

Section Scanner.

Lemma star_shrinks (p : ascii -> bool) (k : chars -> captures -> outcome) :
  shrinking k -> shrinking (fun s c => star p s c k).
Proof.
  intros Hk s. induction s as [|a s IH]; intros c x; simpl; [apply Hk|].
  destruct (p a); [|apply Hk].
  destruct (star p s c k) as [y|] eqn:Hs; simpl.
  - intros [= <-]. specialize (IH c y Hs). lia.
  - apply Hk.
Qed.

Lemma m_shrinks (r : regex) (k : chars -> captures -> outcome) :
  shrinking k -> shrinking (fun s c => m r s c k).
Proof.
  revert k. induction r as [|p|r1 IH1 r2 IH2|r1 IH1 r2 IH2|p|n r IH];
    intros k Hk s c x; simpl.
  - apply Hk.
  - destruct s as [|a s]; [discriminate|]. destruct (p a); [|discriminate].
    intros H. apply Hk in H. simpl. lia.
  - apply (IH1 (fun s' c' => m r2 s' c' k)). intros s' c' y. apply IH2, Hk.
  - destruct (m r1 s c k) as [y|] eqn:H1; simpl.
    + intros [= <-]. eapply IH1; eauto.
    + apply IH2, Hk.
  - apply star_shrinks, Hk.
  - apply (IH (fun s' c' => k s' ((n, firstn (length s - length s') s) :: c'))).
    intros s' c' y. apply Hk.
Qed.

Lemma leading_char_shorter (p : ascii -> bool) (r1 r2 : regex) (s : chars)
    (c : captures) (k : chars -> captures -> outcome) (x : captures * chars) :
  shrinking k ->
  m (Seq (Seq (Chr p) r1) r2) s c k = Some x -> length x.2 < length s.
Proof.
  intros Hk. cbn [m]. destruct s as [|a s]; [discriminate|].
  destruct (p a); [|discriminate]. intros H.
  apply (m_shrinks r1 (fun s' c' => m r2 s' c' k)) in H; [simpl; lia|].
  now apply m_shrinks.
Qed.

(** A match of the scanner's pattern uses up at least one character. *)
Lemma matchAt_import_shorter (s : chars) (x : captures * chars) :
  matchAt import_regex s = Some x -> length x.2 < length s.
Proof.
  unfold matchAt, import_regex.
  change (Lit (str "import"))
    with (Seq (Chr (is_char "i")) (Lit (str "mport"))).
  apply leading_char_shorter. intros s' c' y [= <-]. simpl. lia.
Qed.

Lemma exec_import_shorter (s : chars) (x : captures * chars) :
  exec import_regex s = Some x -> length x.2 < length s.
Proof.
  induction s as [|a s IH]; cbn [exec].
  - destruct (matchAt import_regex []) eqn:H; [|discriminate].
    intros [= <-]. now apply matchAt_import_shorter in H.
  - destruct (matchAt import_regex (a :: s)) eqn:H.
    + intros [= <-]. now apply matchAt_import_shorter in H.
    + intros Hx. specialize (IH Hx). simpl. lia.
Qed.

(** The loop of [findImports] never runs out of fuel: more fuel than the
    text has characters changes nothing. *)
Lemma findImportsLoop_fuel (fuel fuel' : nat) (s : chars) (result : list string) :
  length s < fuel -> length s < fuel' ->
  findImportsLoop fuel s result = findImportsLoop fuel' s result.
Proof.
  revert fuel' s result. induction fuel as [|fuel IH]; intros fuel' s result H H'.
  - lia.
  - destruct fuel' as [|fuel']; [lia|]. cbn [findImportsLoop].
    destruct (exec import_regex s) as [[c rest]|] eqn:He; [|reflexivity].
    apply exec_import_shorter in He. simpl in He. apply IH; lia.
Qed.

End Scanner.

(** C9 (defect of the code): two [from] imports written on one line yield
    one entry, the second path, because [.+] and [.*] run to the last
    [from] and the last quote of the line; two identical ones yield a
    single entry; and a [from] import whose names are spread over several
    lines yields none.  Each supported shape alone on its line is found,
    text without import yields nothing, and two identical bare imports
    yield two entries. *)
Theorem from_imports_on_one_line_collapse :
  findImports (textFile ("import a from " +:+ dq "x" +:+ "; import b from "
                         +:+ dq "y" +:+ ";")) = ["y"]
  /\ findImports (textFile ("import a from " +:+ dq "x" +:+ "; import a from "
                            +:+ dq "x" +:+ ";")) = ["x"]
  /\ findImports (textFile ("import {" +:+ nl +:+ "  A," +:+ nl +:+ "  B" +:+ nl
                            +:+ "} from " +:+ dq "x" +:+ ";")) = []
  /\ findImports (textFile ("import " +:+ dq "./a.sol" +:+ ";" +:+ nl
                            +:+ "import " +:+ dq "b.sol" +:+ " as B;" +:+ nl
                            +:+ "import {C} from " +:+ dq "../c.sol" +:+ ";" +:+ nl
                            +:+ "import " +:+ sq "./d.sol" +:+ ";" +:+ nl
                            +:+ "import " +:+ sq "e.sol" +:+ " as E;" +:+ nl
                            +:+ "import * as F from " +:+ sq "f.sol" +:+ ";" +:+ nl
                            +:+ "contract T {}"))
     = ["./a.sol"; "b.sol"; "../c.sol"; "./d.sol"; "e.sol"; "f.sol"]
  /\ findImports (textFile "contract T {}") = []
  /\ findImports (textFile ("import " +:+ dq "a.sol" +:+ "; import "
                            +:+ dq "a.sol" +:+ ";")) = ["a.sol"; "a.sol"].
Proof. repeat split; vm_compute; reflexivity. Qed.

(** ** The three shapes of import statement, for any path *)

Section Shapes.

Lemma all_cons (p : ascii -> bool) (a : ascii) (l : chars) :
  all p (a :: l) <-> p a = true /\ all p l.
Proof. unfold all. simpl. now rewrite andb_true_iff. Qed.

Lemma all_app (p : ascii -> bool) (l1 l2 : chars) :
  all p (l1 ++ l2) <-> all p l1 /\ all p l2.
Proof. unfold all. rewrite forallb_app. now rewrite andb_true_iff. Qed.

Lemma star_stops (p : ascii -> bool) (r : chars) (c : captures)
    (k : chars -> captures -> outcome) :
  stops p r -> star p r c k = k r c.
Proof. destruct r as [|a r]; [reflexivity|]. simpl. now intros ->. Qed.

(** The continuation is first tried after the longest run. *)
Lemma star_longest (p : ascii -> bool) (l r : chars) (c : captures)
    (k : chars -> captures -> outcome) (x : captures * chars) :
  all p l -> stops p r -> k r c = Some x -> star p (l ++ r) c k = Some x.
Proof.
  intros Hl Hr Hk. induction l as [|a l IH]; simpl.
  - now rewrite star_stops.
  - apply all_cons in Hl as [-> Hl]. now rewrite IH.
Qed.

Lemma star_none (p : ascii -> bool) (mid r : chars) (c : captures)
    (k : chars -> captures -> outcome) :
  all p mid -> stops p r ->
  (forall m1 m2, mid = m1 ++ m2 -> k (m2 ++ r) c = None) ->
  star p (mid ++ r) c k = None.
Proof.
  intros Hm Hr Hk. induction mid as [|a mid IH]; simpl.
  - rewrite star_stops by exact Hr. exact (Hk [] [] eq_refl).
  - apply all_cons in Hm as [-> Hm]. rewrite IH; [|exact Hm|].
    + exact (Hk [] (a :: mid) eq_refl).
    + intros m1 m2 ->. exact (Hk (a :: m1) m2 eq_refl).
Qed.

(** Giving back characters one at a time, the run ends at the first
    place, from the right, where the continuation succeeds. *)
Lemma star_backtrack (p : ascii -> bool) (l mid r : chars) (b : ascii)
    (c : captures) (k : chars -> captures -> outcome) (x : captures * chars) :
  all p l -> p b = true -> all p mid -> stops p r ->
  (forall m1 m2, mid = m1 ++ m2 -> k (m2 ++ r) c = None) ->
  k (b :: mid ++ r) c = Some x ->
  star p (l ++ b :: mid ++ r) c k = Some x.
Proof.
  intros Hl Hb Hm Hr Hnone Hk. induction l as [|a l IH]; simpl.
  - rewrite Hb, star_none by assumption. exact Hk.
  - apply all_cons in Hl as [-> Hl]. now rewrite IH.
Qed.

Lemma m_Lit (l s : chars) (c : captures) (k : chars -> captures -> outcome) :
  m (Lit l) (l ++ s) c k = k s c.
Proof.
  induction l as [|a l IH]; [reflexivity|]. cbn [Lit m app].
  unfold is_char. now rewrite Ascii.eqb_refl.
Qed.

Lemma str_app (a b : string) : str (a +:+ b) = str a ++ str b.
Proof.
  unfold str. induction a as [|x a IH]; [reflexivity|]. simpl. now rewrite IH.
Qed.

Lemma firstn_consumed (l r : chars) :
  firstn (length (l ++ r) - length r) (l ++ r) = l.
Proof.
  rewrite length_app. replace (length l + length r - length r) with (length l) by lia.
  rewrite firstn_app, Nat.sub_diag, firstn_all. cbn. apply app_nil_r.
Qed.

Lemma m_Chr_ok (p : ascii -> bool) (a : ascii) (s : chars) (c : captures)
    (k : chars -> captures -> outcome) :
  p a = true -> m (Chr p) (a :: s) c k = k s c.
Proof. intros H. cbn [m]. now rewrite H. Qed.

Lemma m_Chr_stops (p : ascii -> bool) (s : chars) (c : captures)
    (k : chars -> captures -> outcome) :
  stops p s -> m (Chr p) s c k = None.
Proof. destruct s as [|a s]; [reflexivity|]. cbn [m stops]. now intros ->. Qed.

Lemma m_Plus_stops (p : ascii -> bool) (a : ascii) (s : chars) (c : captures)
    (k : chars -> captures -> outcome) :
  p a = true -> stops p s -> m (Plus p) (a :: s) c k = k s c.
Proof. intros Ha Hs. unfold Plus. cbn [m]. rewrite Ha. now apply star_stops. Qed.

Lemma stops_suffix (q : ascii) (mid r m1 m2 : chars) :
  all (not_char q) mid -> stops (is_char q) r -> mid = m1 ++ m2 ->
  stops (is_char q) (m2 ++ r).
Proof.
  intros Hmid Hr ->. apply all_app in Hmid as [_ Hm2].
  destruct m2 as [|a m2]; [exact Hr|]. apply all_cons in Hm2 as [Ha _].
  cbn. unfold not_char, is_char in *. now destruct (Ascii.eqb q a).
Qed.

(** A quoted run: the group takes the text up to the last quote character
    after which the rest of the pattern succeeds. *)
Lemma m_quoted (q : ascii) (n : nat) (body : ascii -> bool) (P mid r : chars)
    (c : captures) (k : chars -> captures -> outcome) (x : captures * chars) :
  all body P -> body q = true -> all body mid -> stops body r ->
  all (not_char q) mid -> stops (is_char q) r ->
  k (mid ++ r) ((n, P) :: c) = Some x ->
  m (quoted q n body) (q :: P ++ q :: mid ++ r) c k = Some x.
Proof.
  intros HP Hq Hmid Hr Hnq Hrq Hk. unfold quoted. cbn [m].
  unfold is_char at 1. rewrite Ascii.eqb_refl.
  apply star_backtrack; try assumption.
  - intros m1 m2 Hsplit. cbv beta. apply m_Chr_stops. eapply stops_suffix; eauto.
  - cbv beta. unfold is_char. rewrite Ascii.eqb_refl.
    now rewrite firstn_consumed.
Qed.

End Shapes.

Section ShapeMatches.

Lemma m_Seq (r1 r2 : regex) (s : chars) (c : captures)
    (k : chars -> captures -> outcome) :
  m (Seq r1 r2) s c k = m r1 s c (fun s' c' => m r2 s' c' k).
Proof. reflexivity. Qed.

Lemma m_Alt (r1 r2 : regex) (s : chars) (c : captures)
    (k : chars -> captures -> outcome) :
  m (Alt r1 r2) s c k = orElse (m r1 s c k) (m r2 s c k).
Proof. reflexivity. Qed.

Lemma m_Star (p : ascii -> bool) (s : chars) (c : captures)
    (k : chars -> captures -> outcome) :
  m (Star p) s c k = star p s c k.
Proof. reflexivity. Qed.

Lemma quote_cases (q : ascii) :
  isQuote q ->
  white_space q = false /\ dot q = true /\ not_char ";" q = true
  /\ is_char ";" q = false /\ plain q = false.
Proof. intros [->| ->]; repeat split; reflexivity. Qed.

(** Either quote character, with the group of the alternative it opens. *)
Lemma m_either_quoted (q : ascii) (n1 n2 : nat) (body : ascii -> bool)
    (P mid r : chars) (c : captures) (k : chars -> captures -> outcome)
    (x : captures * chars) :
  isQuote q ->
  all body P -> body q = true -> all body mid -> stops body r ->
  all (not_char q) mid -> stops (is_char q) r ->
  k (mid ++ r) ((if Ascii.eqb q dquote then n1 else n2, P) :: c) = Some x ->
  m (Alt (quoted dquote n1 body) (quoted squote n2 body))
    (q :: P ++ q :: mid ++ r) c k = Some x.
Proof.
  intros [->| ->] HP Hq Hmid Hr Hnq Hrq Hk; rewrite m_Alt.
  - rewrite (m_quoted dquote n1 body P mid r c k x); auto.
  - replace (m (quoted dquote n1 body) (squote :: P ++ squote :: mid ++ r) c k)
      with (@None (captures * chars)) by reflexivity.
    cbn [orElse]. apply m_quoted; auto.
Qed.

Lemma str_quoted (q : ascii) (p : string) (rest : chars) :
  str (quotedStr q p) ++ rest = q :: str p ++ q :: rest.
Proof.
  unfold quotedStr. change (str (String q ?s)) with (q :: str s).
  rewrite str_app. cbn. now rewrite <- app_assoc.
Qed.

(** [import "p";] *)
Lemma matchAt_bare (q : ascii) (p : string) :
  isQuote q -> all (not_char ";") (str p) ->
  matchAt import_regex (str (bareImport q p)) = Some ([(groupOf q, str p)], []).
Proof.
  intros Hq Hp. destruct (quote_cases q Hq) as (Hws & Hdot & Hns & Hsemi & _).
  unfold bareImport. rewrite !str_app, str_quoted.
  change (str "import ") with (str "import" ++ [" "%char]). rewrite <- app_assoc.
  unfold matchAt, import_regex. rewrite m_Seq, m_Lit. cbv beta. cbn [app].
  rewrite m_Seq, m_Plus_stops by (reflexivity || exact Hws). cbv beta.
  rewrite m_Alt, m_Seq.
  rewrite (m_either_quoted q 1 2 (not_char ";") (str p) [] (str ";") []
             _ ([(groupOf q, str p)], [])); auto; reflexivity.
Qed.

Lemma plain_cases (a : ascii) :
  plain a = true ->
  white_space a = false /\ dot a = true
  /\ is_char dquote a = false /\ is_char squote a = false.
Proof.
  unfold plain, not_char, is_char. intros H.
  apply andb_true_iff in H as [H Hs]. apply andb_true_iff in H as [Hw Hd].
  apply negb_true_iff in Hw, Hd, Hs. repeat split; try assumption.
  unfold dot. unfold white_space in Hw.
  destruct (nat_of_ascii a =? 10)%nat; [now rewrite !orb_true_r in Hw|].
  destruct (nat_of_ascii a =? 13)%nat; [now rewrite !orb_true_r in Hw|].
  reflexivity.
Qed.

Lemma all_weaken (p1 p2 : ascii -> bool) (l : chars) :
  (forall a, p1 a = true -> p2 a = true) -> all p1 l -> all p2 l.
Proof.
  intros H. induction l as [|a l IH]; [reflexivity|].
  rewrite !all_cons. intros [Ha Hl]. auto.
Qed.

Lemma plain_not_quote (q : ascii) (l : chars) :
  isQuote q -> all plain l -> all (not_char q) l.
Proof.
  intros Hq. apply all_weaken. intros a Ha.
  destruct (plain_cases a Ha) as (_ & _ & Hd & Hs).
  unfold not_char, is_char in *. destruct Hq as [->| ->]; now apply negb_true_iff.
Qed.

Lemma stops_app_plain (l r : chars) :
  all plain l -> stops white_space r -> stops white_space (l ++ r).
Proof.
  destruct l as [|a l]; [auto|]. intros Hl _. apply all_cons in Hl as [Ha _].
  now destruct (plain_cases a Ha).
Qed.

(** [import "p" as name;] *)
Lemma matchAt_aliased (q : ascii) (p name : string) :
  isQuote q -> all (not_char ";") (str p) ->
  all plain (str name) -> all (not_char ";") (str name) ->
  matchAt import_regex (str (aliasedImport q p name))
  = Some ([(groupOf q, str p)], []).
Proof.
  intros Hq Hp Hplain Hname.
  destruct (quote_cases q Hq) as (Hws & Hdot & Hns & Hsemi & _).
  unfold aliasedImport. rewrite !str_app, str_quoted.
  change (str "import ") with (str "import" ++ [" "%char]). rewrite <- app_assoc.
  unfold matchAt, import_regex. rewrite m_Seq, m_Lit. cbv beta. cbn [app].
  rewrite m_Seq, m_Plus_stops by (reflexivity || exact Hws). cbv beta.
  rewrite m_Alt, m_Seq.
  rewrite (app_assoc (str " as ") (str name) (str ";")).
  rewrite (m_either_quoted q 1 2 (not_char ";") (str p)
             (str " as " ++ str name) (str ";") []
             _ ([(groupOf q, str p)], [])); auto; try reflexivity.
  - apply all_app. split; [|now apply plain_not_quote].
    destruct Hq as [->| ->]; reflexivity.
  - (* the clause after the closing quote *)
    rewrite <- app_assoc.
    change (str " as ") with (" "%char :: str "as" ++ [" "%char]).
    rewrite m_Alt.
    replace (m (Chr (is_char ";")) _ _ _) with (@None (captures * chars))
      by reflexivity.
    cbn [orElse app]. rewrite <- app_assoc.
    rewrite m_Seq, m_Plus_stops by reflexivity. cbv beta.
    rewrite m_Seq, m_Lit. cbv beta. cbn [app].
    rewrite m_Seq, m_Plus_stops;
      [|reflexivity|now apply stops_app_plain].
    cbv beta. rewrite m_Seq, m_Star.
    apply star_longest; [exact Hname|reflexivity|reflexivity].
Qed.

Lemma split_cons (a : ascii) (l m1 m2 : chars) :
  a :: l = m1 ++ m2 ->
  (m1 = [] /\ m2 = a :: l) \/ (exists m1', m1 = a :: m1' /\ l = m1' ++ m2).
Proof.
  destruct m1 as [|b m1]; cbn; [now left|]. intros [= <- ->]. right. eauto.
Qed.

(** After [from] the pattern wants white space. *)
Lemma from_needs_blank (t : chars) (r : regex) (c : captures)
    (k : chars -> captures -> outcome) :
  all (fun a => negb (white_space a)) t ->
  m (Seq (Lit (str "from")) (Seq (Plus white_space) r)) t c k = None.
Proof.
  intros Ht. rewrite m_Seq.
  assert (Hgen : forall l t, all (fun a => negb (white_space a)) t ->
            m (Lit l) t c (fun s' c' => m (Seq (Plus white_space) r) s' c' k) = None).
  { clear. intros l. induction l as [|x l IH]; intros t Ht.
    - cbn [Lit m]. unfold Plus. cbn [m]. destruct t as [|a t]; [reflexivity|].
      apply all_cons in Ht as [Ha _]. apply negb_true_iff in Ha. now rewrite Ha.
    - cbn [Lit m]. destruct t as [|a t]; [reflexivity|].
      apply all_cons in Ht as [_ Ht]. destruct (is_char x a); [|reflexivity].
      now apply IH. }
  now apply Hgen.
Qed.

(** [import binding from "p";] *)
Lemma matchAt_from (q b0 : ascii) (b p : string) :
  isQuote q -> plain b0 = true -> all dot (str b) -> all plain (str p) ->
  matchAt import_regex (str (fromImport q (String b0 b) p))
  = Some ([(fromGroupOf q, str p)], []).
Proof.
  intros Hq Hb0 Hb Hp.
  destruct (quote_cases q Hq) as (Hws & Hdot & Hns & Hsemi & _).
  destruct (plain_cases b0 Hb0) as (Hb0w & Hb0d & Hb0q & Hb0s).
  assert (Hpdot : all dot (str p)).
  { revert Hp. apply all_weaken. intros a Ha. now destruct (plain_cases a Ha). }
  assert (Hpblank : all (fun a => negb (white_space a)) (str p)).
  { revert Hp. apply all_weaken. intros a Ha.
    destruct (plain_cases a Ha) as (Hw & _). now rewrite Hw. }
  unfold fromImport. rewrite !str_app, str_quoted.
  change (str "import ") with (str "import" ++ [" "%char]). rewrite <- app_assoc.
  change (str (String b0 b)) with (b0 :: str b).
  unfold matchAt, import_regex. rewrite m_Seq, m_Lit. cbv beta. cbn [app].
  rewrite m_Seq, m_Plus_stops by (reflexivity || exact Hb0w). cbv beta.
  rewrite m_Alt.
  (* the quote-first alternative fails on the first character *)
  replace (m (Seq (Alt (quoted dquote 1 _) (quoted squote 2 _)) _) _ _ _)
    with (@None (captures * chars)).
  2:{ rewrite m_Seq, m_Alt. unfold quoted. rewrite !m_Seq. cbn [m].
      now rewrite Hb0q, Hb0s. }
  cbn [orElse]. rewrite m_Seq. unfold Plus at 1. rewrite m_Seq.
  rewrite m_Chr_ok by exact Hb0d. cbv beta. rewrite m_Star.
  change (str " from ") with ([" "%char] ++ "f"%char :: str "rom ").
  replace (str b ++ ([" "%char] ++ "f"%char :: str "rom ") ++ q :: str p ++ q :: str ";")
    with ((str b ++ [" "%char]) ++ "f"%char :: (str "rom " ++ q :: str p ++ q :: str ";") ++ [])
    by (rewrite app_nil_r, <- !app_assoc; reflexivity).
  apply star_backtrack.
  - apply all_app. split; [exact Hb|reflexivity].
  - reflexivity.
  - apply all_app. split; [reflexivity|]. apply all_cons. split; [exact Hdot|].
    apply all_app. split; [exact Hpdot|]. apply all_cons. split; [exact Hdot|].
    reflexivity.
  - exact I.
  - (* no later place at which the rest of the pattern matches *)
    intros m1 m2 Hsplit. rewrite app_nil_r. cbv beta.
    change (str "rom ") with ["r"%char; "o"%char; "m"%char; " "%char] in Hsplit.
    cbn [app] in Hsplit.
    apply split_cons in Hsplit as [[_ ->]|(m1a & _ & Hsplit)]; [reflexivity|].
    apply split_cons in Hsplit as [[_ ->]|(m1b & _ & Hsplit)]; [reflexivity|].
    apply split_cons in Hsplit as [[_ ->]|(m1c & _ & Hsplit)]; [reflexivity|].
    apply split_cons in Hsplit as [[_ ->]|(m1d & _ & Hsplit)]; [reflexivity|].
    apply split_cons in Hsplit as [[_ ->]|(m1e & _ & Hsplit)].
    { destruct Hq as [->| ->]; reflexivity. }
    apply from_needs_blank.
    assert (Hall : all (fun a => negb (white_space a)) (str p ++ q :: str ";")).
    { apply all_app. split; [exact Hpblank|]. apply all_cons.
      split; [now rewrite Hws|reflexivity]. }
    rewrite Hsplit in Hall. now apply all_app in Hall.
  - (* at the last [from] it does *)
    cbv beta. rewrite app_nil_r.
    change ("f"%char :: str "rom " ++ q :: str p ++ q :: str ";")
      with (str "from" ++ " "%char :: q :: str p ++ q :: str ";").
    rewrite m_Seq, m_Lit. cbv beta.
    rewrite m_Seq, m_Plus_stops by (reflexivity || exact Hws). cbv beta.
    rewrite m_Seq.
    apply (m_either_quoted q 3 4 dot (str p) (str ";") []); auto; try reflexivity.
    destruct Hq as [->| ->]; reflexivity.
Qed.

Lemma exec_matchAt (r : regex) (s : chars) (x : captures * chars) :
  matchAt r s = Some x -> exec r s = Some x.
Proof. intros H. destruct s; cbn [exec]; now rewrite H. Qed.

(** A text that the pattern matches from its first to its last character
    yields the captured path, and nothing else. *)
Lemma findImports_whole_text (text : string) (n : nat) (P : chars) :
  n = 1 \/ n = 2 \/ n = 3 \/ n = 4 ->
  matchAt import_regex (str text) = Some ([(n, P)], []) ->
  findImports (textFile text) = [string_of_list_ascii P].
Proof.
  intros Hn Hm. unfold findImports. cbn [source textFile findImportsLoop].
  rewrite (exec_matchAt _ _ _ Hm).
  assert (Hpush : pushMatch [(n, P)] [] = [string_of_list_ascii P]).
  { destruct Hn as [->|[->|[->| ->]]]; reflexivity. }
  rewrite Hpush. now destruct (String.length text).
Qed.

(** Each shape of import statement, as the whole text, yields its path. *)
Lemma import_shapes_found (q : ascii) (p : string) :
  isQuote q ->
  (all (not_char ";") (str p) ->
     findImports (textFile (bareImport q p)) = [p])
  /\ (forall name, all (not_char ";") (str p) ->
        all plain (str name) -> all (not_char ";") (str name) ->
        findImports (textFile (aliasedImport q p name)) = [p])
  /\ (forall b0 b, plain b0 = true -> all dot (str b) -> all plain (str p) ->
        findImports (textFile (fromImport q (String b0 b) p)) = [p]).
Proof.
  intros Hq.
  assert (Hg : groupOf q = 1 \/ groupOf q = 2 \/ groupOf q = 3 \/ groupOf q = 4).
  { destruct Hq as [->| ->]; cbn; auto. }
  assert (Hf : fromGroupOf q = 1 \/ fromGroupOf q = 2 \/ fromGroupOf q = 3
               \/ fromGroupOf q = 4).
  { destruct Hq as [->| ->]; cbn; auto. }
  repeat split.
  - intros Hp. rewrite <- (string_of_list_ascii_of_string p) at 2.
    eapply findImports_whole_text; [exact Hg|]. now apply matchAt_bare.
  - intros name Hp H1 H2. rewrite <- (string_of_list_ascii_of_string p) at 2.
    eapply findImports_whole_text; [exact Hg|]. now apply matchAt_aliased.
  - intros b0 b H1 H2 H3. rewrite <- (string_of_list_ascii_of_string p) at 2.
    eapply findImports_whole_text; [exact Hf|]. now apply matchAt_from.
Qed.

End ShapeMatches.

(** ** The flat traversal *)

Lemma to_uint_nonnil (i : nat) : Nat.to_uint i <> Decimal.Nil.
Proof.
  rewrite <- (Unsigned.of_to i) at 1. rewrite Unsigned.to_of.
  apply unorm_nonnil.
Qed.

(** A key of [for ... in] over an array begins with a digit. *)
Lemma arrayKey_not_dot (i : nat) : JS.firstIsDot (JS.arrayKey i) = false.
Proof.
  unfold JS.arrayKey. pose proof (to_uint_nonnil i) as H.
  destruct (Nat.to_uint i); [now destruct H | reflexivity ..].
Qed.

Section FlatFacts.
Context {E : Type}.
Variable path : PathModule.
Variable resolver : ResolverEngine E.

(** The name under which an import is remembered is the literal as
    written, whatever its first character. *)
Lemma importName_found (relativePath : string) (i : nat) (found : string) :
  Flat.importName path relativePath i found = found.
Proof. unfold Flat.importName. now rewrite arrayKey_not_dot. Qed.

End FlatFacts.

(** C7 (defect of the code): with [a.sol] and [b.sol] importing each other
    through relative literals, [gatherSources] returns the locator
    [/w/a.sol] twice, so its output is not duplicate-free; and two roots
    naming the same file are both queued, the seeding loop making no
    visited check. *)
Theorem gatherSources_emits_locator_twice :
  (exists out,
      Flat.gatherSources node (fsResolver cyclicFiles) 3 ["a.sol"] "/w" = Some (Ok out)
      /\ map url out = ["/w/a.sol"; "/w/b.sol"; "/w/a.sol"]
      /\ ~ NoDup (map url out))
  /\ (exists out,
        Flat.gatherSources node (fsResolver cyclicFiles) 4 ["b.sol"; "./b.sol"] "/w"
          = Some (Ok out)
        /\ map url out = ["/w/b.sol"; "/w/b.sol"; "/w/a.sol"; "/w/b.sol"]).
Proof.
  split.
  - eexists. split; [vm_compute; reflexivity|]. split; [reflexivity|].
    intros H. apply NoDup_cons in H as [Hin _]. apply Hin.
    vm_compute. set_solver.
  - eexists. split; [vm_compute; reflexivity|]. reflexivity.
Qed.

(** C1 (defect of the code): the name checked against the visited set is
    always the literal itself, also when it begins with a dot, because the
    test looks at the array key; so of two different files imported as
    [./c.sol] from two directories only the first is enqueued and fetched. *)
Theorem relative_import_keyed_by_literal :
  (forall (path : PathModule) (relativePath : string) (i : nat) (found : string),
      Flat.importName path relativePath i found = found)
  /\ (exists st,
        Flat.run node (fsResolver twoDirFiles) 4 ["a/b.sol"; "d/e.sol"] "/w"
          = Some (Ok st)
        /\ map url (Flat.result st) = ["/w/a/b.sol"; "/w/d/e.sol"; "/w/a/c.sol"]
        /\ bool_decide ("./c.sol" ∈ Flat.alreadyImported st) = true
        /\ bool_decide ("/w/a/b.sol/c.sol" ∈ Flat.alreadyImported st) = false
        /\ bool_decide ("/w/d/e.sol/c.sol" ∈ Flat.alreadyImported st) = false).
Proof.
  split; [intros; apply importName_found|].
  eexists. split; [vm_compute; reflexivity|]. repeat split; vm_compute; reflexivity.
Qed.

Section FlatArithmetic.
Context {E : Type}.
Variable path : PathModule.
Variable resolver : ResolverEngine E.

Lemma dot_not_absolute (a b : string) :
  JS.firstIsDot a = true -> Posix.isAbsolute b = true -> a <> b.
Proof.
  intros Ha Hb ->. destruct b as [|x b]; [discriminate|]. simpl in *.
  apply Ascii.eqb_eq in Ha, Hb. subst x. discriminate.
Qed.

Lemma dot_not_plain (a b : string) :
  JS.firstIsDot a = true -> JS.firstIsDot b = false -> a <> b.
Proof. intros Ha Hb ->. congruence. Qed.

Lemma absolute_not_relative (a b : string) :
  Posix.isAbsolute a = true -> Posix.isAbsolute b = false -> a <> b.
Proof. intros Ha Hb ->. congruence. Qed.

Lemma loop_empty_queue (fuel : nat) (st : Flat.State) :
  Flat.queue st = [] -> Flat.loop path resolver fuel st = Some (Ok st).
Proof. intros H. destruct fuel; simpl; now rewrite H. Qed.

(** C6 (as amended): a root is queued under its absolute path
    [path.resolve(workingDir, root)]; an import that begins with a dot is
    emitted under the join of that absolute path's directory with the
    literal, an import without a leading dot under the literal itself. *)
Theorem relative_import_joined_to_root_directory
    (workingDir root rel lit : string) (f0 f1 f2 : ImportFile) (fuel : nat) :
  let absRoot := path_resolve path workingDir root in
  Posix.isAbsolute absRoot = true ->
  JS.firstIsDot rel = true ->
  JS.firstIsDot lit = false ->
  Posix.isAbsolute lit = false ->
  require resolver absRoot workingDir = Ok f0 ->
  findImports f0 = [rel; lit] ->
  require resolver rel (path_dirname path (url f0)) = Ok f1 ->
  findImports f1 = [] ->
  require resolver lit (path_dirname path (url f0)) = Ok f2 ->
  findImports f2 = [] ->
  3 <= fuel ->
  Flat.gatherSources path resolver fuel [root] workingDir =
  Some (Ok [ {| url := absRoot; source := source f0; provider := provider f0 |};
             {| url := path_join path (path_dirname path absRoot) rel;
                source := source f1; provider := provider f1 |};
             {| url := lit; source := source f2; provider := provider f2 |} ]).
Proof.
  intros absRoot. unfold absRoot; clear absRoot.
  remember (path_resolve path workingDir root) as absRoot eqn:Habsroot.
  intros Habs Hrel Hlit Hlit' R0 I0 R1 I1 R2 I2 Hfuel.
  assert (N1 : rel <> absRoot) by now apply dot_not_absolute.
  assert (N2 : lit <> absRoot) by (apply not_eq_sym; now apply absolute_not_relative).
  assert (N3 : lit <> rel) by (apply not_eq_sym; now apply dot_not_plain).
  assert (D0 : JS.firstIsDot absRoot = false).
  { destruct absRoot as [|x r]; [reflexivity|]. simpl in *.
    apply Ascii.eqb_eq in Habs. now subst x. }
  destruct fuel as [|[|[|fuel]]]; try lia.
  unfold Flat.gatherSources, Flat.run, Flat.start.
  cbn [map Flat.loop Flat.queue Flat.result Flat.alreadyImported].
  rewrite <- Habsroot.
  unfold Flat.iteration at 1.
  cbn [Flat.file Flat.cwd Flat.queue Flat.result Flat.alreadyImported].
  rewrite R0, I0. unfold Flat.relativePathOf. cbn [Flat.file]. rewrite D0.
  cbn [Flat.visitImports]. unfold Flat.visitImport.
  rewrite !importName_found. cbn [fst snd].
  destruct (decide (rel ∈ _)) as [Hin|Hin]; [set_solver|clear Hin]. cbn [fst snd].
  destruct (decide (lit ∈ _)) as [Hin|Hin]; [set_solver|clear Hin].
  cbn [Flat.loop Flat.queue app Flat.result Flat.alreadyImported].
  unfold Flat.iteration at 1.
  cbn [Flat.file Flat.cwd Flat.queue Flat.result Flat.alreadyImported].
  rewrite R1, I1. unfold Flat.relativePathOf.
  cbn [Flat.file Flat.relativeTo]. rewrite Hrel.
  cbn [Flat.visitImports Flat.loop Flat.queue app Flat.result Flat.alreadyImported].
  unfold Flat.iteration at 1.
  cbn [Flat.file Flat.cwd Flat.queue Flat.result Flat.alreadyImported].
  rewrite R2, I2. unfold Flat.relativePathOf.
  cbn [Flat.file Flat.relativeTo]. rewrite Hlit.
  cbn [Flat.visitImports Flat.queue app Flat.result Flat.alreadyImported].
  rewrite loop_empty_queue by reflexivity. reflexivity.
Qed.

End FlatArithmetic.

(** C6, the claim as written fails: with working directory [/w] the root
    [a/b.sol] importing [./c.sol] and [pkg/d.sol] yields the locators
    [/w/a/b.sol], [/w/a/c.sol] and [pkg/d.sol]; no record has the locator
    [a/c.sol]. *)
Lemma relative_import_locator_is_absolute :
  exists out,
    Flat.gatherSources node (fsResolver projectFiles) 3 ["a/b.sol"] "/w" = Some (Ok out)
    /\ map url out = ["/w/a/b.sol"; "/w/a/c.sol"; "pkg/d.sol"]
    /\ ~ In "a/c.sol" (map url out).
Proof.
  eexists. split; [vm_compute; reflexivity|]. split; [reflexivity|].
  simpl. intros [H|[H|[H|[]]]]; discriminate.
Qed.

Lemma relative_import_joined_witness :
  Flat.gatherSources node (fsResolver projectFiles) 3 ["a/b.sol"] "/w" =
  Some (Ok [ {| url := "/w/a/b.sol";
                source := imp "./c.sol" +:+ imp "pkg/d.sol"; provider := "fs" |};
             {| url := "/w/a/c.sol"; source := "contract C {}"; provider := "fs" |};
             {| url := "pkg/d.sol"; source := "contract D {}"; provider := "fs" |} ]).
Proof.
  apply (relative_import_joined_to_root_directory node (fsResolver projectFiles)
           "/w" "a/b.sol" "./c.sol" "pkg/d.sol"
           {| url := "/w/a/b.sol"; source := imp "./c.sol" +:+ imp "pkg/d.sol";
              provider := "fs" |}
           {| url := "/w/a/c.sol"; source := "contract C {}"; provider := "fs" |}
           {| url := "/w/a/pkg/d.sol"; source := "contract D {}"; provider := "fs" |}
           3); try (vm_compute; reflexivity); lia.
Defined.

(** ** The tree traversal: fetches and failures *)

(** C4 (defect of the code): [a.sol] and [b.sol] both import [f.sol].  When
    the two root traversals are resumed in turn, both find [/w/f.sol] absent
    from [alreadyImported], because the locator is added only after the
    awaited [require] has returned: [require] is called twice for
    [/w/f.sol] and two nodes are pushed for it.  Run one after the other,
    the same roots fetch it once. *)
Theorem shared_import_fetched_twice :
  let st := Tree.run node (fsResolver sharedFiles) alternating
              (Tree.start ["a.sol"; "b.sol"] "/w") in
  let st' := Tree.run node (fsResolver sharedFiles) oneAfterTheOther
               (Tree.start ["a.sol"; "b.sol"] "/w") in
  Tree.settled st = Some (Ok [fNode; fNode; importsF "a.sol"; importsF "b.sol"])
  /\ Tree.fetched st =
       [ ("a.sol", "/w", "/w/a.sol"); ("b.sol", "/w", "/w/b.sol");
         ("./f.sol", "/w", "/w/f.sol"); ("./f.sol", "/w", "/w/f.sol") ]
  /\ Tree.settled st' = Some (Ok [fNode; importsF "a.sol"; importsF "b.sol"])
  /\ Tree.fetched st' =
       [ ("a.sol", "/w", "/w/a.sol"); ("./f.sol", "/w", "/w/f.sol");
         ("b.sol", "/w", "/w/b.sol") ].
Proof. repeat split; vm_compute; reflexivity. Qed.

Section TreeFailures.
Context {E : Type}.
Variable path : PathModule.
Variable resolver : ResolverEngine E.

#[local] Abbreviation resume := (Tree.resume path resolver).
#[local] Abbreviation run := (Tree.run path resolver).

Lemma run_app (s1 s2 : list nat) (st : Tree.State) :
  run (s1 ++ s2) st = run s2 (run s1 st).
Proof. unfold Tree.run. apply fold_left_app. Qed.

Lemma run_cons (i : nat) (s : list nat) (st : Tree.State) :
  run (i :: s) st = run s (resume i st).
Proof. reflexivity. Qed.

(** Once [Promise.all] has seen a rejection, nothing replaces it. *)
Lemma failure_resume (i : nat) (st : Tree.State) (e : E) :
  Tree.failure st = Some e -> Tree.failure (resume i st) = Some e.
Proof.
  intros H. unfold Tree.resume.
  destruct (Tree.tasks st !! i) as [[[u c|u c v|v|e'] stack| |]|]; try exact H.
  - destruct (resolve resolver u c); [|exact H].
    destruct (decide _); exact H.
  - destruct (require resolver u c); [|exact H].
    destruct (Tree.continueLoop _ _ _ _ _); exact H.
  - destruct stack as [|fr stack]; [exact H|].
    destruct (Tree.continueLoop _ _ _ _ _); exact H.
  - destruct stack as [|fr stack]; [|exact H]. cbn. now rewrite H.
Qed.

Lemma failure_run (s : list nat) (st : Tree.State) (e : E) :
  Tree.failure st = Some e -> Tree.failure (run s st) = Some e.
Proof.
  revert st; induction s as [|i s IH]; intros st H; [exact H|].
  rewrite run_cons. apply IH. now apply failure_resume.
Qed.

Lemma settled_failure (st : Tree.State) (e : E) :
  Tree.failure st = Some e -> Tree.settled st = Some (Err e).
Proof. intros H. unfold Tree.settled. now rewrite H. Qed.


(** Resuming a task leaves the others as they are. *)
Lemma resume_other (i j : nat) (st : Tree.State) :
  i <> j -> Tree.tasks (resume j st) !! i = Tree.tasks st !! i.
Proof.
  intros Hne. unfold Tree.resume.
  destruct (Tree.tasks st !! j) as [[[r c|r c v|v|e] stack| |]|]; try reflexivity.
  - destruct (resolve resolver r c) as [v|e];
      [destruct (decide (v ∈ Tree.alreadyImported st))|]; cbn;
      now rewrite list_lookup_insert_ne by auto.
  - destruct (require resolver r c) as [f|e].
    + destruct (Tree.continueLoop _ _ _ _ _) as [t res]. cbn.
      now rewrite list_lookup_insert_ne by auto.
    + cbn. now rewrite list_lookup_insert_ne by auto.
  - destruct stack as [|fr stack].
    + cbn. now rewrite list_lookup_insert_ne by auto.
    + destruct (Tree.continueLoop _ _ _ _ _) as [t res]. cbn.
      now rewrite list_lookup_insert_ne by auto.
  - destruct stack as [|fr stack]; cbn;
      now rewrite list_lookup_insert_ne by auto.
Qed.

Lemma not_all_fulfilled (l : list (@Tree.Task E)) (i : nat) (t : Tree.Task) :
  l !! i = Some t -> Tree.isFulfilled t = false ->
  forallb Tree.isFulfilled l = false.
Proof.
  revert i. induction l as [|x l IH]; intros [|i] Hi Ht; try discriminate;
    cbn in *.
  - injection Hi as ->. now rewrite Ht.
  - rewrite (IH i Hi Ht). apply andb_false_r.
Qed.

(** A task that can only reject stays so, whatever is resumed. *)
Lemma doomed_resume (i j : nat) (st : Tree.State) (t : Tree.Task) :
  Tree.tasks st !! i = Some t -> doomed resolver t ->
  exists t', Tree.tasks (resume j st) !! i = Some t' /\ doomed resolver t'.
Proof.
  intros Hi Ht. destruct (decide (i = j)) as [<-|Hne].
  2:{ exists t. now rewrite resume_other. }
  pose proof (lookup_lt_Some _ _ _ Hi) as Hlt.
  unfold Tree.resume. rewrite Hi.
  destruct t as [[r c|r c v|v|e] stack|v|e]; cbn in Ht; try contradiction.
  - destruct Ht as [e ->]. eexists.
    split; [cbn; now apply list_lookup_insert_eq|exact I].
  - destruct Ht as [e ->]. eexists.
    split; [cbn; now apply list_lookup_insert_eq|exact I].
  - destruct stack as [|fr stack];
      (eexists; split; [cbn; now apply list_lookup_insert_eq|exact I]).
  - exists (Tree.Rejected e). now split.
Qed.

Lemma doomed_run (s : list nat) (i : nat) (st : Tree.State) (t : Tree.Task) :
  Tree.tasks st !! i = Some t -> doomed resolver t ->
  exists t', Tree.tasks (run s st) !! i = Some t' /\ doomed resolver t'.
Proof.
  revert st t. induction s as [|j s IH]; intros st t Hi Ht; [now exists t|].
  rewrite run_cons. destruct (doomed_resume i j st t Hi Ht) as (t' & Hi' & Ht').
  now apply (IH _ t').
Qed.

Lemma doomed_never_settles_well (i : nat) (st : Tree.State) (t : Tree.Task)
    (nodes : list ImportTreeNode) :
  Tree.tasks st !! i = Some t -> doomed resolver t ->
  Tree.settled st <> Some (Ok nodes).
Proof.
  intros Hi Ht. unfold Tree.settled. destruct (Tree.failure st); [discriminate|].
  rewrite (not_all_fulfilled _ i t Hi); [discriminate|].
  destruct t as [a stack|v|e]; [reflexivity|contradiction|reflexivity].
Qed.







End TreeFailures.



(** ** The task machine against [dfs] as it is written *)

Section Sequential.
Context {E : Type}.
Variable path : PathModule.
Variable resolver : ResolverEngine E.

#[local] Abbreviation resume := (Tree.resume path resolver).
#[local] Abbreviation run := (Tree.run path resolver).
#[local] Abbreviation dfs := (Tree.dfs path resolver).
#[local] Abbreviation returnsAs := (Tree.returnsAs path resolver).
#[local] Abbreviation loopEndsAs := (Tree.loopEndsAs path resolver).

Lemma run_repeat_add (i n1 n2 : nat) (st : @Tree.State E) :
  run (repeat i (n1 + n2)) st = run (repeat i n2) (run (repeat i n1) st).
Proof. now rewrite repeat_app, run_app. Qed.

Lemma lookup_atStore (st : @Tree.State E) (i : nat) (t : Tree.Task)
    (res : list ImportTreeNode) (V : gset string)
    (log : list (string * string * string)) :
  i < length (Tree.tasks st) ->
  Tree.tasks (Tree.atStore st i t res V log) !! i = Some t.
Proof. intros H. cbn. now apply list_lookup_insert_eq. Qed.

Lemma resume_resolved_seen (st : @Tree.State E) (i : nat) (u c v : string)
    (stack : list Tree.LoopFrame) (res : list ImportTreeNode) (V : gset string)
    (log : list (string * string * string)) :
  i < length (Tree.tasks st) -> resolve resolver u c = Ok v -> v ∈ V ->
  resume i (Tree.atStore st i (Tree.Running (Tree.AtResolve u c) stack) res V log)
  = Tree.atStore st i (Tree.Running (Tree.AtReturn v) stack) res V log.
Proof.
  intros Hi Hr Hv. unfold Tree.resume. rewrite lookup_atStore by exact Hi.
  rewrite Hr. cbn [Tree.alreadyImported Tree.atStore].
  rewrite decide_True by exact Hv.
  unfold Tree.setTask, Tree.atStore. cbn. now rewrite list_insert_insert_eq.
Qed.

Lemma resume_resolved_new (st : @Tree.State E) (i : nat) (u c v : string)
    (stack : list Tree.LoopFrame) (res : list ImportTreeNode) (V : gset string)
    (log : list (string * string * string)) :
  i < length (Tree.tasks st) -> resolve resolver u c = Ok v -> v ∉ V ->
  resume i (Tree.atStore st i (Tree.Running (Tree.AtResolve u c) stack) res V log)
  = Tree.atStore st i (Tree.Running (Tree.AtRequire u c v) stack) res V
      (log ++ [(u, c, v)]).
Proof.
  intros Hi Hr Hv. unfold Tree.resume. rewrite lookup_atStore by exact Hi.
  rewrite Hr. cbn [Tree.alreadyImported Tree.atStore].
  rewrite decide_False by exact Hv.
  unfold Tree.atStore. cbn. now rewrite list_insert_insert_eq.
Qed.

Lemma resume_resolve_failed (st : @Tree.State E) (i : nat) (u c : string) (e : E)
    (stack : list Tree.LoopFrame) (res : list ImportTreeNode) (V : gset string)
    (log : list (string * string * string)) :
  i < length (Tree.tasks st) -> resolve resolver u c = Err e ->
  resume i (Tree.atStore st i (Tree.Running (Tree.AtResolve u c) stack) res V log)
  = Tree.atStore st i (Tree.Running (Tree.AtThrow e) stack) res V log.
Proof.
  intros Hi Hr. unfold Tree.resume. rewrite lookup_atStore by exact Hi.
  rewrite Hr. unfold Tree.setTask, Tree.atStore. cbn.
  now rewrite list_insert_insert_eq.
Qed.

Lemma resume_required (st : @Tree.State E) (i : nat) (u c v : string)
    (f : ImportFile) (stack : list Tree.LoopFrame) (res : list ImportTreeNode)
    (V : gset string) (log : list (string * string * string)) :
  i < length (Tree.tasks st) -> require resolver u c = Ok f ->
  let next :=
    Tree.continueLoop
      {| uri := u; imports := []; node_url := url f; node_source := source f;
         node_provider := provider f |}
      (path_dirname path v) (findImports f) stack res in
  resume i (Tree.atStore st i (Tree.Running (Tree.AtRequire u c v) stack) res V log)
  = Tree.atStore st i next.1 next.2 ({[ v ]} ∪ V) log.
Proof.
  intros Hi Hq next. unfold Tree.resume. rewrite lookup_atStore by exact Hi.
  rewrite Hq. cbn [Tree.alreadyImported Tree.result Tree.atStore]. fold next.
  destruct next as [t res']. unfold Tree.atStore. cbn.
  now rewrite list_insert_insert_eq.
Qed.

Lemma resume_require_failed (st : @Tree.State E) (i : nat) (u c v : string) (e : E)
    (stack : list Tree.LoopFrame) (res : list ImportTreeNode) (V : gset string)
    (log : list (string * string * string)) :
  i < length (Tree.tasks st) -> require resolver u c = Err e ->
  resume i (Tree.atStore st i (Tree.Running (Tree.AtRequire u c v) stack) res V log)
  = Tree.atStore st i (Tree.Running (Tree.AtThrow e) stack) res V log.
Proof.
  intros Hi Hq. unfold Tree.resume. rewrite lookup_atStore by exact Hi.
  rewrite Hq. unfold Tree.setTask, Tree.atStore. cbn.
  now rewrite list_insert_insert_eq.
Qed.

Lemma resume_thrown (st : @Tree.State E) (i : nat) (e : E)
    (fr : Tree.LoopFrame) (stack : list Tree.LoopFrame)
    (res : list ImportTreeNode) (V : gset string)
    (log : list (string * string * string)) :
  i < length (Tree.tasks st) ->
  resume i (Tree.atStore st i (Tree.Running (Tree.AtThrow e) (fr :: stack)) res V log)
  = Tree.atStore st i (Tree.Running (Tree.AtThrow e) stack) res V log.
Proof.
  intros Hi. unfold Tree.resume. rewrite lookup_atStore by exact Hi.
  unfold Tree.setTask, Tree.atStore. cbn. now rewrite list_insert_insert_eq.
Qed.

Lemma resume_returned (st : @Tree.State E) (i : nat) (v : string)
    (fr : Tree.LoopFrame) (stack : list Tree.LoopFrame)
    (res : list ImportTreeNode) (V : gset string)
    (log : list (string * string * string)) :
  i < length (Tree.tasks st) ->
  let next :=
    Tree.continueLoop
      (Tree.pushImport (Tree.fileNode fr)
         {| edge_uri := Tree.importUri fr; edge_url := v |})
      (Tree.resolvedCwd fr) (Tree.pending fr) stack res in
  resume i (Tree.atStore st i (Tree.Running (Tree.AtReturn v) (fr :: stack)) res V log)
  = Tree.atStore st i next.1 next.2 V log.
Proof.
  intros Hi next. unfold Tree.resume. rewrite lookup_atStore by exact Hi.
  cbn [Tree.alreadyImported Tree.result Tree.atStore]. fold next.
  destruct next as [t res']. unfold Tree.atStore. cbn.
  now rewrite list_insert_insert_eq.
Qed.

Lemma loop_refined (call : string -> string -> Tree.Store
                           -> option (Result E (string * Tree.Store)))
    (st : @Tree.State E) (i : nat) (cwd_ : string) :
  i < length (Tree.tasks st) ->
  (forall u s out stack,
      call u cwd_ s = Some out ->
      returnsAs st i stack
        (Tree.atStore st i (Tree.Running (Tree.AtResolve u cwd_) stack)
           (Tree.nodes s) (Tree.seen s) (Tree.calls s)) out) ->
  forall todo node s out stack,
    Tree.dfsLoop call cwd_ todo node s = Some out ->
    let next := Tree.continueLoop (E:=E) node cwd_ todo stack (Tree.nodes s) in
    loopEndsAs st i stack node
      (Tree.atStore st i next.1 next.2 (Tree.seen s) (Tree.calls s)) out.
Proof.
  intros Hi Hcall todo.
  induction todo as [|x rest IH]; intros node s out stack; cbn [Tree.dfsLoop].
  - intros [= <-]. cbn. split; [reflexivity|]. now exists 0.
  - destruct (call x cwd_ s) as [[[v s1]|e]|] eqn:Hc; [| |discriminate].
    + intros Hrest. cbn [Tree.continueLoop fst snd].
      destruct (Hcall _ _ _
                  ({| Tree.fileNode := node; Tree.resolvedCwd := cwd_;
                      Tree.importUri := x; Tree.pending := rest |} :: stack) Hc)
        as [n1 Hn1].
      specialize (IH _ _ _ stack Hrest). cbn zeta in IH.
      destruct out as [[node' s']|e]; cbn in IH |- *.
      * destruct IH as [Hurl [n2 Hn2]]. split; [exact Hurl|].
        exists (n1 + (1 + n2)). rewrite run_repeat_add, Hn1.
        change (1 + n2) with (S n2). cbn [repeat]. rewrite run_cons.
        rewrite resume_returned by exact Hi. exact Hn2.
      * destruct IH as (n2 & res & V & log & Hn2).
        exists (n1 + (1 + n2)), res, V, log. rewrite run_repeat_add, Hn1.
        change (1 + n2) with (S n2). cbn [repeat]. rewrite run_cons.
        rewrite resume_returned by exact Hi. exact Hn2.
    + intros [= <-]. cbn [Tree.continueLoop fst snd].
      destruct (Hcall _ _ _
                  ({| Tree.fileNode := node; Tree.resolvedCwd := cwd_;
                      Tree.importUri := x; Tree.pending := rest |} :: stack) Hc)
        as (n & res & V & log & Hn).
      exists (n + 1), res, V, log. rewrite run_repeat_add, Hn.
      cbn [repeat]. rewrite run_cons. now rewrite resume_thrown by exact Hi.
Qed.

(** Resumed alone, a task does what the recursion computes. *)
Lemma dfs_refined (fuel : nat) (st : @Tree.State E) (i : nat) :
  i < length (Tree.tasks st) ->
  forall u c s out stack,
    dfs fuel u c s = Some out ->
    returnsAs st i stack
      (Tree.atStore st i (Tree.Running (Tree.AtResolve u c) stack)
         (Tree.nodes s) (Tree.seen s) (Tree.calls s)) out.
Proof.
  intros Hi. induction fuel as [|fuel IH]; intros u c s out stack; [discriminate|].
  cbn [Tree.dfs].
  destruct (resolve resolver u c) as [v|e] eqn:Hr.
  - destruct (decide (v ∈ Tree.seen s)) as [Hv|Hv].
    + intros [= <-]. exists 1. cbn [repeat]. rewrite run_cons.
      rewrite (resume_resolved_seen st i u c v) by assumption. reflexivity.
    + destruct (require resolver u c) as [f|e] eqn:Hq.
      * destruct (Tree.dfsLoop _ _ _ _ _) as [[[node' s']|e]|] eqn:Hl;
          [| |discriminate]; intros [= <-].
        -- pose proof (loop_refined (dfs fuel) st i (path_dirname path v) Hi
                         (fun u0 s0 out0 stack0 H0 => IH u0 _ s0 out0 stack0 H0)
                         _ _ _ _ stack Hl) as Hl'.
           unfold Tree.loopEndsAs in Hl'.
           cbn [Tree.nodes Tree.seen Tree.calls node_url] in Hl'.
           destruct Hl' as [Hurl [n Hn]].
           exists (S (S n)). cbn [repeat]. rewrite !run_cons.
           rewrite (resume_resolved_new st i u c v) by assumption.
           rewrite (resume_required st i u c v f) by assumption.
           cbv zeta. cbn [Tree.nodes Tree.seen Tree.calls]. rewrite Hurl in Hn. exact Hn.
        -- pose proof (loop_refined (dfs fuel) st i (path_dirname path v) Hi
                         (fun u0 s0 out0 stack0 H0 => IH u0 _ s0 out0 stack0 H0)
                         _ _ _ _ stack Hl) as Hl'.
           unfold Tree.loopEndsAs in Hl'.
           cbn [Tree.nodes Tree.seen Tree.calls node_url] in Hl'.
           destruct Hl' as (n & res & V & log & Hn).
           exists (S (S n)), res, V, log. cbn [repeat]. rewrite !run_cons.
           rewrite (resume_resolved_new st i u c v) by assumption.
           rewrite (resume_required st i u c v f) by assumption.
           exact Hn.
      * intros [= <-]. exists 2, (Tree.nodes s), (Tree.seen s),
          (Tree.calls s ++ [(u, c, v)]). cbn [repeat]. rewrite !run_cons.
        rewrite (resume_resolved_new st i u c v) by assumption.
        rewrite (resume_require_failed st i u c v e) by assumption. reflexivity.
  - intros [= <-]. exists 1, (Tree.nodes s), (Tree.seen s), (Tree.calls s).
    cbn [repeat]. rewrite run_cons.
    rewrite (resume_resolve_failed st i u c e) by assumption. reflexivity.
Qed.

(** A call with one root, its task resumed until it settles, returns what
    the recursion computes. *)
Lemma single_root_as_written (fuel : nat) (root workingDir : string)
    (out : Result E (string * Tree.Store)) :
  dfs fuel root workingDir
    {| Tree.nodes := []; Tree.seen := ∅; Tree.calls := [] |} = Some out ->
  exists schedule,
    Tree.gatherDepenencyTree path resolver schedule [root] workingDir
    = Some match out with
           | Ok (_, s') => Ok (Tree.nodes s')
           | Err e => Err e
           end.
Proof.
  intros Hd.
  pose proof (dfs_refined fuel (Tree.start [root] workingDir) 0
                ltac:(cbn; lia) _ _ _ _ [] Hd) as H.
  unfold Tree.gatherDepenencyTree.
  destruct out as [[v s']|e]; cbn [Tree.returnsAs] in H.
  - destruct H as [n Hn]. exists (repeat 0 n ++ [0]).
    rewrite run_app. cbn [Tree.nodes Tree.seen Tree.calls] in Hn.
    change (Tree.atStore (Tree.start [root] workingDir) 0
              (Tree.Running (Tree.AtResolve root workingDir) []) [] ∅ [])
      with (Tree.start (E:=E) [root] workingDir) in Hn.
    rewrite Hn. reflexivity.
  - destruct H as (n & res & V & log & Hn). exists (repeat 0 n ++ [0]).
    rewrite run_app. cbn [Tree.nodes Tree.seen Tree.calls] in Hn.
    change (Tree.atStore (Tree.start [root] workingDir) 0
              (Tree.Running (Tree.AtResolve root workingDir) []) [] ∅ [])
      with (Tree.start (E:=E) [root] workingDir) in Hn.
    rewrite Hn. reflexivity.
Qed.

End Sequential.

(** ** Termination of the tree traversal *)

Section Sums.
Context {A : Type}.

Lemma sum_insert_lt (f g : A -> nat) (l : list A) (i : nat) (t t' : A) :
  l !! i = Some t -> (forall x, g x <= f x) -> g t' < f t ->
  sum_list_with g (<[i := t']> l) < sum_list_with f l.
Proof.
  intros Hi Hle Hlt. revert i Hi.
  induction l as [|x l IH]; intros [|i] Hi; simpl in *; try discriminate.
  - injection Hi as ->.
    assert (sum_list_with g l <= sum_list_with f l).
    { clear -Hle. induction l as [|y l IHl]; simpl; [lia|]. specialize (Hle y). lia. }
    lia.
  - specialize (IH _ Hi). specialize (Hle x). lia.
Qed.

Lemma sum_insert_le (f g : A -> nat) (l : list A) (i : nat) (t t' : A) :
  l !! i = Some t -> (forall x, g x <= f x) -> g t' <= f t ->
  sum_list_with g (<[i := t']> l) <= sum_list_with f l.
Proof.
  intros Hi Hle Hlt. revert i Hi.
  induction l as [|x l IH]; intros [|i] Hi; simpl in *; try discriminate.
  - injection Hi as ->.
    assert (sum_list_with g l <= sum_list_with f l).
    { clear -Hle. induction l as [|y l IHl]; simpl; [lia|]. specialize (Hle y). lia. }
    lia.
  - specialize (IH _ Hi). specialize (Hle x). lia.
Qed.

End Sums.

Lemma unvisited_add_le (locators : list string) (u : string) (seen : gset string) :
  Measure.unvisited locators ({[ u ]} ∪ seen) <= Measure.unvisited locators seen.
Proof.
  unfold Measure.unvisited. induction locators as [|x l IH]; [reflexivity|].
  rewrite !filter_cons.
  destruct (decide (x ∉ {[u]} ∪ seen)), (decide (x ∉ seen)); simpl; try lia.
  exfalso. set_solver.
Qed.

Lemma unvisited_add_lt (locators : list string) (u : string) (seen : gset string) :
  u ∈ locators -> u ∉ seen ->
  Measure.unvisited locators ({[ u ]} ∪ seen) < Measure.unvisited locators seen.
Proof.
  unfold Measure.unvisited. induction locators as [|x l IH]; intros Hin Hns.
  - inversion Hin.
  - rewrite !filter_cons. apply elem_of_cons in Hin as [<-|Hin].
    + rewrite decide_False by set_solver. rewrite decide_True by exact Hns.
      simpl. pose proof (unvisited_add_le l u seen) as H.
      unfold Measure.unvisited in H. lia.
    + specialize (IH Hin Hns).
      destruct (decide (x ∉ {[u]} ∪ seen)), (decide (x ∉ seen)); simpl; try lia.
      exfalso. set_solver.
Qed.

Section Termination.
Context {E : Type}.
Variable path : PathModule.
Variable resolver : ResolverEngine E.
Variable locators : list string.
Hypothesis fetched_in_locators :
  forall uri_ cwd_ u f,
    resolve resolver uri_ cwd_ = Ok u -> require resolver uri_ cwd_ = Ok f ->
    u ∈ locators.

#[local] Abbreviation resume := (Tree.resume path resolver).
#[local] Abbreviation run := (Tree.run path resolver).
#[local] Abbreviation unvisited := (Measure.unvisited locators).
#[local] Abbreviation potential := (@Measure.potential E locators).
#[local] Abbreviation fetchesLeft := (@Measure.fetchesLeft E locators).

Lemma requiresKnown_start (roots : list string) (workingDir : string) :
  Measure.requiresKnown resolver (Tree.start (E:=E) roots workingDir).
Proof.
  intros i uri_ cwd_ u stack H. unfold Tree.start in H. cbn in H.
  apply list_lookup_fmap_Some in H as (x & Hx & _). discriminate.
Qed.

Lemma lookup_insert_cases {A : Type} (l : list A) (i j : nat) (x y : A) :
  <[i := x]> l !! j = Some y -> y = x \/ l !! j = Some y.
Proof.
  intros H. destruct (decide (i = j)) as [->|Hne].
  - destruct (decide (j < length l)) as [Hlt|Hge].
    + rewrite list_lookup_insert_eq in H by exact Hlt. left. congruence.
    + rewrite list_insert_ge in H by lia. now right.
  - rewrite list_lookup_insert_ne in H by exact Hne. now right.
Qed.

Lemma continueLoop_not_require (n : ImportTreeNode) (d : string)
    (todo : list string) (stack : list Tree.LoopFrame)
    (res : list ImportTreeNode) (uri_ cwd_ u : string) (stack' : list Tree.LoopFrame) :
  (Tree.continueLoop n d todo stack res).1
    <> @Tree.Running E (Tree.AtRequire uri_ cwd_ u) stack'.
Proof. destruct todo; discriminate. Qed.

Lemma requiresKnown_resume (i : nat) (st : Tree.State) :
  Measure.requiresKnown resolver st -> Measure.requiresKnown resolver (resume i st).
Proof.
  intros Hinv. unfold Tree.resume.
  destruct (Tree.tasks st !! i) as [[[u c|u c v|v|e'] stack| |]|] eqn:Hi;
    try exact Hinv.
  - destruct (resolve resolver u c) as [v|e] eqn:Hr.
    + destruct (decide (v ∈ Tree.alreadyImported st)).
      * intros j a b w s H. cbn in H.
        apply lookup_insert_cases in H as [H|H]; [discriminate|eauto].
      * intros j a b w s H. cbn in H.
        apply lookup_insert_cases in H as [H|H]; [|eauto].
        injection H as -> -> -> ->. exact Hr.
    + intros j a b w s H. cbn in H.
      apply lookup_insert_cases in H as [H|H]; [discriminate|eauto].
  - destruct (require resolver u c) as [f|e] eqn:Hr.
    + destruct (Tree.continueLoop _ _ _ _ _) as [t res] eqn:Hc.
      intros j a b w s H. cbn in H.
      apply lookup_insert_cases in H as [H|H]; [|eauto].
      exfalso. eapply continueLoop_not_require. rewrite Hc. symmetry. exact H.
    + intros j a b w s H. cbn in H.
      apply lookup_insert_cases in H as [H|H]; [discriminate|eauto].
  - destruct stack as [|fr stack].
    + intros j a b w s H. cbn in H.
      apply lookup_insert_cases in H as [H|H]; [discriminate|eauto].
    + destruct (Tree.continueLoop _ _ _ _ _) as [t res] eqn:Hc.
      intros j a b w s H. cbn in H.
      apply lookup_insert_cases in H as [H|H]; [|eauto].
      exfalso. eapply continueLoop_not_require. rewrite Hc. symmetry. exact H.
  - destruct stack as [|fr stack]; intros j a b w s H; cbn in H;
      (apply lookup_insert_cases in H as [H|H]; [discriminate|eauto]).
Qed.

Lemma requiresKnown_run (s : list nat) (st : Tree.State) :
  Measure.requiresKnown resolver st -> Measure.requiresKnown resolver (run s st).
Proof.
  revert st; induction s as [|i s IH]; intros st H; [exact H|].
  apply IH, requiresKnown_resume, H.
Qed.

Lemma potential_add (u : string) (seen : gset string) (t : Tree.Task) :
  u ∈ locators ->
  potential ({[ u ]} ∪ seen) t <= potential seen t.
Proof.
  intros Hu. unfold Measure.potential.
  destruct (decide (u ∈ seen)) as [Hin|Hnin].
  - replace ({[u]} ∪ seen) with seen by set_solver. lia.
  - pose proof (unvisited_add_lt locators u seen Hu Hnin).
    assert (Measure.waiting ({[u]} ∪ seen) t <= 1); [|lia].
    unfold Measure.waiting. destruct t as [[| | |] ?| |]; try lia.
    destruct (decide _); lia.
Qed.

Lemma work_continueLoop (n : ImportTreeNode) (d : string) (todo : list string)
    (stack : list Tree.LoopFrame) (res : list ImportTreeNode) :
  @Measure.work E (Tree.continueLoop n d todo stack res).1
  <= 4 * length todo + 1 + sum_list_with Measure.frameWeight stack.
Proof.
  destruct todo as [|x todo]; cbn; unfold Measure.frameWeight; cbn; lia.
Qed.

Lemma waiting_continueLoop (seen : gset string) (n : ImportTreeNode) (d : string)
    (todo : list string) (stack : list Tree.LoopFrame) (res : list ImportTreeNode) :
  @Measure.waiting E seen (Tree.continueLoop n d todo stack res).1 = 0.
Proof. destruct todo; reflexivity. Qed.

Ltac same_potential :=
  unfold Measure.potential; cbn; repeat destruct (decide _); lia.

(** Each move either uses up one possible expansion, or leaves their
    number as it is and uses up one unit of work. *)
Lemma moves_decrease (st st' : Tree.State) :
  Measure.requiresKnown resolver st ->
  Tree.moves path resolver st st' ->
  fetchesLeft st' < fetchesLeft st
  \/ (fetchesLeft st' <= fetchesLeft st
      /\ Measure.workLeft st' < Measure.workLeft st).
Proof.
  intros Hinv (i & t & Hi & Hrun & ->).
  unfold Tree.resume. rewrite Hi.
  destruct t as [[u c|u c v|v|e'] stack| |]; try discriminate.
  - (* resumed after [resolve] *)
    right. destruct (resolve resolver u c) as [v|e] eqn:Hr.
    + destruct (decide (v ∈ Tree.alreadyImported st)) as [Hin|Hnin].
      * split; unfold Measure.fetchesLeft, Measure.workLeft; cbn.
        -- eapply sum_insert_le; [exact Hi | intros; lia | same_potential].
        -- eapply sum_insert_lt; [exact Hi | intros; lia | cbn; lia].
      * split; unfold Measure.fetchesLeft, Measure.workLeft; cbn.
        -- eapply sum_insert_le; [exact Hi | intros; lia |].
           unfold Measure.potential. cbn.
           rewrite decide_False by exact Hnin. lia.
        -- eapply sum_insert_lt; [exact Hi | intros; lia | cbn; lia].
    + split; unfold Measure.fetchesLeft, Measure.workLeft; cbn.
      * eapply sum_insert_le; [exact Hi | intros; lia | same_potential].
      * eapply sum_insert_lt; [exact Hi | intros; lia | cbn; lia].
  - (* resumed after [require] *)
    destruct (require resolver u c) as [f|e] eqn:Hr.
    + left. destruct (Tree.continueLoop _ _ _ _ _) as [t res] eqn:Hc.
      unfold Measure.fetchesLeft. cbn.
      assert (Hv : v ∈ locators) by eauto.
      eapply sum_insert_lt; [exact Hi | intros x; now apply potential_add |].
      pose proof (f_equal fst Hc) as Ht. cbn [fst] in Ht. rewrite <- Ht.
      unfold Measure.potential. rewrite waiting_continueLoop. cbn.
      destruct (decide (v ∈ Tree.alreadyImported st)) as [Hin|Hnin].
      * replace ({[v]} ∪ Tree.alreadyImported st)
          with (Tree.alreadyImported st) by set_solver. lia.
      * pose proof (unvisited_add_lt locators v _ Hv Hnin). lia.
    + right. split; unfold Measure.fetchesLeft, Measure.workLeft; cbn.
      * eapply sum_insert_le; [exact Hi | intros; lia | same_potential].
      * eapply sum_insert_lt; [exact Hi | intros; lia | cbn; lia].
  - (* resumed after a [dfs] has returned *)
    right. destruct stack as [|fr stack].
    + split; unfold Measure.fetchesLeft, Measure.workLeft; cbn.
      * eapply sum_insert_le; [exact Hi | intros; lia | same_potential].
      * eapply sum_insert_lt; [exact Hi | intros; lia | cbn; lia].
    + destruct (Tree.continueLoop _ _ _ _ _) as [t res] eqn:Hc.
      pose proof (f_equal fst Hc) as Ht. cbn [fst] in Ht.
      split; unfold Measure.fetchesLeft, Measure.workLeft; cbn.
      * eapply sum_insert_le; [exact Hi | intros; lia |].
        unfold Measure.potential.
        rewrite <- Ht, waiting_continueLoop. cbn. lia.
      * eapply sum_insert_lt; [exact Hi | intros; lia |]. rewrite <- Ht.
        eapply Nat.le_lt_trans; [apply work_continueLoop|].
        cbn. unfold Measure.frameWeight. lia.
  - (* resumed after a [dfs] has rejected *)
    right. destruct stack as [|fr stack];
      (split; unfold Measure.fetchesLeft, Measure.workLeft; cbn;
       [eapply sum_insert_le; [exact Hi | intros; lia | same_potential]
       |eapply sum_insert_lt; [exact Hi | intros; lia |];
        cbn; unfold Measure.frameWeight; lia]).
Qed.

(** No traversal moves for ever. *)
Lemma moves_well_founded (st : Tree.State) :
  Measure.requiresKnown resolver st -> Acc (fun s' s => Tree.moves path resolver s s') st.
Proof.
  remember (fetchesLeft st) as a eqn:Ha. revert st Ha.
  induction a as [a IHa] using lt_wf_ind. intros st Ha.
  remember (Measure.workLeft st) as b eqn:Hb. revert st Ha Hb.
  induction b as [b IHb] using lt_wf_ind. intros st Ha Hb Hinv.
  constructor. intros st' Hmove.
  assert (Hinv' : Measure.requiresKnown resolver st').
  { destruct Hmove as (i & t & _ & _ & ->). now apply requiresKnown_resume. }
  destruct (moves_decrease _ _ Hinv Hmove) as [Hlt|[Hle Hlt]].
  - eapply IHa; [|reflexivity|exact Hinv']. lia.
  - destruct (decide (fetchesLeft st' = a)) as [Heq|Hne].
    + eapply IHb; [|symmetry; exact Heq|reflexivity|exact Hinv']. lia.
    + eapply IHa; [|reflexivity|exact Hinv']. lia.
Qed.

End Termination.

Section Completion.
Context {E : Type}.
Variable path : PathModule.
Variable resolver : ResolverEngine E.

#[local] Abbreviation resume := (Tree.resume path resolver).
#[local] Abbreviation run := (Tree.run path resolver).

Lemma rejectionsSeen_start (roots : list string) (workingDir : string) :
  rejectionsSeen (Tree.start (E:=E) roots workingDir).
Proof.
  intros _ i e H. unfold Tree.start in H. cbn in H.
  apply list_lookup_fmap_Some in H as (x & Hx & _). discriminate.
Qed.

Lemma continueLoop_not_rejected (n : ImportTreeNode) (d : string)
    (todo : list string) (stack : list Tree.LoopFrame)
    (res : list ImportTreeNode) (e : E) :
  (Tree.continueLoop n d todo stack res).1 <> Tree.Rejected e.
Proof. destruct todo; discriminate. Qed.

Lemma rejectionsSeen_resume (i : nat) (st : Tree.State) :
  rejectionsSeen st -> rejectionsSeen (resume i st).
Proof.
  intros Hinv. unfold Tree.resume.
  destruct (Tree.tasks st !! i) as [[[u c|u c v|v|e0] stack| |]|] eqn:Hi;
    try exact Hinv.
  - destruct (resolve resolver u c) as [v|e] eqn:Hr;
      [destruct (decide (v ∈ Tree.alreadyImported st))|];
      intros Hnone j e' H; cbn in *;
      apply lookup_insert_cases in H as [H|H]; try discriminate;
      now apply (Hinv Hnone j e').
  - destruct (require resolver u c) as [f|e] eqn:Hr.
    + destruct (Tree.continueLoop _ _ _ _ _) as [t res] eqn:Hc.
      intros Hnone j e' H. cbn in *.
      apply lookup_insert_cases in H as [H|H]; [|now apply (Hinv Hnone j e')].
      eapply continueLoop_not_rejected. rewrite Hc. symmetry. exact H.
    + intros Hnone j e' H. cbn in *.
      apply lookup_insert_cases in H as [H|H]; [discriminate|].
      now apply (Hinv Hnone j e').
  - destruct stack as [|fr stack].
    + intros Hnone j e' H. cbn in *.
      apply lookup_insert_cases in H as [H|H]; [discriminate|].
      now apply (Hinv Hnone j e').
    + destruct (Tree.continueLoop _ _ _ _ _) as [t res] eqn:Hc.
      intros Hnone j e' H. cbn in *.
      apply lookup_insert_cases in H as [H|H]; [|now apply (Hinv Hnone j e')].
      eapply continueLoop_not_rejected. rewrite Hc. symmetry. exact H.
  - destruct stack as [|fr stack].
    + intros Hnone. cbn in Hnone. destruct (Tree.failure st); discriminate.
    + intros Hnone j e' H. cbn in *.
      apply lookup_insert_cases in H as [H|H]; [discriminate|].
      now apply (Hinv Hnone j e').
Qed.

Lemma rejectionsSeen_run (s : list nat) (st : Tree.State) :
  rejectionsSeen st -> rejectionsSeen (run s st).
Proof.
  revert st; induction s as [|i s IH]; intros st H; [exact H|].
  apply IH, rejectionsSeen_resume, H.
Qed.

Lemma unsettled_task (l : list (@Tree.Task E)) :
  forallb Tree.isSettled l = false ->
  exists i t, l !! i = Some t /\ Tree.isSettled t = false.
Proof.
  induction l as [|x l IH]; [discriminate|]. simpl.
  destruct (Tree.isSettled x) eqn:Hx; simpl.
  - intros H. destruct (IH H) as (i & t & Hi & Ht). now exists (S i), t.
  - intros _. now exists 0, x.
Qed.

(** A traversal that cannot move for ever can be run to its end. *)
Lemma run_to_end (st : Tree.State) :
  Acc (fun s' s => Tree.moves path resolver s s') st ->
  exists schedule, forallb Tree.isSettled (Tree.tasks (run schedule st)) = true.
Proof.
  induction 1 as [st _ IH].
  destruct (forallb Tree.isSettled (Tree.tasks st)) eqn:Hall.
  - now exists [].
  - destruct (unsettled_task _ Hall) as (i & t & Hi & Ht).
    destruct (IH (resume i st)) as [s Hs]; [now exists i, t|].
    now exists (i :: s).
Qed.

Lemma settled_at_end (st : @Tree.State E) :
  rejectionsSeen st ->
  forallb Tree.isSettled (Tree.tasks st) = true ->
  (exists e, Tree.settled st = Some (Err e))
  \/ Tree.settled st = Some (Ok (Tree.result st)).
Proof.
  intros Hinv Hall. unfold Tree.settled.
  destruct (Tree.failure st) as [e|] eqn:Hf; [left; now exists e|right].
  replace (forallb Tree.isFulfilled (Tree.tasks st)) with true; [reflexivity|].
  symmetry. apply forallb_forall. intros t Ht.
  apply (proj1 (forallb_forall _ _) Hall) in Ht as Hs.
  apply list_elem_of_In, list_elem_of_lookup in Ht as [i Hi].
  destruct t as [| |e]; try reflexivity; try discriminate.
  exfalso. exact (Hinv Hf i e Hi).
Qed.

End Completion.

Section SingleRoot.
Context {E : Type}.
Variable path : PathModule.
Variable resolver : ResolverEngine E.

#[local] Abbreviation resume := (Tree.resume path resolver).
#[local] Abbreviation run := (Tree.run path resolver).

Lemma resume_length (i : nat) (st : Tree.State) :
  length (Tree.tasks (resume i st)) = length (Tree.tasks st).
Proof.
  unfold Tree.resume.
  destruct (Tree.tasks st !! i) as [[[u c|u c v|v|e] stack| |]|]; try reflexivity.
  - destruct (resolve resolver u c); [destruct (decide _)|]; cbn;
      now rewrite length_insert.
  - destruct (require resolver u c);
      [destruct (Tree.continueLoop _ _ _ _ _)|]; cbn; now rewrite length_insert.
  - destruct stack; [|destruct (Tree.continueLoop _ _ _ _ _)]; cbn;
      now rewrite length_insert.
  - destruct stack; cbn; now rewrite length_insert.
Qed.

Lemma resume_out_of_range (i : nat) (st : Tree.State) :
  length (Tree.tasks st) <= i -> resume i st = st.
Proof.
  intros H. unfold Tree.resume. now rewrite lookup_ge_None_2.
Qed.

(** With a single root only the turns given to task 0 count. *)
Lemma run_single_root (schedule : list nat) (st : Tree.State) :
  length (Tree.tasks st) = 1 ->
  run schedule st = run (repeat 0 (count_occ Nat.eq_dec schedule 0)) st.
Proof.
  revert st; induction schedule as [|i s IH]; intros st Hlen; [reflexivity|].
  cbn [count_occ]. destruct (Nat.eq_dec i 0) as [->|Hne].
  - cbn [repeat]. rewrite !run_cons. apply IH. now rewrite resume_length.
  - rewrite run_cons, resume_out_of_range by lia. now apply IH.
Qed.

Lemma run_settled_root (n : nat) (st : Tree.State) (u : string)
    (others : list Tree.Task) :
  Tree.tasks st = Tree.Fulfilled u :: others ->
  run (repeat 0 n) st = st.
Proof.
  intros H. induction n as [|n IH]; [reflexivity|].
  cbn [repeat]. rewrite run_cons.
  replace (resume 0 st) with st; [exact IH|].
  unfold Tree.resume. now rewrite H.
Qed.

Variables (rootA workingDir urlA urlB refA refB : string) (fileA fileB : ImportFile).
Hypothesis resolve_root : resolve resolver rootA workingDir = Ok urlA.
Hypothesis require_root : require resolver rootA workingDir = Ok fileA.
Hypothesis imports_A : findImports fileA = [refB].
Hypothesis resolve_B : resolve resolver refB (path_dirname path urlA) = Ok urlB.
Hypothesis require_B : require resolver refB (path_dirname path urlA) = Ok fileB.
Hypothesis imports_B : findImports fileB = [refA].
Hypothesis resolve_back : resolve resolver refA (path_dirname path urlB) = Ok urlA.
Hypothesis distinct : urlA <> urlB.

Ltac next_turn :=
  match goal with
  | |- context [Tree.run ?p ?r (?i :: ?s) ?st] => rewrite (run_cons p r i s st)
  end;
  unfold Tree.resume at 1; cbn -[findImports Tree.run].

Lemma two_file_cycle_run :
  run [0; 0; 0; 0; 0; 0; 0; 0] (Tree.start [rootA] workingDir) =
  {| Tree.result :=
       [ {| uri := refB; imports := [ {| edge_uri := refA; edge_url := urlA |} ];
            node_url := url fileB; node_source := source fileB;
            node_provider := provider fileB |};
         {| uri := rootA; imports := [ {| edge_uri := refB; edge_url := url fileB |} ];
            node_url := url fileA; node_source := source fileA;
            node_provider := provider fileA |} ];
     Tree.alreadyImported := {[ urlB ]} ∪ ({[ urlA ]} ∪ ∅);
     Tree.tasks := [ Tree.Fulfilled (url fileA) ];
     Tree.fetched :=
       [ (rootA, workingDir, urlA); (refB, path_dirname path urlA, urlB) ];
     Tree.failure := None |}.
Proof.
  unfold Tree.start. cbn [map].
  next_turn. rewrite resolve_root.
  destruct (decide (urlA ∈ _)) as [Hin|_]; [set_solver|].
  next_turn.
  rewrite require_root, imports_A. cbn -[findImports Tree.run].
  next_turn. rewrite resolve_B.
  destruct (decide (urlB ∈ _)) as [Hin|_]; [set_solver|].
  next_turn.
  rewrite require_B, imports_B. cbn -[findImports Tree.run].
  next_turn. rewrite resolve_back.
  destruct (decide (urlA ∈ _)) as [_|Hnin]; [|set_solver].
  next_turn.
  next_turn.
  next_turn.
  reflexivity.
Qed.

End SingleRoot.
(** ** Cycles *)

Lemma lookupFile_known (files : list (string * string)) (p text : string) :
  lookupFile files p = Some text -> p ∈ map fst files.
Proof.
  induction files as [|[name t] files IH]; cbn; [discriminate|].
  destruct (name =? p) eqn:Hn.
  - apply String.eqb_eq in Hn as ->. intros _. left.
  - intros H. right. now apply IH.
Qed.

(** Only the files that exist can be fetched, also through a resolver whose
    [resolve] is path arithmetic and accepts every reference. *)
Lemma lazyResolver_locators (files : list (string * string))
    (uri_ cwd_ u : string) (f : ImportFile) :
  resolve (lazyResolver files) uri_ cwd_ = Ok u ->
  require (lazyResolver files) uri_ cwd_ = Ok f ->
  u ∈ map fst files.
Proof.
  cbn. intros [= <-].
  destruct (lookupFile files (fsLocate uri_ cwd_)) as [text|] eqn:Hl;
    [|discriminate].
  intros _. now apply lookupFile_known in Hl.
Qed.

Lemma fsResolver_locators (files : list (string * string))
    (uri_ cwd_ u : string) (f : ImportFile) :
  resolve (fsResolver files) uri_ cwd_ = Ok u ->
  require (fsResolver files) uri_ cwd_ = Ok f ->
  u ∈ map fst files.
Proof.
  cbn. destruct (lookupFile files (fsLocate uri_ cwd_)) as [text|] eqn:Hl;
    [|discriminate].
  intros [= <-] _. now apply lookupFile_known in Hl.
Qed.

Section Ends.
Context {E : Type}.
Variable path : PathModule.
Variable resolver : ResolverEngine E.

(** When the files that can be fetched are finitely many, no interleaving
    of the roots' traversals moves for ever, every interleaving can be run
    until all roots have settled, and the call has then returned. *)
Lemma traversal_ends (locators roots : list string) (workingDir : string) :
  (forall uri_ cwd_ u f,
      resolve resolver uri_ cwd_ = Ok u -> require resolver uri_ cwd_ = Ok f ->
      u ∈ locators) ->
  Acc (fun s' s => Tree.moves path resolver s s') (Tree.start roots workingDir)
  /\ (forall schedule,
        forallb Tree.isSettled
          (Tree.tasks (Tree.run path resolver schedule
                         (Tree.start roots workingDir))) = true ->
        exists out,
          Tree.gatherDepenencyTree path resolver schedule roots workingDir
            = Some out)
  /\ exists schedule,
       forallb Tree.isSettled
         (Tree.tasks (Tree.run path resolver schedule
                        (Tree.start roots workingDir))) = true.
Proof.
  intros Hloc.
  assert (Hacc : Acc (fun s' s => Tree.moves path resolver s s')
                   (Tree.start roots workingDir)).
  { apply (moves_well_founded path resolver locators Hloc).
    apply requiresKnown_start. }
  split; [exact Hacc|]. split.
  - intros schedule Hall. unfold Tree.gatherDepenencyTree.
    destruct (settled_at_end _
                (rejectionsSeen_run path resolver schedule _
                   (rejectionsSeen_start roots workingDir)) Hall)
      as [[e He]|Hok]; eauto.
  - now apply run_to_end.
Qed.

(** The cycle traversed from one of its files: one node each, one call of
    [require] each. *)
Lemma cycle_from_one_root
    (rootA workingDir urlA urlB refA refB : string)
    (fileA fileB : ImportFile) (schedule : list nat) :
  resolve resolver rootA workingDir = Ok urlA ->
  require resolver rootA workingDir = Ok fileA ->
  findImports fileA = [refB] ->
  resolve resolver refB (path_dirname path urlA) = Ok urlB ->
  require resolver refB (path_dirname path urlA) = Ok fileB ->
  findImports fileB = [refA] ->
  resolve resolver refA (path_dirname path urlB) = Ok urlA ->
  urlA <> urlB ->
  8 <= count_occ Nat.eq_dec schedule 0 ->
  Tree.gatherDepenencyTree path resolver schedule [rootA] workingDir =
    Some (Ok [ {| uri := refB;
                  imports := [ {| edge_uri := refA; edge_url := urlA |} ];
                  node_url := url fileB; node_source := source fileB;
                  node_provider := provider fileB |};
               {| uri := rootA;
                  imports := [ {| edge_uri := refB; edge_url := url fileB |} ];
                  node_url := url fileA; node_source := source fileA;
                  node_provider := provider fileA |} ])
  /\ Tree.fetched (Tree.run path resolver schedule (Tree.start [rootA] workingDir))
     = [ (rootA, workingDir, urlA); (refB, path_dirname path urlA, urlB) ].
Proof.
  intros H1 H2 H3 H4 H5 H6 H7 H8 Hturns.
  unfold Tree.gatherDepenencyTree.
  rewrite (run_single_root path resolver schedule) by reflexivity.
  replace (count_occ Nat.eq_dec schedule 0)
    with (8 + (count_occ Nat.eq_dec schedule 0 - 8)) by lia.
  rewrite run_repeat_add.
  change (repeat 0 8) with [0; 0; 0; 0; 0; 0; 0; 0].
  rewrite (two_file_cycle_run path resolver rootA workingDir urlA urlB refA refB
             fileA fileB H1 H2 H3 H4 H5 H6 H7 H8).
  now rewrite (run_settled_root path resolver _ _ (url fileA) []).
Qed.

End Ends.

(** C5 (defect of the code): [a.sol] and [b.sol] import each other.
    Whatever the roots and the order in which the promises settle, the
    traversal cannot move for ever and can be run until it returns, also
    with a resolver whose [resolve] is path arithmetic.  But with both
    files as roots, while the [require] of the root [b.sol] is pending, the
    traversal of [a.sol] reaches its import of [./b.sol] and finds
    [/w/b.sol] absent from [alreadyImported]: the file is fetched again and
    a second node is built for it.  The call returns only when both roots
    have settled.  Traversed one after the other, the same roots give one
    node for each file. *)
Theorem cyclic_roots_build_node_twice :
  let st := Tree.run node (fsResolver cyclicFiles) overlapping
              (Tree.start ["a.sol"; "b.sol"] "/w") in
  (forall (roots : list string) (workingDir : string),
      Acc (fun s' s => Tree.moves node (fsResolver cyclicFiles) s s')
        (Tree.start roots workingDir)
      /\ Acc (fun s' s => Tree.moves node (lazyResolver cyclicFiles) s s')
           (Tree.start roots workingDir)
      /\ (exists schedule out,
            Tree.gatherDepenencyTree node (fsResolver cyclicFiles) schedule
              roots workingDir = Some out)
      /\ (exists schedule out,
            Tree.gatherDepenencyTree node (lazyResolver cyclicFiles) schedule
              roots workingDir = Some out))
  /\ Tree.gatherDepenencyTree node (fsResolver cyclicFiles) overlapping
       ["a.sol"; "b.sol"] "/w"
     = Some (Ok [cycleNodeB "b.sol"; cycleNodeB "./b.sol"; aNode])
  /\ Tree.fetched st
     = [ ("b.sol", "/w", "/w/b.sol"); ("a.sol", "/w", "/w/a.sol");
         ("./b.sol", "/w", "/w/b.sol") ]
  /\ (forall n, n < length overlapping ->
        Tree.gatherDepenencyTree node (fsResolver cyclicFiles)
          (firstn n overlapping) ["a.sol"; "b.sol"] "/w" = None)
  /\ Tree.gatherDepenencyTree node (fsResolver cyclicFiles)
       (repeat 0 8 ++ repeat 1 2) ["a.sol"; "b.sol"] "/w"
     = Some (Ok [cycleNodeB "./b.sol"; aNode]).
Proof.
  cbv zeta. split.
  { intros roots workingDir.
    destruct (traversal_ends node (fsResolver cyclicFiles) (map fst cyclicFiles)
                roots workingDir (fsResolver_locators cyclicFiles))
      as (Hacc & Hret & s & Hs).
    destruct (traversal_ends node (lazyResolver cyclicFiles) (map fst cyclicFiles)
                roots workingDir (lazyResolver_locators cyclicFiles))
      as (Hacc' & Hret' & s' & Hs').
    split; [exact Hacc|]. split; [exact Hacc'|]. split.
    - exists s. exact (Hret s Hs).
    - exists s'. exact (Hret' s' Hs'). }
  split; [vm_compute; reflexivity|]. split; [vm_compute; reflexivity|].
  split; [|vm_compute; reflexivity].
  intros n Hn. do 13 (destruct n as [|n]; [vm_compute; reflexivity|]).
  cbn in Hn. lia.
Qed.

(** ** The locators recorded on import edges *)

Section EdgeFacts.
Context {E : Type}.
Variable path : PathModule.
Variable resolver : ResolverEngine E.
Variable roots : list string.
Variable workingDir : string.

#[local] Abbreviation resume := (Tree.resume path resolver).
#[local] Abbreviation run := (Tree.run path resolver).
#[local] Abbreviation checkedAt := (Edges.checkedAt path resolver roots workingDir).
#[local] Abbreviation fromRequire := (Edges.fromRequire path resolver roots workingDir).
#[local] Abbreviation edgeOk := (Edges.edgeOk path resolver roots workingDir).
#[local] Abbreviation nodeOk := (Edges.nodeOk path resolver roots workingDir).
#[local] Abbreviation stackOk := (Edges.stackOk path resolver roots workingDir).
#[local] Abbreviation taskOk := (Edges.taskOk path resolver roots workingDir).
#[local] Abbreviation stateOk := (Edges.stateOk path resolver roots workingDir).














End EdgeFacts.




Section Edgeless.




End Edgeless.

(** * Further properties of the code *)

(** ** What [findImports] can return *)

Section ScannerInversion.

Lemma star_inv (p : ascii -> bool) (s : chars) (c : captures)
    (k : chars -> captures -> outcome) (x : captures * chars) :
  star p s c k = Some x ->
  exists l s', s = l ++ s' /\ all p l /\ k s' c = Some x.
Proof.
  induction s as [|a s IH]; cbn [star].
  - intros H. exists [], []. repeat split; assumption.
  - destruct (p a) eqn:Ha.
    + destruct (star p s c k) as [y|] eqn:Hs; cbn [orElse].
      * intros Hy. destruct (IH Hy) as (l & s' & -> & Hl & Hk).
        exists (a :: l), s'. repeat split; [|exact Hk].
        apply all_cons. now split.
      * intros H. exists [], (a :: s). repeat split; assumption.
    + intros H. exists [], (a :: s). repeat split; assumption.
Qed.

Lemma m_matches (r : regex) :
  forall s c k x,
    m r s c k = Some x ->
    exists s' c', matches r s s' c c' /\ k s' c' = Some x.
Proof.
  induction r as [|p|r1 IH1 r2 IH2|r1 IH1 r2 IH2|p|n r IH]; intros s c k x; cbn [m].
  - intros H. exists s, c. split; [constructor|exact H].
  - destruct s as [|a s]; [discriminate|].
    destruct (p a) eqn:Ha; [|discriminate].
    intros H. exists s, c. split; [now constructor|exact H].
  - intros H. apply IH1 in H as (s1 & c1 & H1 & H).
    apply IH2 in H as (s2 & c2 & H2 & H).
    exists s2, c2. split; [econstructor; eassumption|exact H].
  - destruct (m r1 s c k) as [y|] eqn:H1; cbn [orElse].
    + intros Hy. rewrite Hy in H1. apply IH1 in H1 as (s' & c' & Hm & Hk).
      exists s', c'. split; [now apply matches_Alt_l|exact Hk].
    + intros H. apply IH2 in H as (s' & c' & Hm & Hk).
      exists s', c'. split; [now apply matches_Alt_r|exact Hk].
  - intros H. apply star_inv in H as (l & s' & -> & Hl & Hk).
    exists s', c. split; [now constructor|exact Hk].
  - intros H. apply IH in H as (s' & c' & Hm & Hk).
    exists s', ((n, firstn (length s - length s') s) :: c').
    split; [now constructor|exact Hk].
Qed.

Lemma matches_Seq_inv (r1 r2 : regex) (s s2 : chars) (c c2 : captures) :
  matches (Seq r1 r2) s s2 c c2 ->
  exists s1 c1, matches r1 s s1 c c1 /\ matches r2 s1 s2 c1 c2.
Proof. intros H. inversion H; subst. eauto. Qed.

Lemma matches_Alt_inv (r1 r2 : regex) (s s' : chars) (c c' : captures) :
  matches (Alt r1 r2) s s' c c' ->
  matches r1 s s' c c' \/ matches r2 s s' c c'.
Proof. intros H. inversion H; subst; auto. Qed.

Lemma matches_Chr_inv (p : ascii -> bool) (s s' : chars) (c c' : captures) :
  matches (Chr p) s s' c c' -> exists a, s = a :: s' /\ p a = true /\ c' = c.
Proof. intros H. inversion H; subst. eauto. Qed.

Lemma matches_is_char_inv (q : ascii) (s s' : chars) (c c' : captures) :
  matches (Chr (is_char q)) s s' c c' -> s = q :: s' /\ c' = c.
Proof.
  intros H. apply matches_Chr_inv in H as (a & -> & Ha & ->).
  apply Ascii.eqb_eq in Ha as ->. auto.
Qed.

Lemma matches_Star_inv (p : ascii -> bool) (s s' : chars) (c c' : captures) :
  matches (Star p) s s' c c' -> exists l, s = l ++ s' /\ all p l /\ c' = c.
Proof. intros H. inversion H; subst. eauto. Qed.

Lemma matches_Plus_inv (p : ascii -> bool) (s s' : chars) (c c' : captures) :
  matches (Plus p) s s' c c' ->
  exists l, s = l ++ s' /\ 1 <= length l /\ c' = c.
Proof.
  intros H. apply matches_Seq_inv in H as (s1 & c1 & H1 & H2).
  apply matches_Chr_inv in H1 as (a & -> & _ & ->).
  apply matches_Star_inv in H2 as (l & -> & _ & ->).
  exists (a :: l). repeat split. cbn. lia.
Qed.

Lemma matches_Lit_inv (l : chars) :
  forall s s' c c', matches (Lit l) s s' c c' -> s = l ++ s' /\ c' = c.
Proof.
  induction l as [|a l IH]; cbn [Lit]; intros s s' c c' H.
  - inversion H; subst. auto.
  - apply matches_Seq_inv in H as (s1 & c1 & H1 & H2).
    apply matches_is_char_inv in H1 as [-> ->].
    apply IH in H2 as [-> ->]. auto.
Qed.

Lemma matches_quoted_inv (q : ascii) (n : nat) (body : ascii -> bool)
    (s s' : chars) (c c' : captures) :
  matches (quoted q n body) s s' c c' ->
  exists P, s = q :: P ++ q :: s' /\ c' = (n, P) :: c.
Proof.
  unfold quoted. intros H.
  apply matches_Seq_inv in H as (s1 & c1 & H1 & H).
  apply matches_is_char_inv in H1 as [-> ->].
  apply matches_Seq_inv in H as (s2 & c2 & H2 & H3).
  apply matches_is_char_inv in H3 as [-> ->].
  inversion H2 as [| | | | | |n0 r0 s0 s0' c0 c0' Hstar]; subst.
  apply matches_Star_inv in Hstar as (P & -> & _ & ->).
  exists P. split; [reflexivity|]. now rewrite firstn_consumed.
Qed.

Lemma matches_either_quoted_inv (n1 n2 : nat) (body : ascii -> bool)
    (s s' : chars) (c c' : captures) :
  matches (Alt (quoted dquote n1 body) (quoted squote n2 body)) s s' c c' ->
  exists q n P,
    isQuote q /\ (n = n1 \/ n = n2) /\ s = q :: P ++ q :: s' /\ c' = (n, P) :: c.
Proof.
  intros H. apply matches_Alt_inv in H as [H|H];
    apply matches_quoted_inv in H as (P & -> & ->).
  - exists dquote, n1, P. repeat split; auto. now left.
  - exists squote, n2, P. repeat split; auto. now right.
Qed.

(** A match starts with the word [import] and holds, further on, the
    captured path between two quotes; at least one character is matched
    before the opening quote and after the closing one. *)
Lemma matchAt_import_inv (s : chars) (c : captures) (rest : chars) :
  matchAt import_regex s = Some (c, rest) ->
  exists q P w B,
    isQuote q /\ firstDefined c = Some P
    /\ s = str "import" ++ w ++ q :: P ++ q :: B ++ rest
    /\ 1 <= length w /\ 1 <= length B.
Proof.
  unfold matchAt. intros H.
  apply m_matches in H as (s' & c' & H & [= <- <-]).
  unfold import_regex in H.
  apply matches_Seq_inv in H as (s1 & c1 & H1 & H).
  apply matches_Lit_inv in H1 as [-> ->].
  apply matches_Seq_inv in H as (s2 & c2 & H2 & H).
  apply matches_Plus_inv in H2 as (w & -> & Hw & ->).
  apply matches_Alt_inv in H as [H|H].
  - apply matches_Seq_inv in H as (s3 & c3 & H3 & H).
    apply matches_either_quoted_inv in H3 as (q & n & P & Hq & Hn & -> & ->).
    assert (Hfirst : forall c0, c0 = [(n, P)] -> firstDefined c0 = Some P).
    { intros c0 ->. destruct Hn as [->| ->]; reflexivity. }
    apply matches_Alt_inv in H as [H|H].
    + apply matches_is_char_inv in H as [-> ->].
      exists q, P, w, [";"%char]. repeat split; auto.
    + apply matches_Seq_inv in H as (s4 & c4 & H4 & H).
      apply matches_Plus_inv in H4 as (w2 & -> & Hw2 & ->).
      apply matches_Seq_inv in H as (s5 & c5 & H5 & H).
      apply matches_Lit_inv in H5 as [-> ->].
      apply matches_Seq_inv in H as (s6 & c6 & H6 & H).
      apply matches_Plus_inv in H6 as (w3 & -> & Hw3 & ->).
      apply matches_Seq_inv in H as (s7 & c7 & H7 & H).
      apply matches_Star_inv in H7 as (name & -> & _ & ->).
      apply matches_is_char_inv in H as [-> ->].
      exists q, P, w, (w2 ++ str "as" ++ w3 ++ name ++ [";"%char]).
      repeat split; auto.
      * now rewrite <- !app_assoc.
      * rewrite !length_app. lia.
  - apply matches_Seq_inv in H as (s3 & c3 & H3 & H).
    apply matches_Plus_inv in H3 as (b & -> & Hb & ->).
    apply matches_Seq_inv in H as (s4 & c4 & H4 & H).
    apply matches_Lit_inv in H4 as [-> ->].
    apply matches_Seq_inv in H as (s5 & c5 & H5 & H).
    apply matches_Plus_inv in H5 as (w2 & -> & Hw2 & ->).
    apply matches_Seq_inv in H as (s6 & c6 & H6 & H).
    apply matches_either_quoted_inv in H6 as (q & n & P & Hq & Hn & -> & ->).
    apply matches_is_char_inv in H as [-> ->].
    exists q, P, (w ++ b ++ str "from" ++ w2), [";"%char]. repeat split; auto.
    + destruct Hn as [->| ->]; reflexivity.
    + now rewrite <- !app_assoc.
    + rewrite !length_app. lia.
Qed.

Lemma exec_inv (r : regex) (s : chars) (x : captures * chars) :
  exec r s = Some x -> exists pre s0, s = pre ++ s0 /\ matchAt r s0 = Some x.
Proof.
  induction s as [|a s IH]; cbn [exec].
  - destruct (matchAt r []) eqn:Hm; [|discriminate].
    intros [= <-]. now exists [], [].
  - destruct (matchAt r (a :: s)) eqn:Hm.
    + intros [= <-]. now exists [], (a :: s).
    + intros H. destruct (IH H) as (pre & s0 & -> & H0).
      now exists (a :: pre), s0.
Qed.

Lemma exec_import_inv (s : chars) (c : captures) (rest : chars) :
  exec import_regex s = Some (c, rest) ->
  exists q P w B,
    isQuote q /\ firstDefined c = Some P
    /\ s = w ++ q :: P ++ q :: B ++ rest
    /\ 7 <= length w /\ 1 <= length B
    /\ exists pre post, w = pre ++ str "import" ++ post.
Proof.
  intros H. apply exec_inv in H as (pre & s0 & -> & H).
  apply matchAt_import_inv in H as (q & P & w & B & Hq & Hc & -> & Hw & HB).
  exists q, P, (pre ++ str "import" ++ w), B. repeat split; auto.
  - now rewrite <- !app_assoc.
  - rewrite !length_app. cbn. lia.
  - now exists pre, w.
Qed.

Lemma str_string_of_list (l : chars) : str (string_of_list_ascii l) = l.
Proof. apply list_ascii_of_string_of_list_ascii. Qed.

Lemma string_of_str (s : string) : string_of_list_ascii (str s) = s.
Proof. apply string_of_list_ascii_of_string. Qed.

Lemma str_inj (a b : string) : str a = str b -> a = b.
Proof. intros H. rewrite <- (string_of_str a), <- (string_of_str b). now rewrite H. Qed.

Lemma string_of_list_app (l1 l2 : chars) :
  string_of_list_ascii (l1 ++ l2) = string_of_list_ascii l1 +:+ string_of_list_ascii l2.
Proof. induction l1 as [|a l1 IH]; cbn; [reflexivity|]. now rewrite IH. Qed.

(** What the loop adds to [result] stands between quotes in the text,
    and every match uses up at least ten characters. *)
Lemma findImportsLoop_inv (fuel : nat) :
  forall s result,
    (forall p, In p (findImportsLoop fuel s result) ->
               In p result
               \/ exists q pre post,
                    isQuote q /\ s = pre ++ q :: str p ++ q :: post)
    /\ 10 * length (findImportsLoop fuel s result) <= 10 * length result + length s.
Proof.
  induction fuel as [|fuel IH]; intros s result; cbn [findImportsLoop].
  - split; [auto|lia].
  - destruct (exec import_regex s) as [[c rest]|] eqn:He; [|split; [auto|lia]].
    apply exec_import_inv in He
      as (q & P & w & B & Hq & Hc & -> & Hw & HB & _).
    destruct (IH rest (pushMatch c result)) as [IHin IHlen].
    unfold pushMatch in *. rewrite Hc in *. split.
    + intros p Hp. apply IHin in Hp as [Hp|(q' & pre & post & Hq' & ->)].
      * apply in_app_or in Hp as [Hp|[<-|[]]]; [now left|right].
        exists q, w, (B ++ rest). split; [exact Hq|].
        now rewrite str_string_of_list.
      * right. exists q', (w ++ q :: P ++ q :: B ++ pre), post.
        split; [exact Hq'|].
        repeat (rewrite <- app_assoc || rewrite <- app_comm_cons). reflexivity.
    + rewrite length_app in IHlen. cbn [length] in IHlen.
      repeat (rewrite length_app || cbn [length]). lia.
Qed.

Lemma exec_needs_import (s : chars) :
  (forall pre post, s <> pre ++ str "import" ++ post) ->
  exec import_regex s = None.
Proof.
  intros Hno. destruct (exec import_regex s) as [[c rest]|] eqn:He; [|reflexivity].
  apply exec_import_inv in He
    as (q & P & w & B & _ & _ & -> & _ & _ & pre & post & ->).
  exfalso. apply (Hno pre (post ++ q :: P ++ q :: B ++ rest)).
  now rewrite <- !app_assoc.
Qed.

Lemma no_occurrence (pat s : string) :
  occursIn pat s = false -> forall pre post, str s <> pre ++ str pat ++ post.
Proof.
  unfold occursIn. destruct (JS.splitAtFirst pat s) eqn:Hs; [discriminate|].
  intros _ pre post Heq.
  apply (splitAtFirst_none pat s (string_of_list_ascii pre)
           (string_of_list_ascii post) Hs).
  apply str_inj. rewrite !str_app, !str_string_of_list. exact Heq.
Qed.

Lemma str_length (s : string) : length (str s) = String.length s.
Proof. unfold str. induction s as [|a s IH]; cbn; [reflexivity|]. now rewrite IH. Qed.

Lemma findImportsLoop_tenth (fuel : nat) :
  forall fuel' s result,
    length s < 10 * fuel -> length s < 10 * fuel' ->
    findImportsLoop fuel s result = findImportsLoop fuel' s result.
Proof.
  induction fuel as [|fuel IH]; intros fuel' s result H H'; [lia|].
  destruct fuel' as [|fuel']; [lia|]. cbn [findImportsLoop].
  destruct (exec import_regex s) as [[c rest]|] eqn:He; [|reflexivity].
  apply exec_import_inv in He as (q & P & w & B & _ & _ & -> & Hw & HB & _).
  repeat (rewrite length_app in H, H' || cbn [length] in H, H').
  apply IH; lia.
Qed.

Lemma findImports_without_word (data : ImportFile) :
  occursIn "import" (source data) = false -> findImports data = [].
Proof.
  intros H. unfold findImports. cbn [findImportsLoop].
  rewrite exec_needs_import; [reflexivity|]. now apply no_occurrence.
Qed.

End ScannerInversion.

(** X1: a text in which the word import does not occur yields no import,
    whatever else it holds. *)
Theorem findImports_needs_the_word_import (data : ImportFile) :
  occursIn "import" (source data) = false -> findImports data = [].
Proof.
  intros Hno. unfold findImports. cbn [findImportsLoop].
  rewrite exec_needs_import; [reflexivity|].
  intros pre post. now apply no_occurrence.
Qed.

Lemma findImports_needs_the_word_import_witness :
  findImports (textFile "contract T { uint impart; }") = [].
Proof.
  apply (findImports_needs_the_word_import
           (textFile "contract T { uint impart; }")).
  vm_compute. reflexivity.
Defined.

(** X2: every path [findImports] returns stands in the text as it is
    returned, between two double quotes or two single quotes. *)
Theorem findImports_returns_quoted_text (data : ImportFile) (p : string) :
  In p (findImports data) ->
  exists q pre post,
    isQuote q /\ source data = pre +:+ quotedStr q p +:+ post.
Proof.
  intros Hp. unfold findImports in Hp.
  apply (findImportsLoop_inv _ _ []) in Hp as [[]|(q & pre & post & Hq & Hs)].
  exists q, (string_of_list_ascii pre), (string_of_list_ascii post).
  split; [exact Hq|]. apply str_inj.
  rewrite str_app, str_app, str_quoted, !str_string_of_list. exact Hs.
Qed.

Lemma findImports_returns_quoted_text_witness :
  exists q pre post,
    isQuote q
    /\ source (textFile ("// header" +:+ nl +:+ imp "./a.sol"))
       = pre +:+ quotedStr q "./a.sol" +:+ post.
Proof.
  apply (findImports_returns_quoted_text
           (textFile ("// header" +:+ nl +:+ imp "./a.sol")) "./a.sol").
  vm_compute. left. reflexivity.
Defined.

(** X3: every match of the pattern uses up at least ten characters of the
    text, so [findImports] returns at most one path per ten characters and
    its loop ends by itself: fuel beyond a tenth of the text changes
    nothing. *)
Theorem findImports_match_takes_ten_characters (data : ImportFile) :
  10 * length (findImports data) <= String.length (source data)
  /\ forall fuel,
       String.length (source data) < 10 * fuel ->
       findImportsLoop fuel (str (source data)) [] = findImports data.
Proof.
  split.
  - pose proof (findImportsLoop_inv (S (String.length (source data)))
                  (str (source data)) []) as [_ H].
    rewrite str_length in H. exact H.
  - intros fuel Hfuel. unfold findImports.
    apply findImportsLoop_tenth; rewrite str_length; lia.
Qed.

(** ** Import statements that stand on lines of their own *)

Section StatementsOnLines.










End StatementsOnLines.



(** ** Locators that [replace] does not insert as they are *)

Section DollarPatterns.

Lemma GetSubstitution_app (matched pre post a rest : string) :
  occursIn "$" a = false ->
  JS.GetSubstitution matched pre post (a +:+ rest)
  = a +:+ JS.GetSubstitution matched pre post rest.
Proof.
  unfold occursIn. induction a as [|x a IH]; [reflexivity|].
  rewrite splitAtFirst_cons.
  change (String x a +:+ rest) with (String x (a +:+ rest)).
  cbn [JS.GetSubstitution].
  destruct (Ascii.eqb x "$") eqn:Hx.
  { apply Ascii.eqb_eq in Hx. subst x. destruct a; simpl; intros; discriminate. }
  destruct (String.prefix "$" (String x a)); [intros; discriminate|].
  destruct (JS.splitAtFirst "$" a) as [[p q]|]; [intros; discriminate|].
  intros _. change (String x a +:+ ?t) with (String x (a +:+ t)).
  f_equal. now apply IH.
Qed.

Lemma splitAtFirst_empty (s : string) :
  JS.splitAtFirst EmptyString s = Some (EmptyString, s).
Proof.
  destruct s as [|a s]; [reflexivity|]. rewrite splitAtFirst_cons.
  change (String.prefix "" (String a s)) with true. cbv iota.
  now rewrite (substring_skip "" (String a s)).
Qed.

Lemma replace_by_itself (s pat : string) :
  occursIn "$" pat = false -> JS.replace s pat pat = s.
Proof.
  intros Hpat. unfold JS.replace.
  destruct (JS.splitAtFirst pat s) as [[pre post]|] eqn:Hs; [|reflexivity].
  rewrite GetSubstitution_plain by exact Hpat.
  symmetry. now apply splitAtFirst_sound.
Qed.

End DollarPatterns.

(** X5: a locator is a replacement pattern for [replace]: where the locator
    holds two dollar signs the text gets one; a dollar sign followed by an
    ampersand, a backquote or a quote is replaced by the import literal, by
    the text before it or by the text after it. *)
Theorem canonizeFile_expands_dollar_patterns
    (e : ImportEdge) (rest : list ImportEdge) (text pre post a b : string) :
  JS.splitAtFirst (edge_uri e) text = Some (pre, post) ->
  occursIn "$" a = false ->
  occursIn "$" b = false ->
  (edge_url e = a +:+ "$$" +:+ b ->
     canonizeSource (e :: rest) text
     = canonizeSource rest (pre +:+ (a +:+ "$" +:+ b) +:+ post))
  /\ (edge_url e = a +:+ "$&" +:+ b ->
        canonizeSource (e :: rest) text
        = canonizeSource rest (pre +:+ (a +:+ edge_uri e +:+ b) +:+ post))
  /\ (edge_url e = a +:+ "$`" +:+ b ->
        canonizeSource (e :: rest) text
        = canonizeSource rest (pre +:+ (a +:+ pre +:+ b) +:+ post))
  /\ (edge_url e = a +:+ "$'" +:+ b ->
        canonizeSource (e :: rest) text
        = canonizeSource rest (pre +:+ (a +:+ post +:+ b) +:+ post)).
Proof.
  intros Hs Ha Hb.
  repeat split; intros Hurl; unfold canonizeSource; cbn [fold_left];
    unfold JS.replace; rewrite Hs, Hurl, GetSubstitution_app by exact Ha;
    cbn [String.append JS.GetSubstitution Ascii.eqb Bool.eqb];
    now rewrite GetSubstitution_plain by exact Hb.
Qed.

Lemma canonizeFile_expands_dollar_patterns_witness :
  canonizeSource [ {| edge_uri := "lib.sol"; edge_url := "/w/$$HOME/lib.sol" |} ]
    (imp "lib.sol")
  = "import " +:+ String dquote ("/w/" +:+ "$" +:+ "HOME/lib.sol")
      +:+ (String dquote EmptyString +:+ ";" +:+ nl).
Proof.
  refine (proj1 (canonizeFile_expands_dollar_patterns
                   {| edge_uri := "lib.sol"; edge_url := "/w/$$HOME/lib.sol" |} []
                   (imp "lib.sol") ("import " +:+ String dquote EmptyString)
                   (String dquote EmptyString +:+ ";" +:+ nl)
                   "/w/" "HOME/lib.sol" _ _ _) _);
    vm_compute; reflexivity.
Defined.

(** X6: the pattern accepts an empty path between the quotes, and
    [findImports] returns it as an empty literal; [replace] finds an empty
    literal at the very start of any text, so the locator of such an edge is
    put in front of the text. *)
Theorem canonizeFile_empty_literal_prepends
    (q : ascii) (url_ : string) (rest : list ImportEdge) (text : string) :
  isQuote q ->
  occursIn "$" url_ = false ->
  findImports (textFile (bareImport q EmptyString)) = [EmptyString]
  /\ canonizeSource ({| edge_uri := EmptyString; edge_url := url_ |} :: rest) text
     = canonizeSource rest (url_ +:+ text).
Proof.
  intros Hq Hurl. split.
  - now apply (import_shapes_found q EmptyString Hq).
  - unfold canonizeSource. cbn [fold_left edge_uri edge_url].
    unfold JS.replace. rewrite splitAtFirst_empty.
    now rewrite GetSubstitution_plain by exact Hurl.
Qed.

Lemma canonizeFile_empty_literal_prepends_witness :
  findImports (textFile (bareImport dquote EmptyString)) = [EmptyString]
  /\ canonizeSource [ {| edge_uri := EmptyString; edge_url := "/w/index.sol" |} ]
       "contract T {}"
     = "/w/index.sol" +:+ "contract T {}".
Proof.
  apply (canonizeFile_empty_literal_prepends dquote "/w/index.sol" []
           "contract T {}").
  - left. reflexivity.
  - vm_compute. reflexivity.
Defined.

(** X7: when every edge's locator is the import literal itself (a resolver
    that leaves references as they are), [canonizeFile] changes nothing. *)
Theorem canonizeFile_keeps_literal_locators (file : ImportTreeNode) :
  (forall e, In e (imports file) ->
             edge_url e = edge_uri e /\ occursIn "$" (edge_uri e) = false) ->
  canonizeFile file = file.
Proof.
  intros Hall. destruct file as [u edges v text pr]. unfold canonizeFile.
  cbn [uri imports node_url node_source node_provider] in *. f_equal.
  unfold canonizeSource. revert text.
  induction edges as [|e edges IH]; intros text; [reflexivity|].
  cbn [fold_left]. destruct (Hall e (or_introl eq_refl)) as [-> Hplain].
  rewrite replace_by_itself by exact Hplain.
  apply IH. intros e' He'. apply Hall. now right.
Qed.

Lemma canonizeFile_keeps_literal_locators_witness :
  canonizeFile
    {| uri := "/w/a.sol";
       imports := [ {| edge_uri := "/w/b.sol"; edge_url := "/w/b.sol" |} ];
       node_url := "/w/a.sol"; node_source := imp "/w/b.sol";
       node_provider := "fs" |}
  = {| uri := "/w/a.sol";
       imports := [ {| edge_uri := "/w/b.sol"; edge_url := "/w/b.sol" |} ];
       node_url := "/w/a.sol"; node_source := imp "/w/b.sol";
       node_provider := "fs" |}.
Proof.
  apply (canonizeFile_keeps_literal_locators
           {| uri := "/w/a.sol";
              imports := [ {| edge_uri := "/w/b.sol"; edge_url := "/w/b.sol" |} ];
              node_url := "/w/a.sol"; node_source := imp "/w/b.sol";
              node_provider := "fs" |}).
  intros e [<-|[]]. split; vm_compute; reflexivity.
Defined.

(** ** What a node of the tree holds *)

Section NodeFacts.
Context {E : Type}.
Variable path : PathModule.
Variable resolver : ResolverEngine E.

#[local] Abbreviation resume := (Tree.resume path resolver).
#[local] Abbreviation run := (Tree.run path resolver).
#[local] Abbreviation nodeFaithful := (Faithful.nodeFaithful resolver).
#[local] Abbreviation frameFaithful := (Faithful.frameFaithful resolver).
#[local] Abbreviation stateFaithful := (Faithful.stateFaithful resolver).

Lemma continueLoop_faithful (n : ImportTreeNode) (d : string) (todo : list string)
    (stack : list Tree.LoopFrame) (res res' : list ImportTreeNode)
    (a : Tree.Suspended) (stack' : list Tree.LoopFrame) :
  nodeFaithful todo n ->
  Forall frameFaithful stack ->
  Forall (nodeFaithful []) res ->
  Tree.continueLoop (E:=E) n d todo stack res = (Tree.Running a stack', res') ->
  Forall frameFaithful stack' /\ Forall (nodeFaithful []) res'.
Proof.
  intros Hn Hstack Hres. destruct todo as [|x rest]; cbn; intros [= <- <- <-].
  - split; [exact Hstack|]. apply Forall_app. split; [exact Hres|].
    now constructor.
  - split; [|exact Hres]. constructor; [exact Hn|exact Hstack].
Qed.

Lemma continueLoop_running (n : ImportTreeNode) (d : string) (todo : list string)
    (stack : list Tree.LoopFrame) (res : list ImportTreeNode) :
  exists a stack',
    (Tree.continueLoop (E:=E) n d todo stack res).1 = Tree.Running a stack'.
Proof. destruct todo; cbn; eauto. Qed.

Lemma stateFaithful_start (roots : list string) (workingDir : string) :
  stateFaithful (Tree.start roots workingDir).
Proof.
  split; [constructor|]. intros i a stack H. unfold Tree.start in H. cbn in H.
  apply list_lookup_fmap_Some in H as (x & Heq & _).
  injection Heq as -> ->. constructor.
Qed.

Lemma stateFaithful_resume (i : nat) (st : Tree.State) :
  stateFaithful st -> stateFaithful (resume i st).
Proof.
  intros [Hres Htasks]. unfold Tree.resume.
  destruct (Tree.tasks st !! i) as [[[u c|u c v|v|e] stack| |]|] eqn:Hi;
    try (split; assumption).
  - (* after [resolve] *)
    pose proof (Htasks _ _ _ Hi) as Hstack.
    destruct (resolve resolver u c) as [v|e] eqn:Hr;
      [destruct (decide (v ∈ Tree.alreadyImported st))|];
      (split; [exact Hres|]); intros j a' stack' Hj; cbn in Hj;
      (apply lookup_insert_cases in Hj as [Hj|Hj]; [|eauto]);
      first [discriminate | injection Hj as -> ->; exact Hstack].
  - (* after [require] *)
    pose proof (Htasks _ _ _ Hi) as Hstack.
    destruct (require resolver u c) as [f|e] eqn:Hq.
    + destruct (Tree.continueLoop _ _ _ _ _) as [t res] eqn:Hc.
      destruct (continueLoop_running
                  {| uri := u; imports := []; node_url := url f;
                     node_source := source f; node_provider := provider f |}
                  (path_dirname path v) (findImports f) stack (Tree.result st))
        as (a & stack' & Ht).
      rewrite Hc in Ht. cbn in Ht. subst t.
      apply continueLoop_faithful in Hc as [Hstack' Hres']; try assumption.
      * split; [exact Hres'|]. intros j a' stack'' Hj. cbn in Hj.
        apply lookup_insert_cases in Hj as [Hj|Hj]; [|eauto].
        now injection Hj as -> ->.
      * assert (Hf : fileOf {| uri := u; imports := []; node_url := url f;
                               node_source := source f;
                               node_provider := provider f |} = f)
          by now destruct f.
        split; [exists c; cbn [uri]; now rewrite Hf|].
        rewrite Hf. reflexivity.
    + split; [exact Hres|]. intros j a' stack' Hj. cbn in Hj.
      apply lookup_insert_cases in Hj as [Hj|Hj]; [|eauto].
      now injection Hj as -> ->.
  - (* after a [dfs] has returned *)
    pose proof (Htasks _ _ _ Hi) as Hstack.
    destruct stack as [|fr stack].
    + split; [exact Hres|]. intros j a' stack' Hj. cbn in Hj.
      apply lookup_insert_cases in Hj as [Hj|Hj]; [discriminate|eauto].
    + apply Forall_cons in Hstack as [[Hfile Hedges] Hstack].
      destruct (Tree.continueLoop _ _ _ _ _) as [t res] eqn:Hc.
      destruct (continueLoop_running
                  (Tree.pushImport (Tree.fileNode fr)
                     {| edge_uri := Tree.importUri fr; edge_url := v |})
                  (Tree.resolvedCwd fr) (Tree.pending fr) stack (Tree.result st))
        as (a & stack' & Ht).
      rewrite Hc in Ht. cbn in Ht. subst t.
      apply continueLoop_faithful in Hc as [Hstack' Hres']; try assumption.
      * split; [exact Hres'|]. intros j a' stack'' Hj. cbn in Hj.
        apply lookup_insert_cases in Hj as [Hj|Hj]; [|eauto].
        now injection Hj as -> ->.
      * split; [exact Hfile|]. cbn [Tree.pushImport imports].
        rewrite map_app, <- app_assoc. exact Hedges.
  - (* after a [dfs] has thrown *)
    pose proof (Htasks _ _ _ Hi) as Hstack.
    destruct stack as [|fr stack]; (split; [exact Hres|]);
      intros j a' stack' Hj; cbn in Hj;
      (apply lookup_insert_cases in Hj as [Hj|Hj]; [|eauto]);
      [discriminate|].
    injection Hj as -> ->. now apply Forall_cons in Hstack as [_ Hstack].
Qed.

Lemma stateFaithful_run (s : list nat) (st : Tree.State) :
  stateFaithful st -> stateFaithful (run s st).
Proof.
  revert st; induction s as [|i s IH]; intros st H; [exact H|].
  apply IH, stateFaithful_resume, H.
Qed.

Lemma canonizeSource_no_edges_needed (n : ImportTreeNode) :
  nodeFaithful [] n ->
  occursIn "import" (node_source n) = false ->
  canonizeSource (imports n) (node_source n) = node_source n.
Proof.
  intros [_ Hedges] Hno. rewrite app_nil_r in Hedges.
  rewrite (findImports_without_word (fileOf n) Hno) in Hedges.
  apply map_eq_nil in Hedges. now rewrite Hedges.
Qed.

End NodeFacts.

(** X8: each node of the tree holds the file [require] returned for the
    reference the node was reached by, and its edges list the import
    literals [findImports] finds in that file: one edge per match, in the
    order of the text. *)
Theorem tree_nodes_list_their_imports
    (E : Type) (path : PathModule) (resolver : ResolverEngine E)
    (schedule : list nat) (roots : list string) (workingDir : string)
    (n : ImportTreeNode) :
  In n (Tree.result (Tree.run path resolver schedule
                       (Tree.start roots workingDir))) ->
  (exists cwd_, require resolver (uri n) cwd_ = Ok (fileOf n))
  /\ map edge_uri (imports n) = findImports (fileOf n).
Proof.
  intros Hn.
  destruct (stateFaithful_run path resolver schedule _
              (stateFaithful_start resolver roots workingDir)) as [Hres _].
  rewrite Forall_forall in Hres. apply list_elem_of_In, Hres in Hn.
  destruct Hn as [Hfile Hedges]. split; [exact Hfile|].
  now rewrite app_nil_r in Hedges.
Qed.

Lemma tree_nodes_list_their_imports_witness :
  (exists cwd_, require (fsResolver projectFiles) (uri bNode) cwd_
                = Ok (fileOf bNode))
  /\ map edge_uri (imports bNode) = findImports (fileOf bNode).
Proof.
  apply (tree_nodes_list_their_imports ResolverError node
           (fsResolver projectFiles) (repeat 0 12) ["a/b.sol"] "/w" bNode).
  vm_compute. right. right. left. reflexivity.
Defined.

(** X9: [gatherSourcesAndCanonizeImports] returns one record per node of
    the tree, in the same order and under the same locator and provider;
    the text of a file in which the word import does not occur is returned
    as it was fetched. *)
Theorem canonized_sources_follow_the_tree
    (E : Type) (path : PathModule) (resolver : ResolverEngine E)
    (schedule : list nat) (roots : list string) (workingDir : string)
    (out : list ImportFile) :
  Tree.gatherSourcesAndCanonizeImports path resolver schedule roots workingDir
    = Some (Ok out) ->
  exists nodes,
    Tree.gatherDepenencyTree path resolver schedule roots workingDir
      = Some (Ok nodes)
    /\ Forall2 (fun n o =>
                  url o = node_url n /\ provider o = node_provider n
                  /\ (occursIn "import" (node_source n) = false ->
                      source o = node_source n))
               nodes out.
Proof.
  unfold Tree.gatherSourcesAndCanonizeImports.
  destruct (Tree.gatherDepenencyTree path resolver schedule roots workingDir)
    as [[nodes|e]|] eqn:Hg; [|discriminate|discriminate].
  intros [= <-]. exists nodes. split; [reflexivity|].
  assert (Hall : Forall (Faithful.nodeFaithful resolver []) nodes).
  { unfold Tree.gatherDepenencyTree, Tree.settled in Hg.
    destruct (Tree.failure _); [discriminate|].
    destruct (forallb _ _); [|discriminate]. injection Hg as <-.
    apply (stateFaithful_run path resolver schedule _
             (stateFaithful_start resolver roots workingDir)). }
  clear Hg. induction Hall as [|n nodes Hn Hall IH]; cbn; constructor.
  - repeat split. intros Hno. now apply (canonizeSource_no_edges_needed resolver).
  - exact IH.
Qed.

Lemma canonized_sources_follow_the_tree_witness :
  exists nodes,
    Tree.gatherDepenencyTree node (fsResolver projectFiles) (repeat 0 12)
      ["a/b.sol"] "/w" = Some (Ok nodes)
    /\ Forall2 (fun n o =>
                  url o = node_url n /\ provider o = node_provider n
                  /\ (occursIn "import" (node_source n) = false ->
                      source o = node_source n))
               nodes
               [ {| url := "/w/a/c.sol"; source := "contract C {}";
                    provider := "fs" |};
                 {| url := "/w/a/pkg/d.sol"; source := "contract D {}";
                    provider := "fs" |};
                 {| url := "/w/a/b.sol";
                    source := imp "/w/a/c.sol" +:+ imp "/w/a/pkg/d.sol";
                    provider := "fs" |} ].
Proof.
  apply (canonized_sources_follow_the_tree ResolverError node
           (fsResolver projectFiles) (repeat 0 12) ["a/b.sol"] "/w").
  vm_compute. reflexivity.
Defined.

(** ** How often a file can be fetched *)

Section SumsGrow.
Context {A : Type}.

Lemma sum_insert_ge (f g : A -> nat) (l : list A) (i d : nat) (t t' : A) :
  l !! i = Some t -> (forall x, f x <= g x) -> f t + d <= g t' ->
  sum_list_with f l + d <= sum_list_with g (<[i := t']> l).
Proof.
  intros Hi Hle Ht. revert i Hi.
  induction l as [|x l IH]; intros [|i] Hi; simpl in *; try discriminate.
  - injection Hi as ->.
    assert (sum_list_with f l <= sum_list_with g l).
    { clear -Hle. induction l as [|y l IHl]; simpl; [lia|]. specialize (Hle y). lia. }
    lia.
  - specialize (IH _ Hi). specialize (Hle x). lia.
Qed.

Lemma sum_le_length (f : A -> nat) (l : list A) :
  (forall x, f x <= 1) -> sum_list_with f l <= length l.
Proof.
  intros Hf. induction l as [|x l IH]; cbn; [lia|]. specialize (Hf x). lia.
Qed.

Lemma sum_pointwise (f g : A -> nat) (l : list A) :
  (forall x, f x <= g x) -> sum_list_with f l <= sum_list_with g l.
Proof.
  intros Hle. induction l as [|x l IH]; cbn; [lia|]. specialize (Hle x). lia.
Qed.

End SumsGrow.

Section FetchCount.
Context {E : Type}.
Variable path : PathModule.
Variable resolver : ResolverEngine E.
Variable u : string.

#[local] Abbreviation resume := (Tree.resume path resolver).
#[local] Abbreviation run := (Tree.run path resolver).

Lemma charged_le_1 (seen : gset string) (t : @Tree.Task E) : charged u seen t <= 1.
Proof.
  destruct t as [[? ?|? ? ?|?|?] ?| |]; cbn; try destruct (decide _); lia.
Qed.

Lemma charged_grows (v : string) (seen : gset string) (t : @Tree.Task E) :
  charged u seen t <= charged u ({[ v ]} ∪ seen) t.
Proof.
  destruct t as [[? ?|? ? ?|?|?] ?| |]; cbn; repeat destruct (decide _);
    try lia; exfalso; set_solver.
Qed.

Lemma charged_continueLoop (n : ImportTreeNode) (d : string) (todo : list string)
    (stack : list Tree.LoopFrame) (res : list ImportTreeNode) (seen : gset string) :
  charged u seen (Tree.continueLoop (E:=E) n d todo stack res).1
  = if decide (u ∈ seen) then 1 else 0.
Proof. destruct todo; reflexivity. Qed.

Lemma fetchesOf_same (st st' : @Tree.State E) :
  Tree.fetched st' = Tree.fetched st -> fetchesOf u st' = fetchesOf u st.
Proof. unfold fetchesOf, fetchedUrls. now intros ->. Qed.

Lemma fetchesCharged_resume (i : nat) (st : Tree.State) :
  fetchesCharged u st -> fetchesCharged u (resume i st).
Proof.
  unfold fetchesCharged. intros H. unfold Tree.resume.
  destruct (Tree.tasks st !! i) as [[[r c|r c v|v|e] stack| |]|] eqn:Hi;
    try exact H.
  - (* after [resolve] *)
    destruct (resolve resolver r c) as [v|e] eqn:Hr;
      [destruct (decide (v ∈ Tree.alreadyImported st)) as [Hv|Hv]|].
    + rewrite (fetchesOf_same st) by reflexivity. cbn.
      etransitivity; [exact H|].
      rewrite <- (Nat.add_0_r (sum_list_with _ (Tree.tasks st))).
      eapply sum_insert_ge; [exact Hi|reflexivity|]. cbn. lia.
    + unfold fetchesOf, fetchedUrls in *. cbn.
      rewrite map_app, count_occ_app. cbn [map count_occ snd].
      destruct (string_dec v u) as [->|Hne].
      * etransitivity; [apply Nat.add_le_mono_r; exact H|].
        eapply sum_insert_ge; [exact Hi|reflexivity|]. cbn.
        repeat destruct (decide _); try lia; exfalso; tauto.
      * rewrite Nat.add_0_r. etransitivity; [exact H|].
        rewrite <- (Nat.add_0_r (sum_list_with _ (Tree.tasks st))).
        eapply sum_insert_ge; [exact Hi|reflexivity|]. cbn.
        repeat destruct (decide _); try lia; exfalso; tauto.
    + rewrite (fetchesOf_same st) by reflexivity. cbn.
      etransitivity; [exact H|].
      rewrite <- (Nat.add_0_r (sum_list_with _ (Tree.tasks st))).
      eapply sum_insert_ge; [exact Hi|reflexivity|]. cbn.
      destruct (decide _); lia.
  - (* after [require] *)
    destruct (require resolver r c) as [f|e] eqn:Hq.
    + destruct (Tree.continueLoop _ _ _ _ _) as [t res] eqn:Hc.
      rewrite (fetchesOf_same st) by reflexivity. cbn.
      etransitivity; [exact H|].
      rewrite <- (Nat.add_0_r (sum_list_with _ (Tree.tasks st))).
      eapply sum_insert_ge; [exact Hi|intros x; apply charged_grows|].
      pose proof (charged_continueLoop
                    {| uri := r; imports := []; node_url := url f;
                       node_source := source f; node_provider := provider f |}
                    (path_dirname path v) (findImports f) stack (Tree.result st)
                    ({[ v ]} ∪ Tree.alreadyImported st)) as Hch.
      rewrite Hc in Hch. cbn [fst] in Hch. rewrite Hch. cbn.
      repeat destruct (decide _); try lia; exfalso; set_solver.
    + rewrite (fetchesOf_same st) by reflexivity. cbn.
      etransitivity; [exact H|].
      rewrite <- (Nat.add_0_r (sum_list_with _ (Tree.tasks st))).
      eapply sum_insert_ge; [exact Hi|reflexivity|]. cbn.
      destruct (decide _); lia.
  - (* after a [dfs] has returned *)
    destruct stack as [|fr stack].
    + rewrite (fetchesOf_same st) by reflexivity. cbn.
      etransitivity; [exact H|].
      rewrite <- (Nat.add_0_r (sum_list_with _ (Tree.tasks st))).
      eapply sum_insert_ge; [exact Hi|reflexivity|]. cbn.
      destruct (decide _); lia.
    + destruct (Tree.continueLoop _ _ _ _ _) as [t res] eqn:Hc.
      rewrite (fetchesOf_same st) by reflexivity. cbn.
      etransitivity; [exact H|].
      rewrite <- (Nat.add_0_r (sum_list_with _ (Tree.tasks st))).
      eapply sum_insert_ge; [exact Hi|reflexivity|].
      pose proof (charged_continueLoop
                    (Tree.pushImport (Tree.fileNode fr)
                       {| edge_uri := Tree.importUri fr; edge_url := v |})
                    (Tree.resolvedCwd fr) (Tree.pending fr) stack (Tree.result st)
                    (Tree.alreadyImported st)) as Hch.
      rewrite Hc in Hch. cbn [fst] in Hch. rewrite Hch. cbn. lia.
  - (* after a [dfs] has thrown *)
    destruct stack as [|fr stack];
      rewrite (fetchesOf_same st) by reflexivity; cbn;
      (etransitivity; [exact H|]);
      rewrite <- (Nat.add_0_r (sum_list_with _ (Tree.tasks st)));
      (eapply sum_insert_ge; [exact Hi|reflexivity|]); cbn; lia.
Qed.

Lemma fetchesCharged_run (s : list nat) (st : Tree.State) :
  fetchesCharged u st -> fetchesCharged u (run s st).
Proof.
  revert st; induction s as [|i s IH]; intros st H; [exact H|].
  apply IH, fetchesCharged_resume, H.
Qed.

Lemma run_length (s : list nat) (st : Tree.State) :
  length (Tree.tasks (run s st)) = length (Tree.tasks st).
Proof.
  revert st; induction s as [|i s IH]; intros st; [reflexivity|].
  cbn [Tree.run fold_left]. fold (run s (resume i st)).
  now rewrite IH, resume_length.
Qed.

End FetchCount.

(** X10: whatever the order in which the resolver's promises settle, a
    locator is fetched at most once by the traversal of each root: [require]
    is called for it at most as many times as there are roots. *)
Theorem file_fetched_at_most_once_per_root
    (E : Type) (path : PathModule) (resolver : ResolverEngine E)
    (schedule : list nat) (roots : list string) (workingDir u : string) :
  count_occ string_dec
    (fetchedUrls (Tree.run path resolver schedule (Tree.start roots workingDir))) u
  <= length roots.
Proof.
  pose proof (fetchesCharged_run path resolver u schedule
                (Tree.start roots workingDir)) as H.
  unfold fetchesCharged, fetchesOf in H.
  etransitivity; [apply H; cbn; lia|].
  etransitivity; [apply sum_le_length, charged_le_1|].
  rewrite run_length. cbn. now rewrite length_map.
Qed.

(** ** Roots: none, one, or one that cannot be resolved *)

Section Roots.
Context {E : Type}.
Variable path : PathModule.
Variable resolver : ResolverEngine E.

#[local] Abbreviation resume := (Tree.resume path resolver).
#[local] Abbreviation run := (Tree.run path resolver).

Lemma run_no_task (s : list nat) (st : Tree.State) :
  Tree.tasks st = [] -> run s st = st.
Proof.
  intros Hst. induction s as [|i s IH]; [reflexivity|].
  rewrite run_cons, resume_out_of_range; [exact IH|]. rewrite Hst. cbn. lia.
Qed.

(** Once the call has settled, further turns change nothing of its outcome. *)
Lemma settled_stays (n k : nat) (st : Tree.State)
    (x : Result E (list ImportTreeNode)) :
  length (Tree.tasks st) = 1 ->
  Tree.settled (run (repeat 0 n) st) = Some x ->
  Tree.settled (run (repeat 0 (n + k)) st) = Some x.
Proof.
  intros Hone Hx. rewrite run_repeat_add.
  set (st' := run (repeat 0 n) st) in *.
  assert (Hlen : length (Tree.tasks st') = 1)
    by (unfold st'; now rewrite run_length).
  unfold Tree.settled in Hx.
  destruct (Tree.failure st') as [e|] eqn:Hf.
  - injection Hx as <-. apply settled_failure. now apply failure_run.
  - destruct (Tree.tasks st') as [|t [|t' l]] eqn:Ht; try discriminate.
    cbn in Hx. destruct t as [a stack|v|e]; try discriminate.
    rewrite (run_settled_root path resolver k st' v [] Ht).
    unfold Tree.settled. rewrite Hf, Ht. exact Hx.
Qed.

(** With one root, turns given to the settled call change nothing. *)
Lemma single_root_stable (s1 s2 : list nat) (root workingDir : string)
    (x : Result E (list ImportTreeNode)) :
  Tree.gatherDepenencyTree path resolver s1 [root] workingDir = Some x ->
  count_occ Nat.eq_dec s1 0 <= count_occ Nat.eq_dec s2 0 ->
  Tree.gatherDepenencyTree path resolver s2 [root] workingDir = Some x.
Proof.
  unfold Tree.gatherDepenencyTree.
  rewrite (run_single_root path resolver s1) by reflexivity.
  rewrite (run_single_root path resolver s2) by reflexivity.
  set (n1 := count_occ Nat.eq_dec s1 0). set (n2 := count_occ Nat.eq_dec s2 0).
  intros H1 Hle. apply (settled_stays n1 (n2 - n1)) in H1; [|reflexivity].
  now replace (n1 + (n2 - n1)) with n2 in H1 by lia.
Qed.

End Roots.

(** X11: when [resolve] rejects for one of the roots, the call never
    returns a list, in whatever order the promises settle. *)
Theorem unresolved_root_never_succeeds
    (E : Type) (path : PathModule) (resolver : ResolverEngine E)
    (schedule : list nat) (roots : list string) (workingDir : string)
    (i : nat) (root : string) (e : E) :
  roots !! i = Some root ->
  resolve resolver root workingDir = Err e ->
  (forall nodes,
      Tree.gatherDepenencyTree path resolver schedule roots workingDir
      <> Some (Ok nodes))
  /\ (forall out,
        Tree.gatherSourcesAndCanonizeImports path resolver schedule roots workingDir
        <> Some (Ok out)).
Proof.
  intros Hi Hr.
  assert (Hg : forall nodes,
             Tree.gatherDepenencyTree path resolver schedule roots workingDir
             <> Some (Ok nodes)).
  { intros nodes. unfold Tree.gatherDepenencyTree.
    destruct (doomed_run path resolver schedule i (Tree.start roots workingDir)
                (Tree.Running (Tree.AtResolve root workingDir) []))
      as (t & Ht & Hd).
    - cbn. rewrite list_lookup_fmap, Hi. reflexivity.
    - exists e. exact Hr.
    - now apply (doomed_never_settles_well resolver i _ t). }
  split; [exact Hg|]. intros out. unfold Tree.gatherSourcesAndCanonizeImports.
  destruct (Tree.gatherDepenencyTree path resolver schedule roots workingDir)
    as [[nodes|e']|] eqn:Hd; try discriminate. now destruct (Hg nodes).
Qed.

Lemma unresolved_root_never_succeeds_witness :
  (forall nodes,
      Tree.gatherDepenencyTree node (fsResolver cyclicFiles) [0; 1; 0; 0; 1; 0]
        ["a.sol"; "missing.sol"] "/w" <> Some (Ok nodes))
  /\ (forall out,
        Tree.gatherSourcesAndCanonizeImports node (fsResolver cyclicFiles)
          [0; 1; 0; 0; 1; 0] ["a.sol"; "missing.sol"] "/w" <> Some (Ok out)).
Proof.
  apply (unresolved_root_never_succeeds ResolverError node
           (fsResolver cyclicFiles) [0; 1; 0; 0; 1; 0] ["a.sol"; "missing.sol"]
           "/w" 1 "missing.sol" NotFound); reflexivity.
Defined.

(** X12: with a single root, the outcome of the call does not depend on
    the order in which the promises settle: once the call has settled, every
    schedule that gives the root at least as many turns settles with the
    same outcome, and no schedule settles with another one. *)
Theorem single_root_outcome_ignores_schedule
    (E : Type) (path : PathModule) (resolver : ResolverEngine E)
    (s1 s2 : list nat) (root workingDir : string)
    (x : Result E (list ImportTreeNode)) :
  Tree.gatherDepenencyTree path resolver s1 [root] workingDir = Some x ->
  (count_occ Nat.eq_dec s1 0 <= count_occ Nat.eq_dec s2 0 ->
   Tree.gatherDepenencyTree path resolver s2 [root] workingDir = Some x)
  /\ (forall y,
        Tree.gatherDepenencyTree path resolver s2 [root] workingDir = Some y ->
        y = x).
Proof.
  intros H1. split.
  - now apply single_root_stable.
  - intros y H2.
    destruct (Nat.le_ge_cases (count_occ Nat.eq_dec s1 0)
                (count_occ Nat.eq_dec s2 0)) as [Hle|Hle].
    + pose proof (single_root_stable path resolver s1 s2 root workingDir x H1 Hle).
      congruence.
    + pose proof (single_root_stable path resolver s2 s1 root workingDir y H2 Hle).
      congruence.
Qed.

Lemma single_root_outcome_ignores_schedule_witness :
  Tree.gatherDepenencyTree node (fsResolver cyclicFiles)
    [0; 3; 0; 0; 1; 0; 0; 0; 0; 0; 0; 2] ["a.sol"] "/w"
  = Some (Ok [ {| uri := "./b.sol";
                  imports := [ {| edge_uri := "./a.sol"; edge_url := "/w/a.sol" |} ];
                  node_url := "/w/b.sol"; node_source := imp "./a.sol";
                  node_provider := "fs" |};
               aNode ]).
Proof.
  refine (proj1 (single_root_outcome_ignores_schedule ResolverError node
                   (fsResolver cyclicFiles) (repeat 0 8)
                   [0; 3; 0; 0; 1; 0; 0; 0; 0; 0; 0; 2] "a.sol" "/w" _ _) _);
    vm_compute; [reflexivity|lia].
Defined.

(** X13: without roots nothing is asked of the resolver and each of the
    three traversals returns the empty list. *)
Theorem no_roots_no_sources
    (E : Type) (path : PathModule) (resolver : ResolverEngine E)
    (workingDir : string) :
  (forall schedule,
      Tree.gatherDepenencyTree path resolver schedule [] workingDir
        = Some (Ok [])
      /\ Tree.gatherSourcesAndCanonizeImports path resolver schedule []
           workingDir = Some (Ok [])
      /\ Tree.fetched (Tree.run path resolver schedule
                         (Tree.start [] workingDir)) = [])
  /\ (forall fuel,
        Flat.gatherSources path resolver fuel [] workingDir = Some (Ok [])).
Proof.
  split.
  - intros schedule.
    unfold Tree.gatherSourcesAndCanonizeImports, Tree.gatherDepenencyTree.
    rewrite (run_no_task path resolver schedule) by reflexivity.
    repeat split.
  - intros fuel. unfold Flat.gatherSources, Flat.run.
    now rewrite loop_empty_queue.
Qed.

(** ** The node of the root comes last *)

Section RootLast.
Context {E : Type}.
Variable path : PathModule.
Variable resolver : ResolverEngine E.
Variable root : string.

#[local] Abbreviation resume := (Tree.resume path resolver).
#[local] Abbreviation run := (Tree.run path resolver).

Lemma last_cons_default {A : Type} (a : A) (l : list A) (d : A) :
  List.last (a :: l) d = List.last l a.
Proof.
  revert a d. induction l as [|b l IH]; intros a d; [reflexivity|].
  change (List.last (a :: b :: l) d) with (List.last (b :: l) d).
  now rewrite !IH.
Qed.

Lemma rootLast_start (workingDir : string) :
  rootLast root (Tree.start (E:=E) [root] workingDir).
Proof. eexists. split; [reflexivity|]. cbn. auto. Qed.

Lemma rootLast_continueLoop (n : ImportTreeNode) (d : string) (todo : list string)
    (stack : list Tree.LoopFrame) (st st' : @Tree.State E) (t : Tree.Task)
    (res : list ImportTreeNode) :
  match stack with
  | [] => uri n = root
  | fr :: below => uri (Tree.fileNode (List.last below fr)) = root
  end ->
  Tree.continueLoop n d todo stack (Tree.result st) = (t, res) ->
  Tree.tasks st' = [t] -> Tree.result st' = res ->
  rootLast root st'.
Proof.
  intros Hroot Hc Ht Hres. exists t. split; [exact Ht|].
  destruct todo as [|x rest]; cbn in Hc; injection Hc as <- <-.
  - destruct stack as [|fr below]; [|exact Hroot].
    exists (Tree.result st), n. auto.
  - destruct stack as [|fr below]; [exact Hroot|].
    now rewrite last_cons_default.
Qed.

Lemma rootLast_resume (i : nat) (st : Tree.State) :
  rootLast root st -> rootLast root (resume i st).
Proof.
  intros (t & Ht & H). destruct i as [|i].
  2:{ rewrite resume_out_of_range; [now exists t|]. rewrite Ht. cbn. lia. }
  unfold Tree.resume. rewrite Ht. cbn [lookup list_lookup].
  destruct t as [[r c|r c v|v|e] stack|v|e].
  - (* after [resolve] *)
    destruct (resolve resolver r c) as [v|e] eqn:Hr.
    + destruct (decide (v ∈ Tree.alreadyImported st)) as [Hv|Hv].
      * eexists. split; [cbn; rewrite ?Ht; reflexivity|].
        destruct stack as [|fr below]; [|exact H].
        destruct H as [_ Hempty]. rewrite Hempty in Hv. set_solver.
      * eexists. split; [cbn; rewrite ?Ht; reflexivity|].
        destruct stack as [|fr below]; [|exact H]. now destruct H.
    + eexists. split; [cbn; rewrite ?Ht; reflexivity|exact I].
  - (* after [require] *)
    destruct (require resolver r c) as [f|e] eqn:Hq.
    + destruct (Tree.continueLoop _ _ _ _ _) as [t res] eqn:Hc.
      eapply rootLast_continueLoop; [|exact Hc| |reflexivity].
      * destruct stack as [|fr below]; exact H.
      * cbn. now rewrite ?Ht.
    + eexists. split; [cbn; rewrite ?Ht; reflexivity|exact I].
  - (* after a [dfs] has returned *)
    destruct stack as [|fr below].
    + eexists. split; [cbn; rewrite ?Ht; reflexivity|exact H].
    + destruct (Tree.continueLoop _ _ _ _ _) as [t res] eqn:Hc.
      eapply rootLast_continueLoop; [|exact Hc| |reflexivity].
      * destruct below as [|g below']; [exact H|].
        now rewrite <- (last_cons_default g below' fr).
      * cbn. now rewrite ?Ht.
  - (* after a [dfs] has thrown *)
    destruct stack as [|fr below];
      (eexists; split; [cbn; rewrite ?Ht; reflexivity|exact I]).
  - exists (Tree.Fulfilled v). auto.
  - exists (Tree.Rejected e). auto.
Qed.

Lemma rootLast_run (s : list nat) (st : Tree.State) :
  rootLast root st -> rootLast root (run s st).
Proof.
  revert st; induction s as [|i s IH]; intros st H; [exact H|].
  apply IH, rootLast_resume, H.
Qed.

End RootLast.

(** X14: with a single root, the list the call returns ends with the node
    of the root: every file the root pulls in stands before it. *)
Theorem single_root_node_comes_last
    (E : Type) (path : PathModule) (resolver : ResolverEngine E)
    (schedule : list nat) (root workingDir : string)
    (nodes : list ImportTreeNode) :
  Tree.gatherDepenencyTree path resolver schedule [root] workingDir
    = Some (Ok nodes) ->
  exists before n, nodes = before ++ [n] /\ uri n = root.
Proof.
  unfold Tree.gatherDepenencyTree, Tree.settled.
  destruct (rootLast_run path resolver root schedule _
              (rootLast_start root workingDir)) as (t & Ht & H).
  destruct (Tree.failure _); [discriminate|]. rewrite Ht. cbn.
  destruct t as [a stack|v|e]; try discriminate. intros [= <-]. exact H.
Qed.

Lemma single_root_node_comes_last_witness :
  exists before n,
    [ {| uri := "./c.sol"; imports := []; node_url := "/w/a/c.sol";
         node_source := "contract C {}"; node_provider := "fs" |};
      {| uri := "pkg/d.sol"; imports := []; node_url := "/w/a/pkg/d.sol";
         node_source := "contract D {}"; node_provider := "fs" |};
      bNode ] = before ++ [n]
    /\ uri n = "a/b.sol".
Proof.
  apply (single_root_node_comes_last ResolverError node
           (fsResolver projectFiles) (repeat 0 12) "a/b.sol" "/w").
  vm_compute. reflexivity.
Defined.

(** ** The queue of [gatherSources] *)

Section FlatQueue.
Context {E : Type}.
Variable path : PathModule.
Variable resolver : ResolverEngine E.

(** New entries go to the end of the queue. *)
Lemma visitImports_extends (fileParentDir relativePath : string)
    (found : list string) :
  forall i queue seen,
    exists new,
      (Flat.visitImports path fileParentDir relativePath i found (queue, seen)).1
      = queue ++ new.
Proof.
  induction found as [|x found IH]; intros i queue seen; cbn [Flat.visitImports].
  - exists []. now rewrite app_nil_r.
  - unfold Flat.visitImport at 1. cbn [fst snd].
    destruct (decide _) as [Hin|Hin].
    + apply IH.
    + destruct (IH (S i) (queue ++ [ {| Flat.cwd := fileParentDir; Flat.file := x;
                                        Flat.relativeTo :=
                                          path_dirname path relativePath |} ])
                  ({[ Flat.importName path relativePath i x ]} ∪ seen))
        as [new Hnew].
      eexists. rewrite Hnew, <- app_assoc. reflexivity.
Qed.

(** Files are emitted in the order in which they were queued. *)
Lemma loop_emits_queue_first (fuel : nat) :
  forall st st',
    Flat.loop path resolver fuel st = Some (Ok st') ->
    exists more,
      map url (Flat.result st')
      = map url (Flat.result st)
        ++ map (Flat.relativePathOf path) (Flat.queue st) ++ more.
Proof.
  induction fuel as [|fuel IH]; intros st st'; cbn [Flat.loop];
    destruct (Flat.queue st) as [|fileData rest] eqn:Hq.
  - intros [= <-]. exists []. now rewrite app_nil_r.
  - discriminate.
  - intros [= <-]. exists []. now rewrite app_nil_r.
  - unfold Flat.iteration. cbn [Flat.result Flat.queue Flat.alreadyImported].
    destruct (require resolver (Flat.file fileData) (Flat.cwd fileData))
      as [f|e]; [|discriminate].
    destruct (visitImports_extends (path_dirname path (url f))
                (Flat.relativePathOf path fileData) (findImports f) 0 rest
                (Flat.alreadyImported st)) as [new Hnew].
    destruct (Flat.visitImports _ _ _ _ _ _) as [queue' seen']. cbn [fst] in Hnew.
    subst queue'. intros Hloop. apply IH in Hloop as [more Hmore].
    cbn [Flat.result Flat.queue] in Hmore.
    exists (map (Flat.relativePathOf path) new ++ more).
    rewrite Hmore, !map_app, <- !app_assoc. reflexivity.
Qed.

Section Bound.
Variable literals : list string.
Hypothesis imports_in_literals :
  forall uri_ cwd_ f l,
    require resolver uri_ cwd_ = Ok f -> In l (findImports f) -> In l literals.

#[local] Abbreviation unvisited := (Measure.unvisited literals).

Lemma visitImports_measure (fileParentDir relativePath : string)
    (found : list string) :
  (forall l, In l found -> In l literals) ->
  forall i queue seen,
    let acc :=
      Flat.visitImports path fileParentDir relativePath i found (queue, seen) in
    length acc.1 + unvisited acc.2 <= length queue + unvisited seen.
Proof.
  induction found as [|x found IH]; intros Hfound i queue seen;
    cbn [Flat.visitImports]; [cbn; lia|].
  cbv zeta. unfold Flat.visitImport. cbn [fst snd].
  rewrite !importName_found.
  assert (Hrest : forall l, In l found -> In l literals)
    by (intros l Hl; apply Hfound; now right).
  destruct (decide _) as [Hin|Hin].
  - apply (IH Hrest).
  - etransitivity; [apply (IH Hrest)|]. rewrite length_app. cbn [length].
    assert (unvisited ({[ x ]} ∪ seen) < unvisited seen).
    { apply unvisited_add_lt; [|exact Hin].
      apply list_elem_of_In, Hfound. now left. }
    lia.
Qed.

Lemma loop_ends (fuel : nat) :
  forall st,
    length (Flat.queue st) + unvisited (Flat.alreadyImported st) <= fuel ->
    exists r,
      Flat.loop path resolver fuel st = Some r
      /\ forall st', r = Ok st' ->
           length (Flat.result st')
           <= length (Flat.result st) + length (Flat.queue st)
              + unvisited (Flat.alreadyImported st).
Proof.
  induction fuel as [|fuel IH]; intros st Hfuel; cbn [Flat.loop];
    destruct (Flat.queue st) as [|fileData rest] eqn:Hq.
  - eexists. split; [reflexivity|]. intros st' [= <-]. lia.
  - cbn in Hfuel. lia.
  - eexists. split; [reflexivity|]. intros st' [= <-]. lia.
  - unfold Flat.iteration. cbn [Flat.result Flat.queue Flat.alreadyImported].
    destruct (require resolver (Flat.file fileData) (Flat.cwd fileData))
      as [f|e] eqn:Hf.
    2:{ eexists. split; [reflexivity|]. intros st' [=]. }
    pose proof (visitImports_measure (path_dirname path (url f))
                  (Flat.relativePathOf path fileData) (findImports f)
                  (fun l => imports_in_literals _ _ f l Hf) 0 rest
                  (Flat.alreadyImported st)) as Hm.
    cbv zeta in Hm.
    destruct (Flat.visitImports _ _ _ _ _ _) as [queue' seen'].
    cbn [fst snd] in Hm. cbn [length] in Hfuel.
    destruct (IH {| Flat.result := Flat.result st
                      ++ [ {| url := Flat.relativePathOf path fileData;
                              source := source f; provider := provider f |} ];
                    Flat.queue := queue'; Flat.alreadyImported := seen' |})
      as (r & Hr & Hbound).
    { cbn [Flat.queue Flat.alreadyImported]. lia. }
    exists r. split; [exact Hr|]. intros st' Hst'.
    specialize (Hbound st' Hst').
    cbn [Flat.result Flat.queue Flat.alreadyImported] in Hbound.
    rewrite length_app in Hbound. cbn [length] in *. lia.
Qed.

Lemma unvisited_le (seen : gset string) : unvisited seen <= length literals.
Proof. unfold Measure.unvisited. apply length_filter. Qed.

Lemma gatherSources_ends (fuel : nat) (roots : list string) (workingDir : string) :
  length roots + length literals <= fuel ->
  exists r,
    Flat.gatherSources path resolver fuel roots workingDir = Some r
    /\ forall out, r = Ok out -> length out <= length roots + length literals.
Proof.
  intros Hfuel. unfold Flat.gatherSources, Flat.run.
  pose proof (unvisited_le (Flat.alreadyImported
                              (Flat.start path roots workingDir))) as Hu.
  destruct (loop_ends fuel (Flat.start path roots workingDir))
    as (r & -> & Hbound).
  { cbn [Flat.start Flat.queue]. rewrite !length_map. lia. }
  destruct r as [st'|e].
  - eexists. split; [reflexivity|]. intros out [= <-].
    specialize (Hbound st' eq_refl).
    cbn [Flat.start Flat.queue Flat.result length] in Hbound.
    rewrite !length_map in Hbound. lia.
  - eexists. split; [reflexivity|]. intros out [=].
Qed.

End Bound.
End FlatQueue.

Lemma lookupFile_In (files : list (string * string)) (p text : string) :
  lookupFile files p = Some text -> In (p, text) files.
Proof.
  induction files as [|[name t] files IH]; cbn [lookupFile]; [discriminate|].
  destruct (name =? p) eqn:Hn.
  - apply String.eqb_eq in Hn as ->. intros [= ->]. now left.
  - intros H. right. now apply IH.
Qed.

Lemma fsResolver_source (files : list (string * string)) (uri_ cwd_ : string)
    (f : ImportFile) :
  require (fsResolver files) uri_ cwd_ = Ok f -> In (url f, source f) files.
Proof.
  cbn [require fsResolver].
  destruct (lookupFile files (fsLocate uri_ cwd_)) as [text|] eqn:Hl;
    [|discriminate].
  intros [= <-]. cbn [url source]. now apply lookupFile_In.
Qed.

Section AbsoluteRoots.

Lemma resolve_gives_absolute (pcwd a b : string) :
  Posix.isAbsolute pcwd = true ->
  exists p, Posix.resolve pcwd a b = String "/" p.
Proof.
  intros Habs. unfold Posix.resolve. cbv zeta.
  assert (Hne : (pcwd =? "") = false) by now destruct pcwd.
  destruct (b =? ""), (a =? ""), (Posix.isAbsolute b), (Posix.isAbsolute a);
    cbn [fst snd]; rewrite ?Hne, ?Habs; cbn [fst snd]; eexists; reflexivity.
Qed.

Lemma absolute_not_dot (p : string) : JS.firstIsDot (String "/" p) = false.
Proof. reflexivity. Qed.

End AbsoluteRoots.

(** X15: [gatherSources] ends even when files import each other: when the
    import literals of the files the resolver returns all come from a
    finite list, the loop makes at most as many turns as there are roots
    and literals, and returns at most that many records. *)
Theorem gatherSources_ends_within_roots_and_literals
    (E : Type) (path : PathModule) (resolver : ResolverEngine E)
    (literals roots : list string) (workingDir : string) (fuel : nat) :
  (forall uri_ cwd_ f l,
      require resolver uri_ cwd_ = Ok f -> In l (findImports f) -> In l literals) ->
  length roots + length literals <= fuel ->
  exists r,
    Flat.gatherSources path resolver fuel roots workingDir = Some r
    /\ forall out, r = Ok out -> length out <= length roots + length literals.
Proof.
  intros Hlit Hfuel. now apply gatherSources_ends.
Qed.

Lemma gatherSources_ends_within_roots_and_literals_witness :
  exists r,
    Flat.gatherSources node (fsResolver cyclicFiles) 3 ["a.sol"] "/w" = Some r
    /\ forall out, r = Ok out -> length out <= 1 + 2.
Proof.
  apply (gatherSources_ends_within_roots_and_literals ResolverError node
           (fsResolver cyclicFiles) ["./b.sol"; "./a.sol"] ["a.sol"] "/w" 3);
    [|cbn; lia].
  intros uri_ cwd_ f l Hf Hl. apply fsResolver_source in Hf.
  unfold findImports in Hl.
  destruct Hf as [Hf|[Hf|[]]]; injection Hf as _ Hs; rewrite <- Hs in Hl;
    vm_compute in Hl; destruct Hl as [<-|[]]; cbn; auto.
Defined.

(** X16: [gatherSources] emits the files in the order in which they were
    queued; its output starts with the roots, in the order given and each
    under its absolute path, whether or not a root is given twice. *)
Theorem gatherSources_emits_roots_first
    (E : Type) (resolver : ResolverEngine E) (pcwd : string)
    (fuel : nat) (roots : list string) (workingDir : string)
    (out : list ImportFile) :
  Posix.isAbsolute pcwd = true ->
  Flat.gatherSources (Posix.path pcwd) resolver fuel roots workingDir
    = Some (Ok out) ->
  exists more,
    map url out = map (Posix.resolve pcwd workingDir) roots ++ more.
Proof.
  intros Habs. unfold Flat.gatherSources, Flat.run.
  destruct (Flat.loop _ _ _ _) as [[st'|e]|] eqn:Hloop; try discriminate.
  intros [= <-]. apply loop_emits_queue_first in Hloop as [more Hmore].
  exists more. rewrite Hmore. cbn [Flat.start Flat.result Flat.queue map app].
  f_equal. rewrite !map_map. apply map_ext. intros root.
  unfold Flat.relativePathOf. cbn [Flat.file Posix.path path_resolve].
  destruct (resolve_gives_absolute pcwd workingDir root Habs) as [p ->].
  reflexivity.
Qed.

Lemma gatherSources_emits_roots_first_witness :
  exists more,
    map url [ {| url := "/w/b.sol"; source := imp "./a.sol"; provider := "fs" |};
              {| url := "/w/b.sol"; source := imp "./a.sol"; provider := "fs" |};
              {| url := "/w/a.sol"; source := imp "./b.sol"; provider := "fs" |};
              {| url := "/w/b.sol"; source := imp "./a.sol"; provider := "fs" |} ]
    = map (Posix.resolve "/home" "/w") ["b.sol"; "./b.sol"] ++ more.
Proof.
  apply (gatherSources_emits_roots_first ResolverError (fsResolver cyclicFiles)
           "/home" 4 ["b.sol"; "./b.sol"] "/w"); vm_compute; reflexivity.
Defined.

(** ** What the traversal asks of the resolver *)

Section CallFacts.
Context {E : Type}.
Variable path : PathModule.
Variable resolver : ResolverEngine E.
Variable roots : list string.
Variable workingDir : string.

#[local] Abbreviation resume := (Tree.resume path resolver).
#[local] Abbreviation run := (Tree.run path resolver).
#[local] Abbreviation importedBy := (Calls.importedBy path resolver).
#[local] Abbreviation callOk := (Calls.callOk path resolver roots workingDir).
#[local] Abbreviation frameOk := (Calls.frameOk path resolver).
#[local] Abbreviation calledFor := (Calls.calledFor roots workingDir).
#[local] Abbreviation callsTaskOk := (Calls.taskOk path resolver roots workingDir).
#[local] Abbreviation callsOk := (Calls.stateOk path resolver roots workingDir).

Lemma importedBy_more (log more : list (string * string * string))
    (x d : string) :
  importedBy log x d -> importedBy (log ++ more) x d.
Proof.
  intros (uri_ & cwd_ & u & f & Hin & H). exists uri_, cwd_, u, f.
  split; [apply in_or_app; now left|exact H].
Qed.

Lemma callOk_more (log more : list (string * string * string))
    (uri_ cwd_ : string) :
  callOk log uri_ cwd_ -> callOk (log ++ more) uri_ cwd_.
Proof. intros [H|H]; [now left|right; now apply importedBy_more]. Qed.

Lemma frames_more (log more : list (string * string * string))
    (stack : list Tree.LoopFrame) :
  Forall (frameOk log) stack -> Forall (frameOk (log ++ more)) stack.
Proof.
  intros H. eapply Forall_impl; [exact H|].
  intros fr Hfr x Hx. apply importedBy_more, Hfr, Hx.
Qed.

Lemma callsTaskOk_more (log more : list (string * string * string))
    (t : @Tree.Task E) :
  callsTaskOk log t -> callsTaskOk (log ++ more) t.
Proof.
  destruct t as [a stack| |]; cbn; auto. intros [Hstack Ha].
  split; [now apply frames_more|].
  destruct a as [? ?|? ? ?|?|?]; auto. destruct Ha as [Hc Hin].
  split; [exact Hc|]. apply in_or_app. now left.
Qed.

Lemma continueLoop_calls (log : list (string * string * string))
    (n : ImportTreeNode) (d : string) (todo : list string)
    (stack : list Tree.LoopFrame) (res : list ImportTreeNode) :
  (forall y, In y todo -> importedBy log y d) ->
  Forall (frameOk log) stack ->
  callsTaskOk log (Tree.continueLoop (E:=E) n d todo stack res).1.
Proof.
  intros Htodo Hstack. destruct todo as [|x rest]; cbn.
  - split; [exact Hstack|exact I].
  - split; [|split; reflexivity]. constructor; [|exact Hstack].
    intros y Hy. apply Htodo, Hy.
Qed.

Lemma callsOk_start : callsOk (Tree.start roots workingDir).
Proof.
  split; [intros ? ? ? []|]. intros i t H. unfold Tree.start in H. cbn in H.
  apply list_lookup_fmap_Some in H as (x & -> & Hx). cbn.
  split; [constructor|]. split; [|reflexivity].
  apply list_elem_of_In. eapply list_elem_of_lookup_2, Hx.
Qed.

Lemma callsOk_resume (i : nat) (st : Tree.State) :
  callsOk st -> callsOk (resume i st).
Proof.
  intros [Hlog Htasks]. unfold Tree.resume.
  destruct (Tree.tasks st !! i) as [[[r c|r c v|v|e] stack| |]|] eqn:Hi;
    try (split; assumption).
  - (* after [resolve] *)
    destruct (Htasks _ _ Hi) as [Hstack Hcall].
    destruct (resolve resolver r c) as [v|e] eqn:Hr;
      [destruct (decide (v ∈ Tree.alreadyImported st))|].
    + split; [exact Hlog|]. intros j t Hj. cbn in Hj.
      apply lookup_insert_cases in Hj as [->|Hj]; [|eauto].
      split; [exact Hstack|exact I].
    + assert (Hnew : callOk (Tree.fetched st ++ [(r, c, v)]) r c).
      { apply callOk_more. destruct stack as [|fr below]; [now left|].
        destruct Hcall as [-> ->]. right.
        apply Forall_cons in Hstack as [Hfr _]. apply Hfr. now left. }
      split.
      * intros uri_ cwd_ u Hin. cbn in Hin.
        apply in_app_or in Hin as [Hin|[[= <- <- <-]|[]]].
        -- destruct (Hlog _ _ _ Hin) as [Hres Hc]. split; [exact Hres|].
           now apply callOk_more.
        -- split; [exact Hr|exact Hnew].
      * intros j t Hj. cbn in Hj.
        apply lookup_insert_cases in Hj as [->|Hj].
        -- split; [now apply frames_more|]. split; [exact Hcall|].
           apply in_or_app. right. now left.
        -- apply callsTaskOk_more. eauto.
    + split; [exact Hlog|]. intros j t Hj. cbn in Hj.
      apply lookup_insert_cases in Hj as [->|Hj]; [|eauto].
      split; [exact Hstack|exact I].
  - (* after [require] *)
    destruct (Htasks _ _ Hi) as (Hstack & Hcall & Hin).
    destruct (require resolver r c) as [f|e] eqn:Hq.
    + destruct (Tree.continueLoop _ _ _ _ _) as [t res] eqn:Hc.
      split; [exact Hlog|]. intros j t' Hj. cbn in Hj.
      apply lookup_insert_cases in Hj as [->|Hj]; [|eauto].
      replace t with (t, res).1 by reflexivity. rewrite <- Hc.
      apply continueLoop_calls; [|exact Hstack].
      intros y Hy. exists r, c, v, f. auto.
    + split; [exact Hlog|]. intros j t Hj. cbn in Hj.
      apply lookup_insert_cases in Hj as [->|Hj]; [|eauto].
      split; [exact Hstack|exact I].
  - (* after a [dfs] has returned *)
    destruct (Htasks _ _ Hi) as [Hstack _].
    destruct stack as [|fr below].
    + split; [exact Hlog|]. intros j t Hj. cbn in Hj.
      apply lookup_insert_cases in Hj as [->|Hj]; [exact I|eauto].
    + apply Forall_cons in Hstack as [Hfr Hbelow].
      destruct (Tree.continueLoop _ _ _ _ _) as [t res] eqn:Hc.
      split; [exact Hlog|]. intros j t' Hj. cbn in Hj.
      apply lookup_insert_cases in Hj as [->|Hj]; [|eauto].
      replace t with (t, res).1 by reflexivity. rewrite <- Hc.
      apply continueLoop_calls; [|exact Hbelow].
      intros y Hy. apply Hfr. now right.
  - (* after a [dfs] has thrown *)
    destruct (Htasks _ _ Hi) as [Hstack _].
    destruct stack as [|fr below]; (split; [exact Hlog|]); intros j t Hj;
      cbn in Hj; (apply lookup_insert_cases in Hj as [->|Hj]; [|eauto]);
      [exact I|].
    apply Forall_cons in Hstack as [_ Hbelow]. split; [exact Hbelow|exact I].
Qed.

Lemma callsOk_run (s : list nat) (st : Tree.State) :
  callsOk st -> callsOk (run s st).
Proof.
  revert st; induction s as [|i s IH]; intros st H; [exact H|].
  apply IH, callsOk_resume, H.
Qed.

End CallFacts.

(** X17: [require] is only called for a reference [resolve] has accepted,
    with the same two arguments; the reference is a root searched from the
    working directory, or an import literal of a file fetched before,
    searched from the directory of the locator that file was resolved to. *)
Theorem require_called_for_roots_and_imports
    (E : Type) (path : PathModule) (resolver : ResolverEngine E)
    (schedule : list nat) (roots : list string) (workingDir : string)
    (uri_ cwd_ u : string) :
  let log := Tree.fetched (Tree.run path resolver schedule
                             (Tree.start roots workingDir)) in
  In (uri_, cwd_, u) log ->
  resolve resolver uri_ cwd_ = Ok u
  /\ ((In uri_ roots /\ cwd_ = workingDir)
      \/ exists uri' cwd' u' f,
           In (uri', cwd', u') log /\ require resolver uri' cwd' = Ok f
           /\ In uri_ (findImports f) /\ cwd_ = path_dirname path u').
Proof.
  intros log Hin.
  destruct (callsOk_run path resolver roots workingDir schedule _
              (callsOk_start path resolver roots workingDir)) as [Hlog _].
  exact (Hlog _ _ _ Hin).
Qed.

Lemma require_called_for_roots_and_imports_witness :
  resolve (fsResolver projectFiles) "pkg/d.sol" "/w/a" = Ok "/w/a/pkg/d.sol"
  /\ ((In "pkg/d.sol" ["a/b.sol"] /\ "/w/a" = "/w")
      \/ exists uri' cwd' u' f,
           In (uri', cwd', u')
             (Tree.fetched (Tree.run node (fsResolver projectFiles) (repeat 0 12)
                              (Tree.start ["a/b.sol"] "/w")))
           /\ require (fsResolver projectFiles) uri' cwd' = Ok f
           /\ In "pkg/d.sol" (findImports f)
           /\ "/w/a" = path_dirname node u').
Proof.
  apply (require_called_for_roots_and_imports ResolverError node
           (fsResolver projectFiles) (repeat 0 12) ["a/b.sol"] "/w"
           "pkg/d.sol" "/w/a" "/w/a/pkg/d.sol").
  vm_compute. right. right. left. reflexivity.
Defined.

(** ** Roots traversed one after the other *)

Section InTurn.
Context {E : Type}.
Variable path : PathModule.
Variable resolver : ResolverEngine E.

#[local] Abbreviation resume := (Tree.resume path resolver).
#[local] Abbreviation run := (Tree.run path resolver).

Lemma failure_none_before (i : nat) (st : Tree.State) :
  Tree.failure (resume i st) = None -> Tree.failure st = None.
Proof.
  destruct (Tree.failure st) as [e|] eqn:Hf; [|reflexivity].
  now rewrite (failure_resume path resolver i st e Hf).
Qed.

Lemma fetchedInTurn_later (k i : nat) (st : @Tree.State E) :
  k < i -> fetchedInTurn k st -> fetchedInTurn i st.
Proof.
  intros Hki Hinv Hfail Hprev.
  destruct (Hinv Hfail) as [Hnd Hin].
  { intros j t Hj. apply Hprev. lia. }
  split; [exact Hnd|]. intros u Hu. left.
  destruct (Hin u Hu) as [H|[(e & stack & H)|(r & c & stack & H)]];
    [exact H| |]; now specialize (Hprev k _ Hki H).
Qed.

Lemma fetchedInTurn_resume (k : nat) (st : Tree.State) :
  fetchedInTurn k st -> fetchedInTurn k (resume k st).
Proof.
  intros Hinv Hfail' Hprev'.
  pose proof (failure_none_before k st Hfail') as Hfail.
  destruct (Hinv Hfail) as [Hnd Hin].
  { intros j t Hj Ht. apply (Hprev' j t Hj).
    rewrite resume_other by lia. exact Ht. }
  clear Hinv Hprev'. revert Hfail'. unfold Tree.resume.
  destruct (Tree.tasks st !! k) as [[[r c|r c v|v|e] stack| |]|] eqn:Hk;
    try (intros _; split; [exact Hnd|]; intros u Hu;
         destruct (Hin u Hu) as [H|[(? & ? & H)|(? & ? & ? & H)]];
         [now left|discriminate|discriminate]).
  - (* after [resolve]: every fetched locator is in [alreadyImported] *)
    assert (Hseen : forall w, w ∈ fetchedUrls st -> w ∈ Tree.alreadyImported st).
    { intros w Hw. destruct (Hin w Hw) as [H|[(? & ? & H)|(? & ? & ? & H)]];
        [exact H|discriminate|discriminate]. }
    destruct (resolve resolver r c) as [v|e] eqn:Hr.
    + destruct (decide (v ∈ Tree.alreadyImported st)) as [Hv|Hv]; intros _.
      * split; [exact Hnd|]. intros u Hu. left. now apply Hseen.
      * unfold fetchedUrls. cbn. rewrite map_app. cbn. split.
        -- apply NoDup_app. split; [exact Hnd|]. split; [|apply NoDup_singleton].
           intros w Hw Hw'. apply list_elem_of_singleton in Hw' as ->. auto.
        -- intros w Hw. apply elem_of_app in Hw as [Hw|Hw]; [left; auto|].
           apply list_elem_of_singleton in Hw as ->. right. right.
           exists r, c, stack. apply list_lookup_insert_eq.
           now apply lookup_lt_Some in Hk.
    + intros _. split; [exact Hnd|]. intros u Hu. left. now apply Hseen.
  - (* after [require]: the pending locator is added *)
    destruct (require resolver r c) as [f|e] eqn:Hq.
    + destruct (Tree.continueLoop _ _ _ _ _) as [t' res]. intros _.
      split; [exact Hnd|]. intros w Hw. left. cbn.
      destruct (Hin w Hw) as [H|[(? & ? & H)|(a & b & s & H)]];
        [set_solver|discriminate|].
      injection H as _ _ -> _. set_solver.
    + intros _. split; [exact Hnd|]. intros w Hw. right. left.
      exists e, stack. cbn. apply list_lookup_insert_eq.
      now apply lookup_lt_Some in Hk.
  - (* after a [dfs] has returned *)
    assert (Hseen : forall w, w ∈ fetchedUrls st -> w ∈ Tree.alreadyImported st).
    { intros w Hw. destruct (Hin w Hw) as [H|[(? & ? & H)|(? & ? & ? & H)]];
        [exact H|discriminate|discriminate]. }
    destruct stack as [|fr stack]; [|destruct (Tree.continueLoop _ _ _ _ _)];
      intros _; (split; [exact Hnd|]); intros w Hw; left; now apply Hseen.
  - (* after a [dfs] has thrown *)
    destruct stack as [|fr stack].
    + cbn. rewrite Hfail. discriminate.
    + intros _. split; [exact Hnd|]. intros w Hw. right. left.
      exists e, stack. cbn. apply list_lookup_insert_eq.
      now apply lookup_lt_Some in Hk.
Qed.

Lemma fetchedInTurn_run (schedule : list nat) :
  forall k st,
    rootByRoot k schedule -> fetchedInTurn k st ->
    exists k', fetchedInTurn k' (run schedule st).
Proof.
  induction schedule as [|i s IH]; intros k st Hs Hinv; [now exists k|].
  destruct Hs as [Hki Hs]. rewrite run_cons. apply (IH i); [exact Hs|].
  apply fetchedInTurn_resume.
  destruct (decide (k = i)) as [<-|Hne]; [exact Hinv|].
  apply (fetchedInTurn_later k); [lia|exact Hinv].
Qed.

End InTurn.

(** X18: when the roots are traversed one after the other (no root is
    resumed once a later one has started) and the call returns a list, no
    locator was fetched twice. *)
Theorem roots_in_turn_fetch_once
    (E : Type) (path : PathModule) (resolver : ResolverEngine E)
    (schedule : list nat) (roots : list string) (workingDir : string)
    (nodes : list ImportTreeNode) :
  rootByRoot 0 schedule ->
  Tree.gatherDepenencyTree path resolver schedule roots workingDir
    = Some (Ok nodes) ->
  NoDup (fetchedUrls (Tree.run path resolver schedule
                        (Tree.start roots workingDir))).
Proof.
  intros Hs Hg.
  destruct (fetchedInTurn_run path resolver schedule 0
              (Tree.start roots workingDir) Hs) as [k Hk].
  { intros _ _. split; [constructor|]. intros u Hu. inversion Hu. }
  unfold Tree.gatherDepenencyTree, Tree.settled in Hg.
  destruct (Tree.failure _) eqn:Hf; [discriminate|].
  destruct (forallb _ _) eqn:Hall; [|discriminate].
  apply Hk; [exact Hf|]. intros j t _ Hj.
  rewrite forallb_forall in Hall. apply Hall.
  apply list_elem_of_In. eapply list_elem_of_lookup_2, Hj.
Qed.

Lemma roots_in_turn_fetch_once_witness :
  NoDup (fetchedUrls (Tree.run node (fsResolver sharedFiles) oneAfterTheOther
                        (Tree.start ["a.sol"; "b.sol"] "/w"))).
Proof.
  apply (roots_in_turn_fetch_once ResolverError node (fsResolver sharedFiles)
           oneAfterTheOther ["a.sol"; "b.sol"] "/w"
           [fNode; importsF "a.sol"; importsF "b.sol"]).
  - cbn. repeat split; lia.
  - vm_compute. reflexivity.
Defined.

(** ** One node for each file fetched *)

Section NodeCount.
Context {E : Type}.
Variable path : PathModule.
Variable resolver : ResolverEngine E.

#[local] Abbreviation resume := (Tree.resume path resolver).
#[local] Abbreviation run := (Tree.run path resolver).

Lemma sum_insert_eq {A : Type} (f : A -> nat) (l : list A) (i : nat) (t t' : A) :
  l !! i = Some t ->
  sum_list_with f (<[i := t']> l) + f t = sum_list_with f l + f t'.
Proof.
  revert i. induction l as [|x l IH]; intros [|i] Hi; simpl in *;
    try discriminate.
  - injection Hi as ->. lia.
  - specialize (IH _ Hi). lia.
Qed.

Lemma nodesDue_continueLoop (n : ImportTreeNode) (d : string) (todo : list string)
    (stack : list Tree.LoopFrame) (res : list ImportTreeNode) :
  let out := Tree.continueLoop (E:=E) n d todo stack res in
  length out.2 + nodesDue out.1 = length res + S (length stack).
Proof.
  destruct todo as [|x rest]; cbn; [|lia]. rewrite length_app. cbn. lia.
Qed.

Lemma rejecting_inserted (l : list (@Tree.Task E)) (i : nat) (t t' : Tree.Task) :
  l !! i = Some t -> rejecting t' = true ->
  existsb rejecting (<[i := t']> l) = true.
Proof.
  revert i. induction l as [|x l IH]; intros [|i] Hi Ht; try discriminate.
  - cbn. now rewrite Ht.
  - cbn [insert list_insert existsb]. change (existsb rejecting (x :: <[i := t']> l) = true).
    cbn [existsb]. rewrite (IH i Hi Ht). apply orb_true_r.
Qed.

Lemma rejecting_none_before (l : list (@Tree.Task E)) (i : nat)
    (t t' : Tree.Task) :
  l !! i = Some t -> rejecting t = false ->
  existsb rejecting (<[i := t']> l) = false -> existsb rejecting l = false.
Proof.
  revert i. induction l as [|x l IH]; intros [|i] Hi Ht; try discriminate.
  - cbn in *. injection Hi as ->. rewrite Ht. intros H.
    now apply orb_false_iff in H as [_ H].
  - change (existsb rejecting (x :: <[i := t']> l) = false
            -> existsb rejecting (x :: l) = false).
    cbn [existsb]. intros H. apply orb_false_iff in H as [Hx H].
    now rewrite Hx, (IH i Hi Ht H).
Qed.

Lemma nodesAccounted_resume (i : nat) (st : Tree.State) :
  nodesAccounted st -> nodesAccounted (resume i st).
Proof.
  intros Hinv. unfold nodesAccounted, Tree.resume.
  destruct (Tree.tasks st !! i) as [[[r c|r c v|v|e] stack| |]|] eqn:Hi;
    try exact Hinv.
  - destruct (resolve resolver r c) as [v|e] eqn:Hr.
    + destruct (decide (v ∈ Tree.alreadyImported st)); cbn; intros Hrej;
        pose proof (Hinv (rejecting_none_before _ _ _ _ Hi eq_refl Hrej)) as H.
      * pose proof (sum_insert_eq nodesDue _ i _
                      (Tree.Running (Tree.AtReturn v) stack) Hi) as Hs.
        cbn in Hs. lia.
      * pose proof (sum_insert_eq nodesDue _ i _
                      (Tree.Running (Tree.AtRequire r c v) stack) Hi) as Hs.
        cbn in Hs. rewrite length_app. cbn. lia.
    + cbn. now rewrite (rejecting_inserted _ _ _ _ Hi).
  - destruct (require resolver r c) as [f|e] eqn:Hq.
    + pose proof (nodesDue_continueLoop
                    {| uri := r; imports := []; node_url := url f;
                       node_source := source f; node_provider := provider f |}
                    (path_dirname path v) (findImports f) stack (Tree.result st))
        as Hc. cbv zeta in Hc.
      destruct (Tree.continueLoop _ _ _ _ _) as [t res]. cbn. intros Hrej.
      pose proof (Hinv (rejecting_none_before _ _ _ _ Hi eq_refl Hrej)) as H.
      cbn in *.
      pose proof (sum_insert_eq nodesDue _ i _ t Hi) as Hs. cbn in Hs. lia.
    + cbn. now rewrite (rejecting_inserted _ _ _ _ Hi).
  - destruct stack as [|fr below].
    + cbn. intros Hrej.
      pose proof (Hinv (rejecting_none_before _ _ _ _ Hi eq_refl Hrej)) as H.
      pose proof (sum_insert_eq nodesDue _ i _ (Tree.Fulfilled v) Hi) as Hs.
      cbn in Hs. lia.
    + pose proof (nodesDue_continueLoop
                    (Tree.pushImport (Tree.fileNode fr)
                       {| edge_uri := Tree.importUri fr; edge_url := v |})
                    (Tree.resolvedCwd fr) (Tree.pending fr) below (Tree.result st))
        as Hc. cbv zeta in Hc.
      destruct (Tree.continueLoop _ _ _ _ _) as [t res]. cbn. intros Hrej.
      pose proof (Hinv (rejecting_none_before _ _ _ _ Hi eq_refl Hrej)) as H.
      cbn in *.
      pose proof (sum_insert_eq nodesDue _ i _ t Hi) as Hs. cbn in Hs. lia.
  - destruct stack as [|fr below]; cbn;
      now rewrite (rejecting_inserted _ _ _ _ Hi).
Qed.

Lemma nodesAccounted_run (s : list nat) (st : Tree.State) :
  nodesAccounted st -> nodesAccounted (run s st).
Proof.
  revert st; induction s as [|i s IH]; intros st H; [exact H|].
  apply IH, nodesAccounted_resume, H.
Qed.

Lemma nothing_due (l : list (@Tree.Task E)) :
  forallb Tree.isFulfilled l = true -> sum_list_with nodesDue l = 0.
Proof.
  induction l as [|t l IH]; cbn; [reflexivity|].
  intros H. apply andb_true_iff in H as [Ht Hl].
  destruct t; try discriminate. cbn. now apply IH.
Qed.

Lemma fulfilled_not_rejecting (l : list (@Tree.Task E)) :
  forallb Tree.isFulfilled l = true -> existsb rejecting l = false.
Proof.
  induction l as [|t l IH]; cbn; [reflexivity|].
  intros H. apply andb_true_iff in H as [Ht Hl].
  destruct t; try discriminate. cbn. now apply IH.
Qed.

End NodeCount.

(** X19: when the call returns a list, the list holds exactly one node for
    each call of [require] that was made, in whatever order the promises
    settled. *)
Theorem one_node_per_fetch
    (E : Type) (path : PathModule) (resolver : ResolverEngine E)
    (schedule : list nat) (roots : list string) (workingDir : string)
    (nodes : list ImportTreeNode) :
  Tree.gatherDepenencyTree path resolver schedule roots workingDir
    = Some (Ok nodes) ->
  length nodes
  = length (Tree.fetched (Tree.run path resolver schedule
                            (Tree.start roots workingDir))).
Proof.
  intros Hg.
  assert (Hstart : nodesAccounted (Tree.start (E:=E) roots workingDir)).
  { intros _. cbn. clear Hg.
    induction roots as [|r rs IH]; cbn; [reflexivity|exact IH]. }
  pose proof (nodesAccounted_run path resolver schedule _ Hstart) as H.
  unfold Tree.gatherDepenencyTree, Tree.settled in Hg.
  destruct (Tree.failure _) eqn:Hf; [discriminate|].
  destruct (forallb _ _) eqn:Hall; [|discriminate]. injection Hg as <-.
  specialize (H (fulfilled_not_rejecting _ Hall)).
  rewrite (nothing_due _ Hall) in H. lia.
Qed.

Lemma one_node_per_fetch_witness :
  length [fNode; fNode; importsF "a.sol"; importsF "b.sol"]
  = length (Tree.fetched (Tree.run node (fsResolver sharedFiles) alternating
                            (Tree.start ["a.sol"; "b.sol"] "/w"))).
Proof.
  apply (one_node_per_fetch ResolverError node (fsResolver sharedFiles)
           alternating ["a.sol"; "b.sol"] "/w").
  vm_compute. reflexivity.
Defined.
